(** * Nebula: metrics collector, WebSocket hub and terminal session manager

    A shallow embedding of the core of the nebula daemon:

    - package [metrics]: the snapshot collector with its bounded history,
      best-effort persistence and subscriber notification;
    - package [terminal]: the session manager (capacity, duplicate and
      allow-list checks, shell resolution, close, read and write);
    - package [websocket]: the hub's coordinating loop (register,
      unregister, broadcast with slow-client shedding) and the two pumps of
      a metrics connection with their deadlines, and the terminal hub;
    - package [storage]: the key-value store, its buckets and the
      metrics history read back newest first;
    - package [api]: the terminal endpoint, which ties a session to a
      client of the terminal hub;
    - the pure helpers of the packages [process], [files] and
      [updater]: search by name, permission strings, version order.

    Go values are modelled as the code has them: [int], [uint64] and
    instants of time as [Z]; strings as [string] (a sequence of bytes);
    slices as lists (the nil slice is the empty list); maps as [gmap];
    pointers to shared objects as keys of an explicit store; a buffered
    channel as its queue, its capacity and its closed flag.  Calls into the
    operating system and into third-party libraries are results supplied by
    an environment record, so that every function of the repository is a
    total, executable Rocq function. *)

From stdpp Require Import gmap strings list fin_maps.
From Stdlib Require Import ZArith Lia Ascii Sorted.

(** ** Go runtime notions shared by the three packages *)

Module Go.

(** An [error] value.  [fmt.Errorf] values are identified by their text,
    [io.EOF] is the sentinel of package [io], every other error comes from
    the operating system or a library. *)
Inductive error : Type :=
| Errorf (msg : string)
| io_EOF
| os_error (msg : string).

#[global] Instance error_eq_dec : EqDecision error.
Proof. solve_decision. Defined.

(** The result of a library call of type [(T, error)] whose value is only
    looked at when the error is nil. *)
Inductive result (A : Type) : Type :=
| Ok (a : A)
| Err (e : error).
Arguments Ok {A} a.
Arguments Err {A} e.

Definition is_ok {A} (r : result A) : bool :=
  match r with Ok _ => true | Err _ => false end.

(** A computation either completes or panics (send on a closed channel,
    close of a closed channel). *)
Inductive outcome (A : Type) : Type :=
| Done (a : A)
| Panic.
Arguments Done {A} a.
Arguments Panic {A}.

Definition obind {A B} (x : outcome A) (f : A -> outcome B) : outcome B :=
  match x with Done a => f a | Panic => Panic end.

(** A buffered channel [make(chan T, cap)]. *)
Record Chan (T : Type) : Type := mkChan {
  buf : list T;
  cap : nat;
  closed : bool
}.
Arguments mkChan {T} buf cap closed.
Arguments buf {T} c.
Arguments cap {T} c.
Arguments closed {T} c.

Definition make_chan {T} (n : nat) : Chan T := mkChan [] n false.

Definition is_open {T} (c : Chan T) : Prop := closed c = false.

Definition full {T} (c : Chan T) : bool := negb (length (buf c) <? cap c)%nat.

(** [select { case ch <- v: ... default: ... }]: the send case is taken
    when the buffer has room, the default case otherwise; a send on a
    closed channel panics whenever the send case is ready to be chosen,
    which for a closed channel is always. *)
Inductive sent (T : Type) : Type :=
| Sent (c : Chan T)
| Default
| SendPanic.
Arguments Sent {T} c.
Arguments Default {T}.
Arguments SendPanic {T}.

Definition try_send {T} (v : T) (c : Chan T) : sent T :=
  if closed c then SendPanic
  else if full c then Default
  else Sent (mkChan (buf c ++ [v]) (cap c) false).

(** [close(ch)]: panics on a channel that is already closed. *)
Definition close {T} (c : Chan T) : outcome (Chan T) :=
  if closed c then Panic else Done (mkChan (buf c) (cap c) true).

(** [v, ok := <-ch] when a value is ready or the channel is closed. *)
Definition recv {T} (c : Chan T) : option (option T * Chan T) :=
  match buf c with
  | v :: rest => Some (Some v, mkChan rest (cap c) (closed c))
  | [] => if closed c then Some (None, c) else None
  end.

(** [time.Duration] and instants, in nanoseconds. *)
Definition Second : Z := 1000000000.

End Go.

Import Go.

(** ** Package storage: the metrics-history bucket *)

Module Storage.

Local Open Scope Z_scope.

Record CPUMetrics : Type := {
  UsagePercent : list Z;
  TotalPercent : Z
}.

Record MemMetrics : Type := {
  Total : Z;
  Used : Z;
  Free : Z;
  UsedPercent : Z;
  SwapTotal : Z;
  SwapUsed : Z;
  SwapFree : Z
}.

Record DiskInfo : Type := {
  Device : string;
  Mountpoint : string;
  Fstype : string;
  dTotal : Z;
  dUsed : Z;
  dFree : Z;
  dUsedPercent : Z
}.

Record NetInfo : Type := {
  Name : string;
  BytesSent : Z;
  BytesRecv : Z;
  PacketsSent : Z;
  PacketsRecv : Z
}.

Record MetricsEntry : Type := {
  Timestamp : Z;
  CPU : CPUMetrics;
  Memory : MemMetrics;
  Disk : list DiskInfo;
  Network : list NetInfo
}.

(** The bucket [metrics_history].  Its key is the RFC 3339 rendering, to
    the nanosecond, of the entry's timestamp; the bucket is keyed here by
    the timestamp itself. *)
Record Storage : Type := {
  metrics_history : gmap Z MetricsEntry
}.

(** [AddMetricsEntry]: marshal the entry and put it under its key.  The
    marshalling and the bolt transaction are the environment's:
    [commit = None] when both succeed, the error otherwise, in which case
    nothing is stored. *)
Definition AddMetricsEntry (commit : option error) (s : Storage)
    (entry : MetricsEntry) : Storage * option error :=
  match commit with
  | None =>
      ({| metrics_history := <[Timestamp entry := entry]> (metrics_history s) |},
       None)
  | Some e => (s, Some e)
  end.

(** [sortMetricsByTimestamp]: the two nested loops, swapping in place.
    [entries[j].Timestamp.After(entries[i].Timestamp)] is
    [Timestamp entries[i] < Timestamp entries[j]]. *)
Definition sort_step (i : nat) (entries : list MetricsEntry) (j : nat)
    : list MetricsEntry :=
  match entries !! i, entries !! j with
  | Some ei, Some ej =>
      if Timestamp ei <? Timestamp ej
      then <[i := ej]> (<[j := ei]> entries)
      else entries
  | _, _ => entries
  end.

Definition sort_inner (entries : list MetricsEntry) (i : nat)
    : list MetricsEntry :=
  foldl (sort_step i) entries (seq (S i) (length entries - S i)).

Definition sortMetricsByTimestamp (entries : list MetricsEntry)
    : list MetricsEntry :=
  foldl sort_inner entries (seq 0 (length entries - 1)).

(** [GetMetricsHistory] on the values of the bucket as the loop over the
    map of [GetAll] meets them.  The bucket exists from [initBuckets] on,
    and its values are the entries that [AddMetricsEntry] put there, so
    that neither [GetAll] nor the parsing of a value fails. *)
Definition GetMetricsHistory_of (all : list MetricsEntry) (limit : Z)
    : list MetricsEntry :=
  let entries := sortMetricsByTimestamp all in
  if (0 <? limit) && (limit <? Z.of_nat (length entries))
  then take (Z.to_nat limit) entries
  else entries.

Definition GetMetricsHistory (s : Storage) (limit : Z) : list MetricsEntry :=
  GetMetricsHistory_of (map_to_list (metrics_history s)).*2 limit.

(** The first [n] entries are settled: each of them is at least as recent
    as every entry behind it.  A list is newest first when all its
    entries are settled. *)
Definition settled (n : nat) (entries : list MetricsEntry) : Prop :=
  forall p q a b,
    (p < n)%nat -> (p < q)%nat ->
    entries !! p = Some a -> entries !! q = Some b ->
    Timestamp b <= Timestamp a.

Definition newest_first (entries : list MetricsEntry) : Prop :=
  settled (length entries) entries.

(** *** The key-value store

    The database of the store: its buckets, each a map from keys to
    values.  The database is open; [commit] is what bolt answers to the
    writes of a transaction and to its commit ([None] when they succeed;
    on an error the transaction is rolled back). *)

Definition AllBuckets : list string :=
  ["config"; "metrics_history"; "sessions"; "terminal_sessions";
   "bookmarks"; "preferences"; "audit_log"].

Definition bucket_not_found (bucket : string) : error :=
  Errorf ("bucket " +:+ bucket +:+ " not found").

(** [initBuckets]: [CreateBucketIfNotExists] for every bucket name. *)
Definition initBuckets (commit : option error)
    (db : gmap string (gmap string string))
    : gmap string (gmap string string) * option error :=
  match commit with
  | Some e => (db, Some e)
  | None =>
      (foldl (fun db bucket =>
                match db !! bucket with
                | Some _ => db
                | None => <[bucket := ∅]> db
                end) db AllBuckets, None)
  end.

(** [Get]: the nil slice is [None]. *)
Definition Get (db : gmap string (gmap string string)) (bucket key : string)
    : option string * option error :=
  match db !! bucket with
  | None => (None, Some (bucket_not_found bucket))
  | Some b => (b !! key, None)
  end.

(** [Set] (a reserved word here, hence the name). *)
Definition Set_ (commit : option error) (db : gmap string (gmap string string))
    (bucket key value : string)
    : gmap string (gmap string string) * option error :=
  match db !! bucket with
  | None => (db, Some (bucket_not_found bucket))
  | Some b =>
      match commit with
      | Some e => (db, Some e)
      | None => (<[bucket := <[key := value]> b]> db, None)
      end
  end.

Definition Delete (commit : option error)
    (db : gmap string (gmap string string)) (bucket key : string)
    : gmap string (gmap string string) * option error :=
  match db !! bucket with
  | None => (db, Some (bucket_not_found bucket))
  | Some b =>
      match commit with
      | Some e => (db, Some e)
      | None => (<[bucket := delete key b]> db, None)
      end
  end.

Definition GetAll (db : gmap string (gmap string string)) (bucket : string)
    : gmap string string * option error :=
  match db !! bucket with
  | None => (∅, Some (bucket_not_found bucket))
  | Some b => (b, None)
  end.

Definition Count (db : gmap string (gmap string string)) (bucket : string)
    : Z * option error :=
  match db !! bucket with
  | None => (0, Some (bucket_not_found bucket))
  | Some b => (Z.of_nat (size b), None)
  end.

(** [DeleteOlderThan].  [timestamp_of] is the parsing of a value as a
    JSON object with a [timestamp] field: [None] when the value does not
    parse, the timestamp otherwise (the zero time when the object has no
    such field).  The first transaction collects the keys of the values
    older than the cutoff, the second deletes them. *)
Definition keysToDelete (timestamp_of : string -> option Z) (cutoff : Z)
    (b : gmap string string) : list string :=
  foldl (fun keys (kv : string * string) =>
           match timestamp_of kv.2 with
           | Some t => if t <? cutoff then keys ++ [kv.1] else keys
           | None => keys
           end) [] (map_to_list b).

Definition DeleteOlderThan (timestamp_of : string -> option Z) (now : Z)
    (commit : option error) (db : gmap string (gmap string string))
    (bucket : string) (duration : Z)
    : gmap string (gmap string string) * option error :=
  let cutoff := now - duration in
  match db !! bucket with
  | None => (db, Some (bucket_not_found bucket))
  | Some b =>
      let keys := keysToDelete timestamp_of cutoff b in
      if bool_decide (length keys = 0%nat) then (db, None)
      else
        match commit with
        | Some e => (db, Some e)
        | None =>
            (<[bucket := foldl (fun b key => delete key b) b keys]> db, None)
        end
  end.

End Storage.

(** ** Package metrics *)

Module Metrics.

Local Open Scope Z_scope.

(** [float64] values are only copied by this package, never computed on:
    they are carried as their IEEE-754 bit pattern, whose zero is [0]. *)
Definition float64 : Type := Z.

Record SystemInfo : Type := {
  Hostname : string;
  OS : string;
  Platform : string;
  PlatformVersion : string;
  KernelVersion : string;
  KernelArch : string;
  Uptime : Z;
  BootTime : Z;
  NumCPU : Z
}.

Record CPUInfo : Type := {
  Cores : Z;
  ModelName : string;
  Mhz : float64;
  UsagePercent : list float64;
  TotalPercent : float64
}.

Record MemoryInfo : Type := {
  mTotal : Z;
  mUsed : Z;
  mFree : Z;
  mAvailable : Z;
  mUsedPercent : float64;
  SwapTotal : Z;
  SwapUsed : Z;
  SwapFree : Z
}.

Record DiskInfo : Type := {
  Device : string;
  Mountpoint : string;
  Fstype : string;
  dTotal : Z;
  dUsed : Z;
  dFree : Z;
  dUsedPercent : float64
}.

Record NetworkInfo : Type := {
  Name : string;
  BytesSent : Z;
  BytesRecv : Z;
  PacketsSent : Z;
  PacketsRecv : Z;
  Errin : Z;
  Errout : Z
}.

Record AllMetrics : Type := {
  Timestamp : Z;
  System : SystemInfo;
  CPU : CPUInfo;
  Memory : MemoryInfo;
  Disks : list DiskInfo;
  Network : list NetworkInfo
}.

(** The zero values [SystemInfo{}], [CPUInfo{}], [MemoryInfo{}] and
    [AllMetrics{}]. *)
Definition SystemInfo_zero : SystemInfo :=
  {| Hostname := ""; OS := ""; Platform := ""; PlatformVersion := "";
     KernelVersion := ""; KernelArch := ""; Uptime := 0; BootTime := 0;
     NumCPU := 0 |}.

Definition CPUInfo_zero : CPUInfo :=
  {| Cores := 0; ModelName := ""; Mhz := 0; UsagePercent := [];
     TotalPercent := 0 |}.

Definition MemoryInfo_zero : MemoryInfo :=
  {| mTotal := 0; mUsed := 0; mFree := 0; mAvailable := 0; mUsedPercent := 0;
     SwapTotal := 0; SwapUsed := 0; SwapFree := 0 |}.

Definition AllMetrics_zero : AllMetrics :=
  {| Timestamp := 0; System := SystemInfo_zero; CPU := CPUInfo_zero;
     Memory := MemoryInfo_zero; Disks := []; Network := [] |}.

(** *** What the operating system answers during one tick

    The fields of the gopsutil structures that the collector reads. *)

Record host_InfoStat : Type := {
  h_Hostname : string;
  h_OS : string;
  h_Platform : string;
  h_PlatformVersion : string;
  h_KernelVersion : string;
  h_KernelArch : string;
  h_Uptime : Z;
  h_BootTime : Z
}.

Record cpu_InfoStat : Type := {
  c_Cores : Z;
  c_ModelName : string;
  c_Mhz : float64
}.

Record mem_VirtualMemoryStat : Type := {
  v_Total : Z;
  v_Used : Z;
  v_Free : Z;
  v_Available : Z;
  v_UsedPercent : float64
}.

Record mem_SwapMemoryStat : Type := {
  s_Total : Z;
  s_Used : Z;
  s_Free : Z
}.

Record disk_PartitionStat : Type := {
  p_Device : string;
  p_Mountpoint : string;
  p_Fstype : string
}.

Record disk_UsageStat : Type := {
  u_Total : Z;
  u_Used : Z;
  u_Free : Z;
  u_UsedPercent : float64
}.

Record Host : Type := {
  time_Now : Z;
  runtime_NumCPU : Z;
  host_Info : result host_InfoStat;
  cpu_Info : result (list cpu_InfoStat);
  cpu_Percent_percpu : result (list float64);
  cpu_Percent_total : result (list float64);
  mem_VirtualMemory : result mem_VirtualMemoryStat;
  mem_SwapMemory : result mem_SwapMemoryStat;
  disk_Partitions : result (list disk_PartitionStat);
  disk_Usage : string -> result disk_UsageStat;
  net_IOCounters : result (list NetworkInfo);
  (* whether the bolt transaction of this tick commits *)
  db_Update : option error
}.

(** *** The five sub-collections

    Each returns a value and an error, as in Go; the value is meaningful
    to the caller only when the error is nil ([None]). *)

Definition GetSystemInfo (h : Host) : SystemInfo * option error :=
  let info :=
    {| Hostname := ""; OS := ""; Platform := ""; PlatformVersion := "";
       KernelVersion := ""; KernelArch := ""; Uptime := 0; BootTime := 0;
       NumCPU := runtime_NumCPU h |} in
  match host_Info h with
  | Err e => (info, Some e)
  | Ok hostInfo =>
      ({| Hostname := h_Hostname hostInfo; OS := h_OS hostInfo;
          Platform := h_Platform hostInfo;
          PlatformVersion := h_PlatformVersion hostInfo;
          KernelVersion := h_KernelVersion hostInfo;
          KernelArch := h_KernelArch hostInfo;
          Uptime := h_Uptime hostInfo; BootTime := h_BootTime hostInfo;
          NumCPU := NumCPU info |}, None)
  end.

Definition GetCPUInfo (h : Host) : CPUInfo * option error :=
  let info := CPUInfo_zero in
  let info :=
    match cpu_Info h with
    | Ok (c0 :: _) =>
        {| Cores := c_Cores c0; ModelName := c_ModelName c0; Mhz := c_Mhz c0;
           UsagePercent := UsagePercent info;
           TotalPercent := TotalPercent info |}
    | _ => info
    end in
  let info :=
    match cpu_Percent_percpu h with
    | Ok perCPU =>
        {| Cores := Cores info; ModelName := ModelName info; Mhz := Mhz info;
           UsagePercent := perCPU; TotalPercent := TotalPercent info |}
    | Err _ => info
    end in
  let info :=
    match cpu_Percent_total h with
    | Ok (t0 :: _) =>
        {| Cores := Cores info; ModelName := ModelName info; Mhz := Mhz info;
           UsagePercent := UsagePercent info; TotalPercent := t0 |}
    | _ => info
    end in
  (info, None).

Definition GetMemoryInfo (h : Host) : MemoryInfo * option error :=
  let info := MemoryInfo_zero in
  match mem_VirtualMemory h with
  | Err e => (info, Some e)
  | Ok vmem =>
      let info :=
        {| mTotal := v_Total vmem; mUsed := v_Used vmem; mFree := v_Free vmem;
           mAvailable := v_Available vmem; mUsedPercent := v_UsedPercent vmem;
           SwapTotal := 0; SwapUsed := 0; SwapFree := 0 |} in
      let info :=
        match mem_SwapMemory h with
        | Ok swap =>
            {| mTotal := mTotal info; mUsed := mUsed info; mFree := mFree info;
               mAvailable := mAvailable info;
               mUsedPercent := mUsedPercent info;
               SwapTotal := s_Total swap; SwapUsed := s_Used swap;
               SwapFree := s_Free swap |}
        | Err _ => info
        end in
      (info, None)
  end.

(** The loop over the partitions: a partition whose usage cannot be read
    is skipped ([continue]). *)
Fixpoint disk_loop (h : Host) (partitions : list disk_PartitionStat)
    (disks : list DiskInfo) : list DiskInfo :=
  match partitions with
  | [] => disks
  | p :: rest =>
      match disk_Usage h (p_Mountpoint p) with
      | Err _ => disk_loop h rest disks
      | Ok usage =>
          disk_loop h rest
            (disks ++ [{| Device := p_Device p; Mountpoint := p_Mountpoint p;
                          Fstype := p_Fstype p; dTotal := u_Total usage;
                          dUsed := u_Used usage; dFree := u_Free usage;
                          dUsedPercent := u_UsedPercent usage |}])
      end
  end.

Definition GetDiskInfo (h : Host) : list DiskInfo * option error :=
  let disks := [] in
  match disk_Partitions h with
  | Err e => (disks, Some e)
  | Ok partitions => (disk_loop h partitions disks, None)
  end.

(** [net.IOCountersStat] carries the seven fields of [NetworkInfo] under
    the same names; the loop copies them one by one. *)
Fixpoint net_loop (counters : list NetworkInfo) (networks : list NetworkInfo)
    : list NetworkInfo :=
  match counters with
  | [] => networks
  | counter :: rest =>
      net_loop rest
        (networks ++ [{| Name := Name counter; BytesSent := BytesSent counter;
                         BytesRecv := BytesRecv counter;
                         PacketsSent := PacketsSent counter;
                         PacketsRecv := PacketsRecv counter;
                         Errin := Errin counter; Errout := Errout counter |}])
  end.

Definition GetNetworkInfo (h : Host) : list NetworkInfo * option error :=
  let networks := [] in
  match net_IOCounters h with
  | Err e => (networks, Some e)
  | Ok counters => (net_loop counters networks, None)
  end.

(** *** The collector *)

(** The store behind [storage] is shared with other components, which
    write other buckets; the collector's view of it is kept in the
    collector. *)
Record Collector : Type := {
  storage : option Storage.Storage;
  interval : Z;
  history : list AllMetrics;
  histSize : Z;
  subscribers : list (Chan AllMetrics)
}.

(** [make([]AllMetrics, 0, historySize)] panics on a negative capacity. *)
Definition NewCollector (store : option Storage.Storage) (interval : Z)
    (historySize : Z) : outcome Collector :=
  if historySize <? 0 then Panic
  else Done {| storage := store; interval := interval; history := [];
               histSize := historySize; subscribers := [] |}.

(** Lines 125-152 of [collect]: the snapshot starts as the zero value with
    the current time, and each section is assigned only when its
    sub-collection returned a nil error. *)
Definition gather (h : Host) : AllMetrics :=
  let metrics :=
    {| Timestamp := time_Now h; System := SystemInfo_zero;
       CPU := CPUInfo_zero; Memory := MemoryInfo_zero; Disks := [];
       Network := [] |} in
  let metrics :=
    match GetSystemInfo h with
    | (info, None) =>
        {| Timestamp := Timestamp metrics; System := info;
           CPU := CPU metrics; Memory := Memory metrics;
           Disks := Disks metrics; Network := Network metrics |}
    | (_, Some _) => metrics
    end in
  let metrics :=
    match GetCPUInfo h with
    | (cpu, None) =>
        {| Timestamp := Timestamp metrics; System := System metrics;
           CPU := cpu; Memory := Memory metrics;
           Disks := Disks metrics; Network := Network metrics |}
    | (_, Some _) => metrics
    end in
  let metrics :=
    match GetMemoryInfo h with
    | (mem, None) =>
        {| Timestamp := Timestamp metrics; System := System metrics;
           CPU := CPU metrics; Memory := mem;
           Disks := Disks metrics; Network := Network metrics |}
    | (_, Some _) => metrics
    end in
  let metrics :=
    match GetDiskInfo h with
    | (disks, None) =>
        {| Timestamp := Timestamp metrics; System := System metrics;
           CPU := CPU metrics; Memory := Memory metrics;
           Disks := disks; Network := Network metrics |}
    | (_, Some _) => metrics
    end in
  let metrics :=
    match GetNetworkInfo h with
    | (net, None) =>
        {| Timestamp := Timestamp metrics; System := System metrics;
           CPU := CPU metrics; Memory := Memory metrics;
           Disks := Disks metrics; Network := net |}
    | (_, Some _) => metrics
    end in
  metrics.

(** Lines 155-160: append, then drop the oldest entry when the length
    exceeds [histSize]. *)
Definition store_in_history (histSize : Z) (history : list AllMetrics)
    (metrics : AllMetrics) : list AllMetrics :=
  let history := history ++ [metrics] in
  if histSize <? Z.of_nat (length history) then drop 1 history else history.

(** Lines 164-199: the entry handed to the store. *)
Definition entry_of (metrics : AllMetrics) : Storage.MetricsEntry :=
  {| Storage.Timestamp := Timestamp metrics;
     Storage.CPU :=
       {| Storage.UsagePercent := UsagePercent (CPU metrics);
          Storage.TotalPercent := TotalPercent (CPU metrics) |};
     Storage.Memory :=
       {| Storage.Total := mTotal (Memory metrics);
          Storage.Used := mUsed (Memory metrics);
          Storage.Free := mFree (Memory metrics);
          Storage.UsedPercent := mUsedPercent (Memory metrics);
          Storage.SwapTotal := SwapTotal (Memory metrics);
          Storage.SwapUsed := SwapUsed (Memory metrics);
          Storage.SwapFree := SwapFree (Memory metrics) |};
     Storage.Disk :=
       map (fun d =>
              {| Storage.Device := Device d;
                 Storage.Mountpoint := Mountpoint d;
                 Storage.Fstype := Fstype d; Storage.dTotal := dTotal d;
                 Storage.dUsed := dUsed d; Storage.dFree := dFree d;
                 Storage.dUsedPercent := dUsedPercent d |})
           (Disks metrics);
     Storage.Network :=
       map (fun n =>
              {| Storage.Name := Name n; Storage.BytesSent := BytesSent n;
                 Storage.BytesRecv := BytesRecv n;
                 Storage.PacketsSent := PacketsSent n;
                 Storage.PacketsRecv := PacketsRecv n |})
           (Network metrics) |}.

(** [notifySubscribers]: a non-blocking send to every subscriber; a full
    channel is skipped. *)
Fixpoint notifySubscribers (metrics : AllMetrics)
    (subs : list (Chan AllMetrics)) : outcome (list (Chan AllMetrics)) :=
  match subs with
  | [] => Done []
  | ch :: rest =>
      match try_send metrics ch with
      | SendPanic => Panic
      | Sent ch' =>
          obind (notifySubscribers metrics rest) (fun r => Done (ch' :: r))
      | Default =>
          obind (notifySubscribers metrics rest) (fun r => Done (ch :: r))
      end
  end.

(** [collect]: it has no result and returns no error; the error of
    [AddMetricsEntry] is discarded. *)
Definition collect (h : Host) (c : Collector) : outcome Collector :=
  let metrics := gather h in
  let history' := store_in_history (histSize c) (history c) metrics in
  let storage' :=
    match storage c with
    | Some s =>
        Some (fst (Storage.AddMetricsEntry (db_Update h) s (entry_of metrics)))
    | None => None
    end in
  obind (notifySubscribers metrics (subscribers c)) (fun subs =>
    Done {| storage := storage'; interval := interval c;
            history := history'; histSize := histSize c;
            subscribers := subs |}).

(** [Start] collects at once and then at every tick of the ticker until
    the context is cancelled: one [collect] per element of [ticks], in
    order, and never two at once. *)
Fixpoint Start (ticks : list Host) (c : Collector) : outcome Collector :=
  match ticks with
  | [] => Done c
  | h :: rest => obind (collect h c) (Start rest)
  end.

Definition Subscribe (c : Collector) : Collector :=
  {| storage := storage c; interval := interval c; history := history c;
     histSize := histSize c;
     subscribers := subscribers c ++ [make_chan 10] |}.

Definition GetLatest (c : Collector) : AllMetrics :=
  if decide (length (history c) = 0%nat) then AllMetrics_zero
  else default AllMetrics_zero (history c !! (length (history c) - 1)%nat).

(** [GetHistory] returns a copy of the slice. *)
Definition GetHistory (c : Collector) : list AllMetrics :=
  take (length (history c)) (history c).

(** [Unsubscribe].  Channels are compared by identity; the channel passed
    is identified here by the position at which the loop finds it among
    the subscribers, [None] when it is not among them (a position past
    the end finds nothing either). *)
Definition Unsubscribe (pos : option nat) (c : Collector) : outcome Collector :=
  match pos with
  | Some i =>
      match subscribers c !! i with
      | Some ch =>
          obind (close ch) (fun _ =>
            Done {| storage := storage c; interval := interval c;
                    history := history c; histSize := histSize c;
                    subscribers := delete i (subscribers c) |})
      | None => Done c
      end
  | None => Done c
  end.

(** The goroutine of [main] that ranges over its channel takes the next
    snapshot of the queue of subscriber [i]. *)
Definition receive (i : nat) (c : Collector) : Collector :=
  match subscribers c !! i with
  | Some ch =>
      match recv ch with
      | Some (_, ch') =>
          {| storage := storage c; interval := interval c;
             history := history c; histSize := histSize c;
             subscribers := <[i := ch']> (subscribers c) |}
      | None => c
      end
  | None => c
  end.

(** What can happen to a collector. *)
Inductive cevent : Type :=
| Tick (h : Host)
| Sub
| Unsub (pos : option nat)
| Receive (i : nat).

Definition cstep (e : cevent) (c : Collector) : outcome Collector :=
  match e with
  | Tick h => collect h c
  | Sub => Done (Subscribe c)
  | Unsub pos => Unsubscribe pos c
  | Receive i => Done (receive i c)
  end.

Fixpoint crun (es : list cevent) (c : Collector) : outcome Collector :=
  match es with
  | [] => Done c
  | e :: rest => obind (cstep e c) (crun rest)
  end.

(** The disk entry of a partition whose usage can be read. *)
Definition disk_of (h : Host) (p : disk_PartitionStat) : option DiskInfo :=
  match disk_Usage h (p_Mountpoint p) with
  | Err _ => None
  | Ok usage =>
      Some {| Device := p_Device p; Mountpoint := p_Mountpoint p;
              Fstype := p_Fstype p; dTotal := u_Total usage;
              dUsed := u_Used usage; dFree := u_Free usage;
              dUsedPercent := u_UsedPercent usage |}
  end.

End Metrics.

(** ** Package terminal *)

Module Terminal.

Local Open Scope Z_scope.

(** What the operating system answers to the terminal package. *)
Record Platform : Type := {
  GOOS : string;
  (* exec.LookPath *)
  LookPath : string -> result string;
  (* starting the shell on a pseudo-terminal (pipes on Windows):
     nil, or the error of the failed start *)
  spawn : string -> Z -> Z -> option error;
  (* the results of the calls on the pseudo-terminal of a session *)
  Pty_Read : nat -> nat -> string * option error;
  Pty_Write : nat -> string -> Z * option error;
  Pty_Close : nat -> option error
}.

(** The calls made to the operating system, in order. *)
Inductive syscall : Type :=
| SysSpawn (shell : string) (cols rows : Z)
| SysKill (pid : nat)
| SysPtyClose (fd : nat)
| SysPtyRead (fd : nat)
| SysPtyWrite (fd : nat) (data : string).

(** A [Session] object.  [Cmd] stands for [s.Cmd] with a started process
    ([s.Cmd != nil && s.Cmd.Process != nil]) and holds its process handle;
    [Pty] holds the descriptor, [None] being the nil interface. *)
Record Session : Type := {
  ID : string;
  Shell : string;
  Cmd : option nat;
  Pty : option nat;
  closed : bool
}.

(** Sessions are shared by pointer between the manager's registry and the
    WebSocket handlers: [objs] maps each address to its object. *)
Record World : Type := {
  objs : gmap nat Session;
  next : nat;
  trace : list syscall
}.

Record Manager : Type := {
  sessions : gmap string nat;
  maxSessions : Z;
  allowedShells : list string;
  defaultShell : string
}.

Definition NewManager (maxSessions : Z) (allowedShells : list string)
    (defaultShell : string) : Manager :=
  {| sessions := ∅; maxSessions := maxSessions;
     allowedShells := allowedShells; defaultShell := defaultShell |}.

(** The errors of the manager, under the names of the error taxonomy. *)
Definition CapacityExceeded : error := Errorf "maximum sessions reached".
Definition DuplicateSession : error := Errorf "session already exists".
Definition ShellNotAllowed (shell : string) : error :=
  Errorf ("shell not allowed: " +:+ shell).
Definition SessionNotFound : error := Errorf "session not found".

(** [IsClosed] *)
Definition IsClosed (s : Session) : bool := closed s.

Fixpoint GetAvailableShells_loop (os : Platform) (allowed : list string)
    (shells : list string) : list string :=
  match allowed with
  | [] => shells
  | shell :: rest =>
      match LookPath os shell with
      | Ok path => GetAvailableShells_loop os rest (shells ++ [path])
      | Err _ => GetAvailableShells_loop os rest shells
      end
  end.

Definition GetAvailableShells (os : Platform) (m : Manager) : list string :=
  GetAvailableShells_loop os (allowedShells m) [].

Definition GetDefaultShell (os : Platform) (m : Manager) : string :=
  let configured :=
    if bool_decide (defaultShell m <> "") then
      match LookPath os (defaultShell m) with
      | Ok path => Some path
      | Err _ => None
      end
    else None in
  match configured with
  | Some path => path
  | None =>
      (* Auto-detect *)
      if bool_decide (GOOS os = "windows") then
        match LookPath os "powershell" with
        | Ok path => path
        | Err _ =>
            match LookPath os "cmd" with
            | Ok path => path
            | Err _ => ""
            end
        end
      else
        match LookPath os "bash" with
        | Ok path => path
        | Err _ =>
            match LookPath os "sh" with
            | Ok path => path
            | Err _ => ""
            end
        end
  end.

(** The names tried by [GetDefaultShell] when no configured default is
    found on the PATH. *)
Definition fallback_names (os : Platform) : list string :=
  if bool_decide (GOOS os = "windows") then ["powershell"; "cmd"]
  else ["bash"; "sh"].

(** [lastIndex]: the loop examines the indices [i-1], ..., [0]. *)
Fixpoint lastIndex_from (s : string) (c : ascii) (i : nat) : Z :=
  match i with
  | O => -1
  | S j =>
      if bool_decide (String.get j s = Some c) then Z.of_nat j
      else lastIndex_from s c j
  end.

Definition lastIndex (s : string) (c : ascii) : Z :=
  lastIndex_from s c (String.length s).

(** The slice [s[i:]]. *)
Definition slice_from (s : string) (i : Z) : string :=
  String.substring (Z.to_nat i) (String.length s - Z.to_nat i)%nat s.

(** The base name as [IsShellAllowed] extracts it: what follows the last
    slash, overridden by what follows the last backslash when there is
    one. *)
Definition baseName (shell : string) : string :=
  let baseName := shell in
  let baseName :=
    let idx := lastIndex shell "/"%char in
    if 0 <=? idx then slice_from shell (idx + 1) else baseName in
  let baseName :=
    let idx := lastIndex shell "\"%char in
    if 0 <=? idx then slice_from shell (idx + 1) else baseName in
  baseName.

Fixpoint IsShellAllowed_loop (shell baseName : string)
    (allowed : list string) : bool :=
  match allowed with
  | [] => false
  | a :: rest =>
      if bool_decide (shell = a) || bool_decide (baseName = a) then true
      else IsShellAllowed_loop shell baseName rest
  end.

Definition IsShellAllowed (m : Manager) (shell : string) : bool :=
  IsShellAllowed_loop shell (baseName shell) (allowedShells m).

(** [newPlatformSession]: on a failed start no session exists; otherwise a
    new object holding the command and the pseudo-terminal. *)
Definition newPlatformSession (os : Platform) (id shell : string)
    (cols rows : Z) (w : World) : World * result nat :=
  let tr := trace w ++ [SysSpawn shell cols rows] in
  match spawn os shell cols rows with
  | Some e => ({| objs := objs w; next := next w; trace := tr |}, Err e)
  | None =>
      let p := next w in
      let session :=
        {| ID := id; Shell := shell; Cmd := Some p; Pty := Some p;
           closed := false |} in
      ({| objs := <[p := session]> (objs w); next := S p; trace := tr |},
       Ok p)
  end.

Definition CreateSession (os : Platform) (m : Manager) (id shell : string)
    (cols rows : Z) (w : World) : Manager * World * result nat :=
  if maxSessions m <=? Z.of_nat (size (sessions m)) then
    (m, w, Err (Errorf "maximum sessions reached"))
  else if bool_decide (is_Some (sessions m !! id)) then
    (m, w, Err (Errorf "session already exists"))
  else
    let shell :=
      if bool_decide (shell = "") then GetDefaultShell os m else shell in
    if negb (IsShellAllowed m shell) then
      (m, w, Err (Errorf ("shell not allowed: " +:+ shell)))
    else
      match newPlatformSession os id shell cols rows w with
      | (w', Err e) => (m, w', Err e)
      | (w', Ok session) =>
          ({| sessions := <[id := session]> (sessions m);
              maxSessions := maxSessions m;
              allowedShells := allowedShells m;
              defaultShell := defaultShell m |}, w', Ok session)
      end.

Definition GetSession (m : Manager) (id : string) : option nat :=
  sessions m !! id.

(** [Session.Close], on the object: the flag is tested and set first, the
    process is killed (the result of [Kill] is dropped), and the result
    of closing the pseudo-terminal is returned. *)
Definition Session_Close (os : Platform) (s : Session) (tr : list syscall)
    : Session * list syscall * option error :=
  if closed s then (s, tr, None)
  else
    let s' :=
      {| ID := ID s; Shell := Shell s; Cmd := Cmd s; Pty := Pty s;
         closed := true |} in
    let tr := match Cmd s with Some pid => tr ++ [SysKill pid] | None => tr end in
    match Pty s with
    | Some fd => (s', tr ++ [SysPtyClose fd], Pty_Close os fd)
    | None => (s', tr, None)
    end.

(** A method called through a pointer: the object at [p] is replaced by
    the one the method leaves.  Every pointer held by the registry or by a
    handler was returned by [newPlatformSession] and stays allocated. *)
Definition Close (os : Platform) (p : nat) (w : World) : World * option error :=
  match objs w !! p with
  | Some s =>
      let '(s', tr, err) := Session_Close os s (trace w) in
      ({| objs := <[p := s']> (objs w); next := next w; trace := tr |}, err)
  | None => (w, None)
  end.

Definition CloseSession (os : Platform) (m : Manager) (id : string)
    (w : World) : Manager * World * option error :=
  match sessions m !! id with
  | None => (m, w, Some (Errorf "session not found"))
  | Some session =>
      let w' := fst (Close os session w) in
      ({| sessions := delete id (sessions m); maxSessions := maxSessions m;
          allowedShells := allowedShells m;
          defaultShell := defaultShell m |}, w', None)
  end.

Definition ListSessions (m : Manager) : list string :=
  (map_to_list (sessions m)).*1.

(** [Manager.Close]: every session is closed and deleted. *)
Definition Manager_Close (os : Platform) (m : Manager) (w : World)
    : Manager * World :=
  let w' :=
    foldl (fun w (e : string * nat) => fst (Close os e.2 w)) w
          (map_to_list (sessions m)) in
  ({| sessions := ∅; maxSessions := maxSessions m;
      allowedShells := allowedShells m; defaultShell := defaultShell m |}, w').

(** [Session.Read] into a buffer of [n] bytes and [Session.Write]: on a
    closed session nothing is asked of the pseudo-terminal; otherwise the
    call and its result are the pseudo-terminal's.  A call on a nil
    [Pty] panics. *)
Definition Read (os : Platform) (s : Session) (n : nat) (tr : list syscall)
    : outcome (list syscall * (string * option error)) :=
  if IsClosed s then Done (tr, ("", Some io_EOF))
  else
    match Pty s with
    | Some fd => Done (tr ++ [SysPtyRead fd], Pty_Read os fd n)
    | None => Panic
    end.


(** The deferred function of [handleTerminalInput], run when the inbound
    pump ends: it calls [CloseSession] and drops its result.  (Its second
    call, [RemoveClient], acts on the terminal hub only.) *)
Definition handleTerminalInput_deferred (os : Platform) (m : Manager)
    (id : string) (w : World) : Manager * World :=
  let '(m', w', _) := CloseSession os m id w in (m', w').

(** The calls that the handlers and [main] make on the manager: the
    terminal endpoint creates a session, the end of its inbound pump
    closes it, and shutdown closes all of them. *)
Inductive call : Type :=
| CallCreate (os : Platform) (id shell : string) (cols rows : Z)
| CallClose (os : Platform) (id : string)
| CallShutdown (os : Platform).

Definition do_call (c : call) (mw : Manager * World) : Manager * World :=
  match c with
  | CallCreate os id shell cols rows =>
      (CreateSession os mw.1 id shell cols rows mw.2).1
  | CallClose os id => handleTerminalInput_deferred os mw.1 id mw.2
  | CallShutdown os => Manager_Close os mw.1 mw.2
  end.

Definition do_calls (cs : list call) (mw : Manager * World) : Manager * World :=
  foldl (fun mw c => do_call c mw) mw cs.

End Terminal.

(** ** Package websocket *)

Module Websocket.

Local Open Scope Z_scope.

(** A serialized message ([[]byte]). *)
Definition message : Type := string.

(** *** The hub *)

(** A [Client] object, as far as the hub is concerned. *)
Record Client : Type := {
  send : Chan message;
  id : string
}.

(** The hub and what its loop acts upon: the set [h.clients], keyed by
    client address; the [Client] objects; and the goroutines started by
    the broadcast case, each blocked in [h.unregister <- c] until the loop
    receives from it. *)
Record State : Type := {
  clients : gmap nat bool;
  objs : gmap nat Client;
  next : nat;
  unregistering : list nat
}.

Definition NewHub : State :=
  {| clients := ∅; objs := ∅; next := O; unregistering := [] |}.

(** [case client := <-h.register] *)
Definition Run_register (client : nat) (s : State) : State :=
  {| clients := <[client := true]> (clients s); objs := objs s;
     next := next s; unregistering := unregistering s |}.

(** [case client := <-h.unregister] *)
Definition Run_unregister (client : nat) (s : State) : outcome State :=
  match clients s !! client with
  | Some _ =>
      match objs s !! client with
      | Some c =>
          obind (close (send c)) (fun ch =>
            Done {| clients := delete client (clients s);
                    objs := <[client := {| send := ch; id := id c |}]> (objs s);
                    next := next s; unregistering := unregistering s |})
      | None => Panic
      end
  | None => Done s
  end.

(** The body of the loop of the broadcast case, for one client. *)
Definition broadcast_one (msg : message) (client : nat) (s : State)
    : outcome State :=
  match objs s !! client with
  | Some c =>
      match try_send msg (send c) with
      | Sent ch =>
          Done {| clients := clients s;
                  objs := <[client := {| send := ch; id := id c |}]> (objs s);
                  next := next s; unregistering := unregistering s |}
      | Default =>
          (* go func(c *Client) { h.unregister <- c }(client) *)
          Done {| clients := clients s; objs := objs s; next := next s;
                  unregistering := unregistering s ++ [client] |}
      | SendPanic => Panic
      end
  | None => Panic
  end.

(** [for client := range h.clients], the clients being visited in the
    order [order]. *)
Fixpoint broadcast_loop (msg : message) (order : list nat) (s : State)
    : outcome State :=
  match order with
  | [] => Done s
  | client :: rest => obind (broadcast_one msg client s) (broadcast_loop msg rest)
  end.

(** [case message := <-h.broadcast].  Go leaves the order of iteration
    over a map unspecified; this function takes the order of the keys of
    the [gmap], and the properties of the loop are proved for every
    order. *)
Definition Run_broadcast (msg : message) (s : State) : outcome State :=
  broadcast_loop msg (map_to_list (clients s)).*1 s.

(** [HandleWebSocket], once the upgrade has succeeded: a new client with
    a queue of 256 messages is handed to the loop, which registers it. *)
Definition HandleWebSocket (clientID : string) (s : State) : State :=
  let client := next s in
  Run_register client
    {| clients := clients s;
       objs := <[client := {| send := make_chan 256; id := clientID |}]> (objs s);
       next := S client; unregistering := unregistering s |}.

(** One occurrence of a client leaves the list of blocked goroutines. *)
Fixpoint remove_first (client : nat) (l : list nat) : list nat :=
  match l with
  | [] => []
  | x :: rest => if bool_decide (x = client) then rest else x :: remove_first client rest
  end.

(** The write pump takes the next message of a client's queue. *)
Definition drain (client : nat) (s : State) : State :=
  match objs s !! client with
  | Some c =>
      match recv (send c) with
      | Some (_, ch) =>
          {| clients := clients s;
             objs := <[client := {| send := ch; id := id c |}]> (objs s);
             next := next s; unregistering := unregistering s |}
      | None => s
      end
  | None => s
  end.

(** What can happen to the hub. *)
Inductive event : Type :=
| Connect (clientID : string)
    (* HandleWebSocket *)
| Unregister (client : nat)
    (* the loop receives [client] from a read pump that ended or from
       Client.Close *)
| Shed (client : nat)
    (* the loop receives [client] from a goroutine started by the
       broadcast case *)
| Broadcast (msg : message)
    (* the loop receives a message *)
| Drain (client : nat).
    (* a write pump receives from its queue *)

Definition step (e : event) (s : State) : outcome State :=
  match e with
  | Connect clientID => Done (HandleWebSocket clientID s)
  | Unregister client => Run_unregister client s
  | Shed client =>
      if bool_decide (client ∈ unregistering s) then
        Run_unregister client
          {| clients := clients s; objs := objs s; next := next s;
             unregistering := remove_first client (unregistering s) |}
      else Done s
  | Broadcast msg => Run_broadcast msg s
  | Drain client => Done (drain client s)
  end.

Fixpoint run (es : list event) (s : State) : outcome State :=
  match es with
  | [] => Done s
  | e :: rest => obind (step e s) (run rest)
  end.

(** A client after a message has been put on its queue. *)
Definition enqueue (msg : message) (c : Client) : Client :=
  {| send := mkChan (buf (send c) ++ [msg]) (cap (send c)) false; id := id c |}.

(** Whether the queue of a client is full. *)
Definition queue_full (s : State) (client : nat) : bool :=
  match objs s !! client with
  | Some c => full (send c)
  | None => false
  end.

(** The invariant of the hub: client objects lie below the allocation
    pointer; the channel of a client in the set is open; the channel of a
    client that left the set is closed. *)
Definition hub_inv (s : State) : Prop :=
  (forall c cl, objs s !! c = Some cl -> (c < next s)%nat) /\
  (forall c, is_Some (clients s !! c) ->
     exists cl, objs s !! c = Some cl /\ closed (send cl) = false) /\
  (forall c cl, objs s !! c = Some cl -> clients s !! c = None ->
     closed (send cl) = true).

(** *** The pumps of a connection *)

Inductive frame : Type :=
| TextMessage (data : string)
| PingMessage
| CloseMessage.

(** The connection of the websocket library: its limits and deadlines
    (instants; [0] when never set), whether it was closed, and the frames
    written to it. *)
Record Conn : Type := {
  readLimit : Z;
  readDeadline : Z;
  writeDeadline : Z;
  conn_closed : bool;
  written : list frame
}.

Definition SetReadLimit (n : Z) (c : Conn) : Conn :=
  {| readLimit := n; readDeadline := readDeadline c;
     writeDeadline := writeDeadline c; conn_closed := conn_closed c;
     written := written c |}.

Definition SetReadDeadline (t : Z) (c : Conn) : Conn :=
  {| readLimit := readLimit c; readDeadline := t;
     writeDeadline := writeDeadline c; conn_closed := conn_closed c;
     written := written c |}.

Definition SetWriteDeadline (t : Z) (c : Conn) : Conn :=
  {| readLimit := readLimit c; readDeadline := readDeadline c;
     writeDeadline := t; conn_closed := conn_closed c;
     written := written c |}.

Definition conn_Close (c : Conn) : Conn :=
  {| readLimit := readLimit c; readDeadline := readDeadline c;
     writeDeadline := writeDeadline c; conn_closed := true;
     written := written c |}.

Definition conn_Write (f : frame) (c : Conn) : Conn :=
  {| readLimit := readLimit c; readDeadline := readDeadline c;
     writeDeadline := writeDeadline c; conn_closed := conn_closed c;
     written := written c ++ [f] |}.

(** The pong handler installed by [readPump]. *)
Definition pongHandler (now : Z) (c : Conn) : Conn :=
  SetReadDeadline (now + 60 * Second) c.

(** What [ReadMessage] meets on the socket, with the time at which it
    happens: a pong frame, a data message, or a failure of the connection
    (close frame, reset). *)
Inductive arrival : Type :=
| Pong (now : Z)
| Data (now : Z) (msg : string)
| Failure (now : Z) (e : error).

Definition arrival_time (a : arrival) : Z :=
  match a with Pong t => t | Data t _ => t | Failure t _ => t end.

(** The state of a read pump: still inside its loop, or returned, the
    deferred function having sent the client to [h.unregister] and closed
    the connection. *)
Inductive pump : Type :=
| Reading (c : Conn)
| Returned (c : Conn) (unregister_sent : bool).

(** The lines of [readPump] before its loop. *)
Definition readPump_init (now : Z) (c : Conn) : Conn :=
  let c := SetReadLimit (512 * 1024) c in
  let c := SetReadDeadline (now + 60 * Second) c in
  c.

(** The deferred function of [readPump]. *)
Definition readPump_deferred (c : Conn) : pump :=
  Returned (conn_Close c) true.

(** One arrival met by the loop of [readPump].  A read that is not
    completed by the read deadline fails with a timeout, as the library
    documents; a pong runs the pong handler inside [ReadMessage], which
    keeps reading; a data message is returned to the loop, which logs it
    and calls [ReadMessage] again; an error breaks the loop. *)
Definition readPump_step (a : arrival) (p : pump) : pump :=
  match p with
  | Returned _ _ => p
  | Reading c =>
      if readDeadline c <? arrival_time a then readPump_deferred c
      else
        match a with
        | Pong now => Reading (pongHandler now c)
        | Data _ _ => Reading c
        | Failure _ _ => readPump_deferred c
        end
  end.

Definition readPump (start : Z) (arrivals : list arrival) (c : Conn) : pump :=
  foldl (fun p a => readPump_step a p) (Reading (readPump_init start c)) arrivals.

(** The period of the ticker of [writePump]. *)
Definition pingPeriod : Z := 30 * Second.

(** The instants at which the ticker created at [start] fires. *)
Definition ticker (start : Z) (k : nat) : Z := start + Z.of_nat (S k) * pingPeriod.

(** What [writePump] selects: a receive from [c.send] ([None] when the
    channel was closed) together with the messages queued behind it, or a
    tick.  [err] is the error that ends the write on the socket, if any
    (of [NextWriter] or of the writer's [Close] for a message, of
    [WriteMessage] for a ping). *)
Inductive selected : Type :=
| FromSend (now : Z) (msg : option message) (queued : list message) (err : option error)
| Tick (now : Z) (err : option error).

Inductive wpump : Type :=
| Writing (c : Conn)
| WReturned (c : Conn).

Definition writePump_step (e : selected) (p : wpump) : wpump :=
  match p with
  | WReturned _ => p
  | Writing c =>
      match e with
      | FromSend now None _ _ =>
          let c := SetWriteDeadline (now + 10 * Second) c in
          WReturned (conn_Close (conn_Write CloseMessage c))
      | FromSend now (Some msg) queued err =>
          let c := SetWriteDeadline (now + 10 * Second) c in
          match err with
          | Some _ => WReturned (conn_Close c)
          | None =>
              Writing (conn_Write
                         (TextMessage
                            (foldl (fun w m => w +:+ String (ascii_of_nat 10) "" +:+ m)
                                   msg queued)) c)
          end
      | Tick now err =>
          let c := SetWriteDeadline (now + 10 * Second) c in
          match err with
          | Some _ => WReturned (conn_Close c)
          | None => Writing (conn_Write PingMessage c)
          end
      end
  end.

(** [writePump] over what its select meets, in order. *)
Definition writePump (events : list selected) (c : Conn) : wpump :=
  foldl (fun p e => writePump_step e p) (Writing c) events.

(** What the write pump has left on the connection, relative to the
    connection [c] it started with, after [n] selections. *)
Definition wrote (c : Conn) (n : nat) (p : wpump) : Prop :=
  match p with
  | Writing c' =>
      conn_closed c' = conn_closed c /\
      exists fs, written c' = written c ++ fs /\ length fs = n /\
                 CloseMessage ∉ fs
  | WReturned c' =>
      conn_closed c' = true /\
      exists fs, written c' = written c ++ fs /\ (length fs <= n)%nat /\
                 (CloseMessage ∈ fs -> last fs = Some CloseMessage)
  end.

(** The read deadline that a list of arrivals leaves behind when only
    pongs refresh it. *)
Definition refreshed (deadline : Z) (arrivals : list arrival) : Z :=
  foldl (fun d a => match a with Pong now => now + 60 * Second | _ => d end)
        deadline arrivals.

(** [Client.Send].  [flag] is the client's own [closed] field, which only
    [Client.Close] sets. *)
Definition Send (flag : bool) (msg : message) (c : Client) : outcome Client :=
  if flag then Done c
  else
    match try_send msg (send c) with
    | Sent ch => Done {| send := ch; id := id c |}
    | Default => Done c
    | SendPanic => Panic
    end.

(** [ClientCount] *)
Definition ClientCount (s : State) : Z := Z.of_nat (size (clients s)).

(** Whether a read pump that starts with the read deadline [deadline]
    gets through a list of arrivals: none of them is a failure, and each
    comes no later than the deadline in force when it comes, which only
    pongs move. *)
Fixpoint on_time (deadline : Z) (arrivals : list arrival) : bool :=
  match arrivals with
  | [] => true
  | a :: rest =>
      (arrival_time a <=? deadline)
      && match a with
         | Pong now => on_time (now + 60 * Second) rest
         | Data _ _ => on_time deadline rest
         | Failure _ _ => false
         end
  end.

Definition is_pong (a : arrival) : bool :=
  match a with Pong _ => true | _ => false end.

(** Every queue has the capacity that [HandleWebSocket] gives it and
    holds no more than that. *)
Definition bounded (s : State) : Prop :=
  forall c cl, objs s !! c = Some cl ->
    cap (send cl) = 256%nat /\ (length (buf (send cl)) <= 256)%nat.

(** *** The terminal hub *)

(** A [TerminalClient] object: its session, its queue and whether its
    connection was closed. *)
Record TerminalClient : Type := {
  t_sessionID : string;
  t_send : Chan message;
  t_conn_closed : bool
}.

(** The terminal hub: the map [h.clients] from session identifiers to
    clients, and the client objects. *)
Record TerminalHub : Type := {
  tclients : gmap string nat;
  tobjs : gmap nat TerminalClient;
  tnext : nat
}.

Definition NewTerminalHub : TerminalHub :=
  {| tclients := ∅; tobjs := ∅; tnext := O |}.

(** [HandleTerminalWebSocket]; [upgrade] is the result of the upgrade of
    the connection. *)
Definition HandleTerminalWebSocket (upgrade : option error)
    (sessionID : string) (h : TerminalHub) : TerminalHub * result nat :=
  match upgrade with
  | Some e => (h, Err e)
  | None =>
      let client := tnext h in
      ({| tclients := <[sessionID := client]> (tclients h);
          tobjs := <[client := {| t_sessionID := sessionID;
                                  t_send := make_chan 256;
                                  t_conn_closed := false |}]> (tobjs h);
          tnext := S client |}, Ok client)
  end.

(** [RemoveClient] *)
Definition RemoveClient (sessionID : string) (h : TerminalHub)
    : outcome TerminalHub :=
  match tclients h !! sessionID with
  | Some client =>
      match tobjs h !! client with
      | Some c =>
          obind (close (t_send c)) (fun ch =>
            Done {| tclients := delete sessionID (tclients h);
                    tobjs := <[client := {| t_sessionID := t_sessionID c;
                                            t_send := ch;
                                            t_conn_closed := true |}]> (tobjs h);
                    tnext := tnext h |})
      | None => Panic
      end
  | None => Done h
  end.

Inductive tevent : Type :=
| THandle (upgrade : option error) (sessionID : string)
| TRemove (sessionID : string).

Definition tstep (e : tevent) (h : TerminalHub) : outcome TerminalHub :=
  match e with
  | THandle upgrade sessionID =>
      Done (HandleTerminalWebSocket upgrade sessionID h).1
  | TRemove sessionID => RemoveClient sessionID h
  end.

Fixpoint trun (es : list tevent) (h : TerminalHub) : outcome TerminalHub :=
  match es with
  | [] => Done h
  | e :: rest => obind (tstep e h) (trun rest)
  end.

(** The invariant of the terminal hub: client objects lie below the
    allocation pointer, and a registered client has an open channel. *)
Definition thub_inv (h : TerminalHub) : Prop :=
  (forall p c, tobjs h !! p = Some c -> (p < tnext h)%nat) /\
  (forall sid p, tclients h !! sid = Some p ->
     exists c, tobjs h !! p = Some c /\ closed (t_send c) = false /\
               t_conn_closed c = false) /\
  (forall sid1 sid2 p, tclients h !! sid1 = Some p ->
     tclients h !! sid2 = Some p -> sid1 = sid2).

End Websocket.

(** ** Package api: the terminal endpoint *)

Module Api.

Import Terminal Websocket.

(** What the handler of the terminal endpoint answers. *)
Inductive response : Type :=
| InternalServerError (e : error)
| UpgradeFailed
| Serving (client session : nat).

Record State : Type := {
  manager : Manager;
  world : World;
  terminalHub : TerminalHub
}.

(** [TerminalHandler.HandleWebSocket], up to the start of the two
    pumps: the session is created with a terminal of 80 by 24, then the
    connection is upgraded; a failed upgrade closes the session. *)
Definition HandleWebSocket (os : Platform) (upgrade : option error)
    (sessionID shell : string) (st : State) : State * response :=
  match CreateSession os (manager st) sessionID shell 80 24 (world st) with
  | (m, w, Err e) =>
      ({| manager := m; world := w; terminalHub := terminalHub st |},
       InternalServerError e)
  | (m, w, Ok session) =>
      match HandleTerminalWebSocket upgrade sessionID (terminalHub st) with
      | (h, Err _) =>
          let '(m', w', _) := CloseSession os m sessionID w in
          ({| manager := m'; world := w'; terminalHub := h |}, UpgradeFailed)
      | (h, Ok client) =>
          ({| manager := m; world := w; terminalHub := h |},
           Serving client session)
      end
  end.

(** The deferred function of [handleTerminalInput]: [CloseSession], its
    result dropped, then [RemoveClient]. *)
Definition handleTerminalInput_defer (os : Platform) (sessionID : string)
    (st : State) : outcome State :=
  let '(m, w, _) := CloseSession os (manager st) sessionID (world st) in
  obind (RemoveClient sessionID (terminalHub st)) (fun h =>
    Done {| manager := m; world := w; terminalHub := h |}).

End Api.

(** ** Package process: the search by name *)

Module Process.

(** One byte of [toLower]: an ASCII capital is moved by ['a' - 'A']. *)
Definition lower_byte (c : ascii) : ascii :=
  let n := nat_of_ascii c in
  if (nat_of_ascii "A" <=? n)%nat && (n <=? nat_of_ascii "Z")%nat
  then ascii_of_nat (n + (nat_of_ascii "a" - nat_of_ascii "A"))
  else c.

(** [toLower] *)
Fixpoint toLower (s : string) : string :=
  match s with
  | EmptyString => EmptyString
  | String c rest => String (lower_byte c) (toLower rest)
  end.

(** The loop of [containsIgnoreCase], from index [i] for [n] more
    iterations. *)
Fixpoint containsIgnoreCase_loop (sLower substrLower : string) (i n : nat)
    : bool :=
  match n with
  | O => false
  | S n' =>
      if String.eqb (String.substring i (String.length substrLower) sLower)
                    substrLower
      then true
      else containsIgnoreCase_loop sLower substrLower (S i) n'
  end.

(** [containsIgnoreCase] *)
Definition containsIgnoreCase (s substr : string) : bool :=
  if (String.length substr =? 0)%nat then true
  else if (String.length s <? String.length substr)%nat then false
  else
    let sLower := toLower s in
    let substrLower := toLower substr in
    containsIgnoreCase_loop sLower substrLower 0
      (String.length sLower - String.length substrLower + 1).

End Process.

(** ** Package files: the permission string *)

Module Files.

Local Open Scope Z_scope.

(** The letter that [formatPermissions] writes at index [i] for a set
    bit; a byte of the result that no case assigns keeps the zero of
    [make]. *)
Definition letter (i : nat) : ascii :=
  match (i mod 3)%nat with
  | 0%nat => "r"
  | 1%nat => "w"
  | 2%nat => "x"
  | _ => Ascii.zero
  end.

(** [formatPermissions]; [mode.Perm()] is [mode & 0777]. *)
Definition formatPermissions (mode : Z) : string :=
  let perm := Z.land mode 511 in
  String.string_of_list_ascii
    (map (fun i : nat =>
            if negb (Z.land perm (Z.shiftl 1 (Z.of_nat (8 - i))) =? 0)
            then letter i else "-"%char)
         (seq 0 9)).

End Files.

(** ** Package updater: the comparison of versions *)

Module Updater.

(** [strings.TrimPrefix(s, "v")] *)
Definition TrimPrefix_v (s : string) : string :=
  match s with
  | String c rest => if bool_decide (c = "v"%char) then rest else s
  | EmptyString => s
  end.

(** [strings.Split(s, ".")]: the parts between the dots, one more than
    there are dots. *)
Fixpoint Split_dot (s : string) : list string :=
  match s with
  | EmptyString => [EmptyString]
  | String c rest =>
      if bool_decide (c = "."%char) then EmptyString :: Split_dot rest
      else
        match Split_dot rest with
        | part :: parts => String c part :: parts
        | [] => [String c EmptyString]
        end
  end.

(** The loop of [isNewerVersion] over the common indices of the two
    lists of parts: the value it returns, or [None] when it runs to its
    end.  Strings are compared byte by byte. *)
Fixpoint isNewerVersion_loop (newParts currentParts : list string)
    : option bool :=
  match newParts, currentParts with
  | n :: newRest, c :: currentRest =>
      if String.ltb c n then Some true
      else if String.ltb n c then Some false
      else isNewerVersion_loop newRest currentRest
  | _, _ => None
  end.

(** [isNewerVersion] *)
Definition isNewerVersion (new current : string) : bool :=
  let new := TrimPrefix_v new in
  let current := TrimPrefix_v current in
  if bool_decide (current = "dev") || bool_decide (current = "") then true
  else
    let newParts := Split_dot new in
    let currentParts := Split_dot current in
    match isNewerVersion_loop newParts currentParts with
    | Some b => b
    | None => (length currentParts <? length newParts)%nat
    end.

(** A version that [isNewerVersion] compares: after the prefix is
    trimmed it is neither the development version nor empty. *)
Definition released (v : string) : Prop :=
  TrimPrefix_v v <> "dev" /\ TrimPrefix_v v <> "".

End Updater.

(** ** Concrete scenarios

    Small concrete environments and states on which the definitions above
    are run. *)

Module Scenarios.

Local Open Scope Z_scope.

(** A host on which every sub-collection succeeds at time [now]. *)
Definition healthy_host (now : Z) : Metrics.Host :=
  {| Metrics.time_Now := now;
     Metrics.runtime_NumCPU := 4;
     Metrics.host_Info :=
       Ok {| Metrics.h_Hostname := "nebula"; Metrics.h_OS := "linux";
             Metrics.h_Platform := "debian"; Metrics.h_PlatformVersion := "12";
             Metrics.h_KernelVersion := "6.1"; Metrics.h_KernelArch := "x86_64";
             Metrics.h_Uptime := 100; Metrics.h_BootTime := 5 |};
     Metrics.cpu_Info :=
       Ok [{| Metrics.c_Cores := 4; Metrics.c_ModelName := "cpu";
              Metrics.c_Mhz := 2400 |}];
     Metrics.cpu_Percent_percpu := Ok [10; 20; 30; 40];
     Metrics.cpu_Percent_total := Ok [25];
     Metrics.mem_VirtualMemory :=
       Ok {| Metrics.v_Total := 8; Metrics.v_Used := 3; Metrics.v_Free := 5;
             Metrics.v_Available := 5; Metrics.v_UsedPercent := 37 |};
     Metrics.mem_SwapMemory :=
       Ok {| Metrics.s_Total := 2; Metrics.s_Used := 0; Metrics.s_Free := 2 |};
     Metrics.disk_Partitions :=
       Ok [{| Metrics.p_Device := "/dev/sda1"; Metrics.p_Mountpoint := "/";
              Metrics.p_Fstype := "ext4" |}];
     Metrics.disk_Usage := fun _ =>
       Ok {| Metrics.u_Total := 100; Metrics.u_Used := 40; Metrics.u_Free := 60;
             Metrics.u_UsedPercent := 40 |};
     Metrics.net_IOCounters :=
       Ok [{| Metrics.Name := "eth0"; Metrics.BytesSent := 1;
              Metrics.BytesRecv := 2; Metrics.PacketsSent := 3;
              Metrics.PacketsRecv := 4; Metrics.Errin := 0;
              Metrics.Errout := 0 |}];
     Metrics.db_Update := None |}.

(** A host on which every call of the collector fails at time [now],
    except the write to the store. *)
Definition failing_host (now : Z) : Metrics.Host :=
  {| Metrics.time_Now := now;
     Metrics.runtime_NumCPU := 4;
     Metrics.host_Info := Err (os_error "host");
     Metrics.cpu_Info := Err (os_error "cpu");
     Metrics.cpu_Percent_percpu := Err (os_error "cpu");
     Metrics.cpu_Percent_total := Err (os_error "cpu");
     Metrics.mem_VirtualMemory := Err (os_error "mem");
     Metrics.mem_SwapMemory := Err (os_error "swap");
     Metrics.disk_Partitions := Err (os_error "disk");
     Metrics.disk_Usage := fun _ => Err (os_error "disk");
     Metrics.net_IOCounters := Err (os_error "net");
     Metrics.db_Update := None |}.

(** A collector with a store, a history of size 3 holding one snapshot,
    one subscriber with room and one whose queue of one is full. *)
Definition busy_collector : Metrics.Collector :=
  {| Metrics.storage := Some {| Storage.metrics_history := ∅ |};
     Metrics.interval := Second;
     Metrics.history := [Metrics.gather (healthy_host 1)];
     Metrics.histSize := 3;
     Metrics.subscribers :=
       [make_chan 10; mkChan [Metrics.gather (healthy_host 1)] 1 false] |}.

(** A collector on which no tick has completed. *)
Definition idle_collector : Metrics.Collector :=
  {| Metrics.storage := None; Metrics.interval := Second;
     Metrics.history := []; Metrics.histSize := 60;
     Metrics.subscribers := [] |}.

(** A Unix host with [bash], [sh] and [zsh] on the PATH, on which every
    shell starts, and whose pseudo-terminals report end-of-stream. *)
Definition unix_os : Terminal.Platform :=
  {| Terminal.GOOS := "linux";
     Terminal.LookPath := fun name =>
       if bool_decide (name = "bash") then Ok "/bin/bash"
       else if bool_decide (name = "sh") then Ok "/bin/sh"
       else if bool_decide (name = "zsh") then Ok "/usr/bin/zsh"
       else Err (os_error "executable file not found in $PATH");
     Terminal.spawn := fun _ _ _ => None;
     Terminal.Pty_Read := fun _ _ => ("", Some io_EOF);
     Terminal.Pty_Write := fun _ data => (Z.of_nat (String.length data), None);
     Terminal.Pty_Close := fun _ => None |}.

Definition empty_world : Terminal.World :=
  {| Terminal.objs := ∅; Terminal.next := O; Terminal.trace := [] |}.

(** A manager for at most one session, allowing [bash] only, and the
    state reached by creating the session [s1] in it. *)
Definition single_manager : Terminal.Manager :=
  Terminal.NewManager 1 ["bash"] "".

Definition after_s1 : Terminal.Manager * Terminal.World :=
  (Terminal.CreateSession unix_os single_manager "s1" "bash" 80 24
     empty_world).1.

(** A manager allowing [zsh] only, with no configured default shell. *)
Definition zsh_manager : Terminal.Manager :=
  Terminal.NewManager 10 ["zsh"] "".

(** Two clients connect, 256 messages are broadcast while no pump
    drains, and then the pump of the second client takes one message: the
    queue of client 0 is full, that of client 1 has room for one. *)
Definition hub_events : list Websocket.event :=
  [Websocket.Connect "a"; Websocket.Connect "b"]
  ++ replicate 256 (Websocket.Broadcast "m")
  ++ [Websocket.Drain 1].

Definition loaded_hub : Websocket.State :=
  match Websocket.run hub_events Websocket.NewHub with
  | Done s => s
  | Panic => Websocket.NewHub
  end.

(** A connection just upgraded. *)
Definition fresh_conn : Websocket.Conn :=
  {| Websocket.readLimit := 0; Websocket.readDeadline := 0;
     Websocket.writeDeadline := 0; Websocket.conn_closed := false;
     Websocket.written := [] |}.


(** A host whose [LookPath] answers with the place of the executable
    file, extension included. *)
Definition windows_os : Terminal.Platform :=
  {| Terminal.GOOS := "windows";
     Terminal.LookPath := fun name =>
       if bool_decide (name = "cmd") then Ok "C:\Windows\system32\cmd.exe"
       else Err (os_error "executable file not found in %PATH%");
     Terminal.spawn := fun _ _ _ => None;
     Terminal.Pty_Read := fun _ _ => ("", Some io_EOF);
     Terminal.Pty_Write := fun _ data => (Z.of_nat (String.length data), None);
     Terminal.Pty_Close := fun _ => None |}.

End Scenarios.

(** * Properties *)

(** ** The collector: history, partial snapshots, latest snapshot *)

Module MetricsFacts.

Import Metrics.

Local Open Scope Z_scope.

(** Keeping the last [n] of a list, then appending, then keeping the last
    [n] again, is keeping the last [n] of the whole. *)
Lemma drop_last_app {A} (n : nat) (l r : list A) :
  drop (length (drop (length l - n) l ++ r) - n) (drop (length l - n) l ++ r)
  = drop (length (l ++ r) - n) (l ++ r).
Proof.
  rewrite !length_app, length_drop.
  destruct (decide (length l <= n)%nat) as [Hle|Hgt].
  - replace (length l - n)%nat with O by lia. by rewrite Nat.sub_0_r.
  - replace (length l - (length l - n) + length r - n)%nat with (length r) by lia.
    replace (length l + length r - n)%nat
      with ((length l - n) + length r)%nat by lia.
    rewrite <- (drop_app_le l r (length l - n)) by lia.
    rewrite drop_drop. f_equal; lia.
Qed.

Lemma store_in_history_last (H : Z) (hist : list AllMetrics) (m : AllMetrics) :
  0 <= H -> Z.of_nat (length hist) <= H ->
  store_in_history H hist m
  = drop (length (hist ++ [m]) - Z.to_nat H) (hist ++ [m]).
Proof.
  intros H0 Hlen. unfold store_in_history.
  rewrite length_app. simpl length.
  destruct (Z.ltb_spec H (Z.of_nat (length hist + 1))) as [Hlt|Hge].
  - replace (length hist + 1 - Z.to_nat H)%nat with 1%nat by lia. done.
  - replace (length hist + 1 - Z.to_nat H)%nat with 0%nat by lia. done.
Qed.

Lemma store_in_history_length (H : Z) (hist : list AllMetrics) (m : AllMetrics) :
  0 <= H -> Z.of_nat (length hist) <= H ->
  Z.of_nat (length (store_in_history H hist m)) <= H.
Proof.
  intros H0 Hlen. unfold store_in_history.
  destruct (Z.ltb_spec H (Z.of_nat (length (hist ++ [m])))) as [Hlt|Hge].
  - rewrite length_drop, length_app. simpl length. lia.
  - done.
Qed.

(** What a subscriber's channel becomes when a snapshot is offered to it. *)
Lemma notifySubscribers_open (m : AllMetrics) (subs : list (Chan AllMetrics)) :
  Forall is_open subs ->
  exists subs',
    notifySubscribers m subs = Done subs' /\
    Forall is_open subs' /\
    Forall2 (fun ch ch' =>
               if full ch then ch' = ch
               else ch' = mkChan (buf ch ++ [m]) (cap ch) false) subs subs'.
Proof.
  induction 1 as [|ch rest Hch Hrest IH]; simpl.
  - exists []. by repeat split.
  - destruct IH as (r & -> & Hopen & Hrel).
    unfold try_send. rewrite Hch. destruct (full ch) eqn:Hfull; simpl.
    + exists (ch :: r). repeat split; [by constructor|].
      constructor; [by rewrite Hfull|done].
    + eexists. repeat split; [by constructor|].
      constructor; [by rewrite Hfull|done].
Qed.

(** One tick on a collector whose subscriber channels are open. *)
Lemma collect_done (h : Host) (c : Collector) :
  Forall is_open (subscribers c) ->
  exists c',
    collect h c = Done c' /\
    history c' = store_in_history (histSize c) (history c) (gather h) /\
    histSize c' = histSize c /\
    Forall is_open (subscribers c').
Proof.
  intros Hopen. unfold collect.
  destruct (notifySubscribers_open (gather h) _ Hopen) as (subs & -> & Hs & _).
  simpl. eexists. by repeat split.
Qed.

Lemma Start_history (ticks : list Host) (c : Collector) :
  0 <= histSize c -> Z.of_nat (length (history c)) <= histSize c ->
  Forall is_open (subscribers c) ->
  exists c',
    Start ticks c = Done c' /\
    histSize c' = histSize c /\
    Z.of_nat (length (history c')) <= histSize c /\
    history c'
    = drop (length (history c ++ map gather ticks) - Z.to_nat (histSize c))
           (history c ++ map gather ticks).
Proof.
  revert c. induction ticks as [|h rest IH]; intros c H0 Hlen Hopen.
  - exists c. simpl. rewrite app_nil_r.
    replace (length (history c) - Z.to_nat (histSize c))%nat with O by lia.
    by repeat split.
  - destruct (collect_done h c Hopen) as (c1 & Hc1 & Hh1 & Hs1 & Ho1).
    simpl. rewrite Hc1. simpl.
    destruct (IH c1) as (c' & Hrun & Hs & Hl & Hh).
    + by rewrite Hs1.
    + rewrite Hs1, Hh1. by apply store_in_history_length.
    + done.
    + exists c'. rewrite Hs1 in *. repeat split; [done..|].
      rewrite Hh, Hh1, store_in_history_last by done.
      rewrite drop_last_app. by rewrite <- app_assoc.
Qed.

(** C1.  For every history size [H >= 0] and every sequence of collection
    ticks run by [Start] on a new collector: the run completes; after
    every prefix of the sequence the history holds at most [H] entries;
    and at the end [GetHistory] returns the last [H] collected snapshots
    in the order of collection (all of them while fewer than [H] were
    collected), the oldest ones having been dropped.  The same holds from
    any collector that holds at most [H] entries and whose subscribers
    have open channels: the bound is kept and the history is the last
    [H] of what it held followed by what was collected. *)
Theorem history_keeps_last_H (store : option Storage.Storage) (iv H : Z)
    (ticks : list Host) :
  0 <= H ->
  (exists c0,
     NewCollector store iv H = Done c0 /\
     (forall n, exists cn,
         Start (take n ticks) c0 = Done cn /\
         Z.of_nat (length (GetHistory cn)) <= H) /\
     exists c,
       Start ticks c0 = Done c /\
       GetHistory c
       = drop (length ticks - Z.to_nat H) (map gather ticks)) /\
  (forall c,
     histSize c = H -> Z.of_nat (length (history c)) <= H ->
     Forall is_open (subscribers c) ->
     exists c',
       Start ticks c = Done c' /\
       Z.of_nat (length (GetHistory c')) <= H /\
       GetHistory c'
       = drop (length (history c ++ map gather ticks) - Z.to_nat H)
              (history c ++ map gather ticks)).
Proof.
  intros H0. split.
  - unfold NewCollector.
    destruct (Z.ltb_spec H 0) as [?|_]; [lia|].
    eexists. split; [done|]. split.
    + intros n.
      edestruct (Start_history (take n ticks)) as (cn & Hrun & _ & Hl & _);
        [..|exists cn; split; [exact Hrun|]]; simpl; try done; try lia.
      unfold GetHistory. rewrite firstn_all. exact Hl.
    + edestruct (Start_history ticks) as (c & Hrun & _ & _ & Hh);
        [..|exists c; split; [exact Hrun|]]; simpl; try done; try lia.
      unfold GetHistory. rewrite firstn_all, Hh. simpl.
      by rewrite length_map.
  - intros c <- Hlen Hopen.
    destruct (Start_history ticks c H0 Hlen Hopen) as (c' & Hrun & _ & Hl & Hh).
    exists c'. unfold GetHistory. rewrite firstn_all. by repeat split.
Qed.

Lemma history_keeps_last_H_witness :
  0 <= 2 /\
  exists c0,
    NewCollector None Second 2 = Done c0 /\
    (forall n, exists cn,
        Start (take n (map Scenarios.healthy_host [1; 2; 3; 4])) c0 = Done cn /\
        Z.of_nat (length (GetHistory cn)) <= 2) /\
    exists c,
      Start (map Scenarios.healthy_host [1; 2; 3; 4]) c0 = Done c /\
      GetHistory c
      = drop (length (map Scenarios.healthy_host [1; 2; 3; 4]) - Z.to_nat 2)
             (map gather (map Scenarios.healthy_host [1; 2; 3; 4])).
Proof.
  assert (0 <= 2) as H0 by lia.
  split; [exact H0|].
  exact (proj1 (history_keeps_last_H None Second 2
                  (map Scenarios.healthy_host [1; 2; 3; 4]) H0)).
Defined.

(** The history of size 2 after four ticks holds the snapshots of the
    third and of the fourth tick. *)
Example history_size_2_after_4_ticks :
  obind (NewCollector None Second 2)
        (Start (map Scenarios.healthy_host [1; 2; 3; 4]))
  = Done {| storage := None; interval := Second;
            history := [gather (Scenarios.healthy_host 3);
                        gather (Scenarios.healthy_host 4)];
            histSize := 2; subscribers := [] |}.
Proof. reflexivity. Qed.


(** C10.  On a collector whose history is empty, [GetLatest] returns the
    zero snapshot [AllMetrics{}]: every section at its zero value and the
    zero timestamp. *)
Theorem GetLatest_empty_history (c : Collector) :
  history c = [] ->
  GetLatest c = AllMetrics_zero /\ Timestamp (GetLatest c) = 0.
Proof.
  intros Hempty. unfold GetLatest. rewrite Hempty. simpl. done.
Qed.

Lemma GetLatest_empty_history_witness :
  history Scenarios.idle_collector = [] /\
  GetLatest Scenarios.idle_collector = AllMetrics_zero /\
  Timestamp (GetLatest Scenarios.idle_collector) = 0.
Proof.
  split; [reflexivity|].
  apply (GetLatest_empty_history Scenarios.idle_collector). reflexivity.
Defined.

(** A new collector has an empty history. *)
Lemma NewCollector_history (store : option Storage.Storage) (iv H : Z) (c : Collector) :
  NewCollector store iv H = Done c -> history c = [].
Proof.
  unfold NewCollector. destruct (H <? 0); [discriminate|].
  intros [= <-]. done.
Qed.

(** The fields of the gathered snapshot, one sub-collection each. *)
Lemma gather_fields (h : Host) :
  Timestamp (gather h) = time_Now h /\
  System (gather h)
  = match GetSystemInfo h with (v, None) => v | _ => SystemInfo_zero end /\
  CPU (gather h)
  = match GetCPUInfo h with (v, None) => v | _ => CPUInfo_zero end /\
  Memory (gather h)
  = match GetMemoryInfo h with (v, None) => v | _ => MemoryInfo_zero end /\
  Disks (gather h)
  = match GetDiskInfo h with (v, None) => v | _ => [] end /\
  Network (gather h)
  = match GetNetworkInfo h with (v, None) => v | _ => [] end.
Proof.
  unfold gather.
  destruct (GetSystemInfo h) as [? [?|]], (GetCPUInfo h) as [? [?|]],
    (GetMemoryInfo h) as [? [?|]], (GetDiskInfo h) as [? [?|]],
    (GetNetworkInfo h) as [? [?|]]; repeat split.
Qed.






End MetricsFacts.

(** ** The terminal session manager *)

Module TerminalFacts.

Import Terminal.

Local Open Scope Z_scope.

(** *** Capacity and duplicates *)

Lemma CreateSession_at_capacity os m id shell cols rows w :
  maxSessions m <= Z.of_nat (size (sessions m)) ->
  CreateSession os m id shell cols rows w = (m, w, Err CapacityExceeded).
Proof.
  intros Hfull. unfold CreateSession.
  destruct (Z.leb_spec (maxSessions m) (Z.of_nat (size (sessions m)))); [done|lia].
Qed.

Lemma CreateSession_duplicate os m id shell cols rows w :
  Z.of_nat (size (sessions m)) < maxSessions m ->
  is_Some (sessions m !! id) ->
  CreateSession os m id shell cols rows w = (m, w, Err DuplicateSession).
Proof.
  intros Hroom Hdup. unfold CreateSession.
  destruct (Z.leb_spec (maxSessions m) (Z.of_nat (size (sessions m)))); [lia|].
  by rewrite bool_decide_true.
Qed.

(** A failed [CreateSession] leaves the registry as it was; a successful
    one adds the new session under an identifier that was free. *)
Lemma CreateSession_registry os m id shell cols rows w :
  let '(m', w', r) := CreateSession os m id shell cols rows w in
  match r with
  | Err _ => m' = m
  | Ok p =>
      Z.of_nat (size (sessions m)) < maxSessions m /\
      sessions m !! id = None /\
      sessions m' = <[id := p]> (sessions m) /\
      maxSessions m' = maxSessions m
  end.
Proof.
  unfold CreateSession.
  destruct (Z.leb_spec (maxSessions m) (Z.of_nat (size (sessions m)))); [done|].
  case_bool_decide as Hdup; [done|].
  destruct (negb _); [done|].
  unfold newPlatformSession. destruct (spawn _ _ _ _); [done|].
  simpl. repeat split; [done|].
  by apply eq_None_not_Some.
Qed.

Lemma CreateSession_bounded os m id shell cols rows w :
  Z.of_nat (size (sessions m)) <= maxSessions m ->
  let m' := (CreateSession os m id shell cols rows w).1.1 in
  Z.of_nat (size (sessions m')) <= maxSessions m' /\
  maxSessions m' = maxSessions m.
Proof.
  intros Hinv.
  pose proof (CreateSession_registry os m id shell cols rows w) as Hreg.
  destruct (CreateSession os m id shell cols rows w) as [[m' w'] [p|e]]; simpl.
  - destruct Hreg as (Hroom & Hfree & -> & ->).
    rewrite map_size_insert_None by done. lia.
  - by subst.
Qed.

Lemma CloseSession_bounded os m id w :
  Z.of_nat (size (sessions m)) <= maxSessions m ->
  let m' := (CloseSession os m id w).1.1 in
  Z.of_nat (size (sessions m')) <= maxSessions m' /\
  maxSessions m' = maxSessions m.
Proof.
  intros Hinv. unfold CloseSession.
  destruct (sessions m !! id) as [p|] eqn:Hp; simpl; [|done].
  rewrite map_size_delete, Hp. simpl. lia.
Qed.

(** From a new manager with a non-negative maximum, no sequence of calls
    brings the number of registered sessions above the maximum. *)
Lemma do_calls_bounded (cs : list call) (mw : Manager * World) :
  Z.of_nat (size (sessions mw.1)) <= maxSessions mw.1 ->
  Z.of_nat (size (sessions (do_calls cs mw).1)) <= maxSessions mw.1 /\
  maxSessions (do_calls cs mw).1 = maxSessions mw.1.
Proof.
  revert mw. induction cs as [|c cs IH]; intros [m w] Hinv; [done|].
  unfold do_calls in *. simpl foldl.
  assert (Z.of_nat (size (sessions (do_call c (m, w)).1))
          <= maxSessions (do_call c (m, w)).1 /\
          maxSessions (do_call c (m, w)).1 = maxSessions m) as [H1 H2].
  { destruct c as [os id shell cols rows|os id|os]; simpl in *.
    - by apply CreateSession_bounded.
    - unfold handleTerminalInput_deferred.
      pose proof (CloseSession_bounded os m id w Hinv) as Hc.
      by destruct (CloseSession os m id w) as [[m' w'] e].
    - rewrite map_size_empty. lia. }
  destruct (IH _ H1) as [H3 H4]. simpl in *. rewrite H4, <- H2. split; [|done].
  by rewrite H2 in H3 |- *.
Qed.

Lemma CreateSession_after_close os os0 m id id0 shell cols rows w :
  Z.of_nat (size (sessions m)) = maxSessions m ->
  is_Some (sessions m !! id0) ->
  let '(m1, w1, e1) := CloseSession os0 m id0 w in
  e1 = None /\
  Z.of_nat (size (sessions m1)) = maxSessions m - 1 /\
  let shell' := if bool_decide (shell = "") then GetDefaultShell os m else shell in
  (sessions m1 !! id = None -> IsShellAllowed m shell' = true ->
   spawn os shell' cols rows = None ->
   exists m2 w2 p,
     CreateSession os m1 id shell cols rows w1 = (m2, w2, Ok p) /\
     sessions m2 !! id = Some p /\
     Z.of_nat (size (sessions m2)) = maxSessions m).
Proof.
  intros Hfull [p0 Hp0]. unfold CloseSession. rewrite Hp0.
  assert (size (sessions m) <> O) as Hne.
  { intros Hz. apply map_size_empty_inv in Hz. rewrite Hz in Hp0.
    by rewrite lookup_empty in Hp0. }
  split; [done|]. simpl. rewrite map_size_delete, Hp0. simpl.
  split; [lia|].
  intros Hfree Hallowed Hspawn. unfold CreateSession. simpl.
  rewrite map_size_delete, Hp0. simpl.
  destruct (Z.leb_spec (maxSessions m) (Z.of_nat (Nat.pred (size (sessions m)))));
    [lia|].
  rewrite bool_decide_false by (rewrite Hfree; by intros [? ?]).
  unfold GetDefaultShell in *. simpl. unfold IsShellAllowed in *. simpl.
  rewrite Hallowed. simpl. unfold newPlatformSession. rewrite Hspawn.
  do 3 eexists. split; [reflexivity|]. simpl.
  rewrite lookup_insert_eq. split; [done|].
  rewrite map_size_insert_None by done.
  rewrite map_size_delete, Hp0. simpl. lia.
Qed.

(** C3, as the code has it.  In every state of the manager whose number
    of registered sessions does not exceed the maximum:
    [CreateSession] fails with [CapacityExceeded] when that number has
    reached the maximum, whether or not the identifier is registered;
    below the maximum it fails with [DuplicateSession] when the
    identifier is registered; both failures leave the manager and the
    world as they were; the number of sessions after the call is again at
    most the maximum; and when the manager is full, closing one
    registered session makes room for a creation, which succeeds if its
    identifier is free, its shell is allowed and the shell starts.  From
    a new manager with a non-negative maximum no sequence of calls brings
    the number of sessions above the maximum. *)
Theorem CreateSession_capacity_before_duplicate os m id shell cols rows w :
  Z.of_nat (size (sessions m)) <= maxSessions m ->
  (maxSessions m <= Z.of_nat (size (sessions m)) ->
   CreateSession os m id shell cols rows w = (m, w, Err CapacityExceeded)) /\
  (Z.of_nat (size (sessions m)) < maxSessions m ->
   is_Some (sessions m !! id) ->
   CreateSession os m id shell cols rows w = (m, w, Err DuplicateSession)) /\
  Z.of_nat (size (sessions (CreateSession os m id shell cols rows w).1.1))
  <= maxSessions m /\
  (forall os0 id0,
     Z.of_nat (size (sessions m)) = maxSessions m ->
     is_Some (sessions m !! id0) ->
     let '(m1, w1, e1) := CloseSession os0 m id0 w in
     e1 = None /\
     Z.of_nat (size (sessions m1)) = maxSessions m - 1 /\
     let shell' :=
       if bool_decide (shell = "") then GetDefaultShell os m else shell in
     (sessions m1 !! id = None -> IsShellAllowed m shell' = true ->
      spawn os shell' cols rows = None ->
      exists m2 w2 p,
        CreateSession os m1 id shell cols rows w1 = (m2, w2, Ok p) /\
        sessions m2 !! id = Some p /\
        Z.of_nat (size (sessions m2)) = maxSessions m)) /\
  (forall max allowed dflt cs w0,
     0 <= max ->
     Z.of_nat (size (sessions (do_calls cs (NewManager max allowed dflt, w0)).1))
     <= max).
Proof.
  intros Hinv. repeat split.
  - apply CreateSession_at_capacity.
  - apply CreateSession_duplicate.
  - destruct (CreateSession_bounded os m id shell cols rows w Hinv) as [H1 H2].
    simpl in *. by rewrite <- H2.
  - intros os0 id0. apply CreateSession_after_close.
  - intros max allowed dflt cs w0 Hmax.
    destruct (do_calls_bounded cs (NewManager max allowed dflt, w0)) as [H1 _];
      [simpl; rewrite map_size_empty; lia|done].
Qed.

Lemma CreateSession_capacity_before_duplicate_witness :
  Z.of_nat (size (sessions Scenarios.after_s1.1))
  <= maxSessions Scenarios.after_s1.1 /\
  CreateSession Scenarios.unix_os Scenarios.after_s1.1 "s2" "bash" 80 24
    Scenarios.after_s1.2
  = (Scenarios.after_s1.1, Scenarios.after_s1.2, Err CapacityExceeded).
Proof.
  split; [vm_compute; discriminate|].
  apply (CreateSession_capacity_before_duplicate Scenarios.unix_os
           Scenarios.after_s1.1 "s2" "bash" 80 24 Scenarios.after_s1.2);
    vm_compute; discriminate.
Defined.

(** C3 as stated fails where both conditions hold: with a maximum of one
    session and [s1] registered, creating [s1] again does not fail with
    [DuplicateSession]; the capacity check comes first. *)
Lemma duplicate_at_capacity_counterexample :
  is_Some (sessions Scenarios.after_s1.1 !! "s1") /\
  (CreateSession Scenarios.unix_os Scenarios.after_s1.1 "s1" "bash" 80 24
     Scenarios.after_s1.2).2 = Err CapacityExceeded /\
  ~ ((CreateSession Scenarios.unix_os Scenarios.after_s1.1 "s1" "bash" 80 24
        Scenarios.after_s1.2).2 = Err DuplicateSession).
Proof.
  split; [by exists 0%nat|]. split; [reflexivity|]. vm_compute. discriminate.
Qed.

(** *** Closing twice *)

(** After [Session.Close] the object is closed. *)
Lemma Session_Close_closed os s tr :
  closed (Session_Close os s tr).1.1 = true.
Proof.
  unfold Session_Close. destruct (closed s) eqn:Hc; [done|].
  by destruct (Pty s).
Qed.

(** On a closed object [Session.Close] does nothing and returns nil. *)
Lemma Session_Close_again os s tr :
  closed s = true -> Session_Close os s tr = (s, tr, None).
Proof. intros Hc. unfold Session_Close. by rewrite Hc. Qed.

(** On an open object it kills the process once and closes the
    pseudo-terminal once. *)
Lemma Session_Close_open os s tr pid fd :
  closed s = false -> Cmd s = Some pid -> Pty s = Some fd ->
  (Session_Close os s tr).1.2 = tr ++ [SysKill pid; SysPtyClose fd] /\
  (Session_Close os s tr).2 = Pty_Close os fd.
Proof.
  intros Hc Hcmd Hpty. unfold Session_Close. rewrite Hc, Hcmd, Hpty. simpl.
  by rewrite <- app_assoc.
Qed.

Lemma Close_again os os' p w :
  Close os' p (Close os p w).1 = ((Close os p w).1, None).
Proof.
  unfold Close at 2 3. destruct (objs w !! p) as [s|] eqn:Hs.
  - pose proof (Session_Close_closed os s (trace w)) as Hcl.
    destruct (Session_Close os s (trace w)) as [[s' tr] e]. simpl in *.
    unfold Close. simpl. rewrite lookup_insert_eq.
    rewrite Session_Close_again by done. by rewrite insert_insert_eq.
  - simpl. unfold Close. by rewrite Hs.
Qed.

(** Through a pointer: the first close of an open session. *)
Lemma Close_open os p w s pid fd :
  objs w !! p = Some s ->
  closed s = false -> Cmd s = Some pid -> Pty s = Some fd ->
  trace (Close os p w).1 = trace w ++ [SysKill pid; SysPtyClose fd] /\
  (closed <$> objs (Close os p w).1 !! p) = Some true.
Proof.
  intros Hs Hc Hcmd Hpty. unfold Close. rewrite Hs.
  destruct (Session_Close_open os s (trace w) pid fd Hc Hcmd Hpty) as [Htr _].
  pose proof (Session_Close_closed os s (trace w)) as Hcl.
  destruct (Session_Close os s (trace w)) as [[s1 tr] e]. simpl in *.
  rewrite lookup_insert_eq. simpl. by rewrite Hcl.
Qed.

(** C4, as the code has it.  For every manager, world and identifier,
    a second [CloseSession] of the same identifier changes nothing: the
    registry, the session objects and the calls made to the operating
    system (no second kill, no second close of the pseudo-terminal) are
    as the first close left them; it returns the error [SessionNotFound],
    which the deferred function of the inbound pump drops; the same holds
    for a [CloseSession] after the manager closed all its sessions.  A
    second [Close] on the session object itself changes nothing and
    returns nil.
    The first close of a registered, open session kills its process once,
    closes its pseudo-terminal once and removes it from the registry. *)
Theorem CloseSession_twice os os' m id w :
  let '(m1, w1, e1) := CloseSession os m id w in
  CloseSession os' m1 id w1 = (m1, w1, Some SessionNotFound) /\
  handleTerminalInput_deferred os' m1 id w1 = (m1, w1) /\
  (forall p, Close os' p (Close os p w).1 = ((Close os p w).1, None)) /\
  CloseSession os' (Manager_Close os m w).1 id (Manager_Close os m w).2
  = ((Manager_Close os m w).1, (Manager_Close os m w).2, Some SessionNotFound) /\
  (forall p s pid fd,
     sessions m !! id = Some p -> objs w !! p = Some s ->
     closed s = false -> Cmd s = Some pid -> Pty s = Some fd ->
     e1 = None /\ sessions m1 !! id = None /\
     trace w1 = trace w ++ [SysKill pid; SysPtyClose fd] /\
     (closed <$> objs w1 !! p) = Some true /\
     Close os' p w1 = (w1, None)).
Proof.
  pose proof (fun p => Close_again os os' p w) as Hagain.
  assert (CloseSession os' (Manager_Close os m w).1 id (Manager_Close os m w).2
          = ((Manager_Close os m w).1, (Manager_Close os m w).2,
             Some SessionNotFound)) as Hshut.
  { unfold CloseSession. simpl. by rewrite lookup_empty. }
  unfold CloseSession at 1. destruct (sessions m !! id) as [p|] eqn:Hp.
  - assert (forall m1 w1,
              sessions m1 !! id = None ->
              CloseSession os' m1 id w1 = (m1, w1, Some SessionNotFound) /\
              handleTerminalInput_deferred os' m1 id w1 = (m1, w1)) as Hsecond.
    { intros m1 w1 Hnone. unfold handleTerminalInput_deferred, CloseSession.
      by rewrite Hnone. }
    destruct (Hsecond
                {| sessions := delete id (sessions m);
                   maxSessions := maxSessions m;
                   allowedShells := allowedShells m;
                   defaultShell := defaultShell m |}
                (Close os p w).1) as [H1 H2]; [apply lookup_delete_eq|].
    split; [exact H1|]. split; [exact H2|]. split; [exact Hagain|].
    split; [exact Hshut|].
    intros p' s pid fd [= <-] Hs Hc Hcmd Hpty.
    split; [done|]. split; [apply lookup_delete_eq|].
    destruct (Close_open os p w s pid fd Hs Hc Hcmd Hpty) as [Htr Hcl].
    simpl. by rewrite Htr, Hcl, Hagain.
  - unfold handleTerminalInput_deferred, CloseSession. rewrite Hp.
    split; [done|]. split; [done|]. split; [exact Hagain|].
    split; [exact Hshut|].
    intros p s pid fd [=].
Qed.

(** C4 as stated fails on the returned value: the second [CloseSession]
    of [s1] returns an error. *)
Lemma CloseSession_twice_counterexample :
  let '(m1, w1, e1) :=
    CloseSession Scenarios.unix_os Scenarios.after_s1.1 "s1"
      Scenarios.after_s1.2 in
  e1 = None /\
  ~ ((CloseSession Scenarios.unix_os m1 "s1" w1).2 = None).
Proof. vm_compute. split; [reflexivity|discriminate]. Qed.

(** *** Shell resolution *)

Lemma IsShellAllowed_loop_false shell base allowed :
  IsShellAllowed_loop shell base allowed = false <->
  forall a, a ∈ allowed -> shell <> a /\ base <> a.
Proof.
  induction allowed as [|a rest IH]; simpl.
  - split; [|done]. intros _ a Ha. by apply elem_of_nil in Ha.
  - destruct (bool_decide (shell = a) || bool_decide (base = a)) eqn:Hm.
    + split; [done|]. intros Hall.
      destruct (Hall a) as [H1 H2]; [by left|].
      rewrite !bool_decide_false in Hm by done. done.
    + apply orb_false_iff in Hm as [H1 H2].
      apply bool_decide_eq_false in H1, H2.
      rewrite IH. split.
      * intros Hall b Hb. apply elem_of_cons in Hb as [->|Hb]; [done|by apply Hall].
      * intros Hall b Hb. apply Hall. by right.
Qed.

Lemma GetDefaultShell_configured os m path :
  defaultShell m <> "" -> LookPath os (defaultShell m) = Ok path ->
  GetDefaultShell os m = path.
Proof.
  intros Hne Hlook. unfold GetDefaultShell.
  by rewrite bool_decide_true, Hlook.
Qed.

Lemma GetDefaultShell_fallback os m :
  (defaultShell m = "" \/ is_ok (LookPath os (defaultShell m)) = false) ->
  GetDefaultShell os m
  = default "" (head (GetAvailableShells_loop os (fallback_names os) [])).
Proof.
  intros Hno. unfold GetDefaultShell, fallback_names.
  assert ((if bool_decide (defaultShell m <> "")
           then match LookPath os (defaultShell m) with
                | Ok path => Some path
                | Err _ => None
                end
           else None) = None) as ->.
  { case_bool_decide as Hd; [|done].
    destruct Hno as [?|Hfail]; [done|].
    by destruct (LookPath os (defaultShell m)). }
  case_bool_decide; simpl.
  - destruct (LookPath os "powershell"); simpl.
    + by destruct (LookPath os "cmd").
    + by destruct (LookPath os "cmd").
  - destruct (LookPath os "bash"); simpl.
    + by destruct (LookPath os "sh").
    + by destruct (LookPath os "sh").
Qed.

(** C5, as the code has it.  A call with the empty shell behaves as the
    same call with the shell [GetDefaultShell()]: the place on the PATH of
    the configured default when there is one and it is found, otherwise
    of the first found of the fallback names of the operating system
    (taken without looking at the allow-list), otherwise the empty
    string.  A call whose resolved shell equals no allow-list entry,
    neither as a whole nor by its base name, fails and leaves the manager
    and the world as they were (no session is created); the failure is
    [ShellNotAllowed] whenever the manager is below its maximum and the
    identifier is free. *)
Theorem CreateSession_shell_resolution os m id shell cols rows w :
  CreateSession os m id "" cols rows w
  = CreateSession os m id (GetDefaultShell os m) cols rows w /\
  (forall path,
     defaultShell m <> "" -> LookPath os (defaultShell m) = Ok path ->
     GetDefaultShell os m = path) /\
  ((defaultShell m = "" \/ is_ok (LookPath os (defaultShell m)) = false) ->
   GetDefaultShell os m
   = default "" (head (GetAvailableShells_loop os (fallback_names os) []))) /\
  let resolved :=
    if bool_decide (shell = "") then GetDefaultShell os m else shell in
  ((forall a, a ∈ allowedShells m -> resolved <> a /\ baseName resolved <> a) ->
   exists e,
     CreateSession os m id shell cols rows w = (m, w, Err e) /\
     (Z.of_nat (size (sessions m)) < maxSessions m ->
      sessions m !! id = None ->
      e = ShellNotAllowed resolved)).
Proof.
  split; [|split; [|split]].
  - unfold CreateSession. simpl.
    destruct (bool_decide (GetDefaultShell os m = "")) eqn:Hd; [|done].
    apply bool_decide_eq_true in Hd. by rewrite Hd.
  - intros path. apply GetDefaultShell_configured.
  - apply GetDefaultShell_fallback.
  - intros resolved Hnone.
    apply IsShellAllowed_loop_false in Hnone. fold (IsShellAllowed m resolved) in Hnone.
    unfold CreateSession.
    destruct (Z.leb_spec (maxSessions m) (Z.of_nat (size (sessions m)))).
    { eexists. split; [done|]. lia. }
    case_bool_decide as Hdup.
    { eexists. split; [done|]. intros _ Hfree. rewrite Hfree in Hdup.
      by destruct Hdup. }
    fold resolved. rewrite Hnone. simpl. eexists. by split.
Qed.

(** C5 as stated fails on the default: with [zsh] as the only allowed
    shell and no configured default, on a host with [bash], [sh] and
    [zsh] on the PATH, the first allowed shell found on the PATH is
    [/usr/bin/zsh], yet a call with the empty shell resolves it to
    [/bin/bash] and fails. *)
Lemma default_shell_counterexample :
  head (GetAvailableShells Scenarios.unix_os Scenarios.zsh_manager)
  = Some "/usr/bin/zsh" /\
  IsShellAllowed Scenarios.zsh_manager "/usr/bin/zsh" = true /\
  ~ (GetDefaultShell Scenarios.unix_os Scenarios.zsh_manager = "/usr/bin/zsh") /\
  CreateSession Scenarios.unix_os Scenarios.zsh_manager "a" "" 80 24
    Scenarios.empty_world
  = (Scenarios.zsh_manager, Scenarios.empty_world,
     Err (ShellNotAllowed "/bin/bash")).
Proof.
  split; [reflexivity|]. split; [reflexivity|]. split; [|reflexivity].
  vm_compute. discriminate.
Qed.

(** The base name of some shells, as [IsShellAllowed] extracts it. *)
Example baseName_examples :
  baseName "/bin/bash" = "bash" /\ baseName "bash" = "bash" /\
  baseName "C:\Windows\cmd.exe" = "cmd.exe" /\ baseName "x\bash" = "bash".
Proof. repeat split. Qed.

(** *** Reading and writing *)


End TerminalFacts.

(** ** The hub *)

Module HubFacts.

Import Websocket.

Lemma hub_inv_NewHub : hub_inv NewHub.
Proof.
  unfold hub_inv, NewHub. simpl. repeat split.
  - intros c cl Hc. by rewrite lookup_empty in Hc.
  - intros c [x Hc]. by rewrite lookup_empty in Hc.
  - intros c cl Hc. by rewrite lookup_empty in Hc.
Qed.

Lemma hub_inv_HandleWebSocket clientID s :
  hub_inv s -> hub_inv (HandleWebSocket clientID s).
Proof.
  intros (Hnext & Hopen & Hclosed).
  unfold hub_inv, HandleWebSocket, Run_register. simpl. repeat split.
  - intros c cl Hc. destruct (decide (next s = c)) as [<-|Hne]; [lia|].
    rewrite lookup_insert_ne in Hc by done. apply Hnext in Hc. lia.
  - intros c Hc. destruct (decide (next s = c)) as [<-|Hne].
    + rewrite lookup_insert_eq. by eexists.
    + rewrite lookup_insert_ne in Hc by done.
      rewrite lookup_insert_ne by done. by apply Hopen.
  - intros c cl Hc Hnone. destruct (decide (next s = c)) as [<-|Hne].
    + by rewrite lookup_insert_eq in Hnone.
    + rewrite lookup_insert_ne in Hc by done.
      rewrite lookup_insert_ne in Hnone by done. by eapply Hclosed.
Qed.

(** The list of blocked goroutines plays no part in the invariant. *)
Lemma hub_inv_unregistering s l :
  hub_inv s ->
  hub_inv {| clients := clients s; objs := objs s; next := next s;
             unregistering := l |}.
Proof. done. Qed.

(** Unregistering a client of the set removes it and closes its channel,
    in one step of the loop. *)
Lemma Run_unregister_present client s :
  hub_inv s -> is_Some (clients s !! client) ->
  exists cl,
    objs s !! client = Some cl /\
    Run_unregister client s
    = Done {| clients := delete client (clients s);
              objs := <[client := {| send := mkChan (buf (send cl)) (cap (send cl)) true;
                                     id := id cl |}]> (objs s);
              next := next s; unregistering := unregistering s |}.
Proof.
  intros (_ & Hopen & _) Hin. destruct (Hopen _ Hin) as (cl & Hcl & Hop).
  exists cl. split; [done|]. destruct Hin as [b Hb].
  unfold Run_unregister, close. by rewrite Hb, Hcl, Hop.
Qed.

Lemma Run_unregister_absent client s :
  clients s !! client = None -> Run_unregister client s = Done s.
Proof. intros Hnone. unfold Run_unregister. by rewrite Hnone. Qed.

Lemma hub_inv_Run_unregister client s :
  hub_inv s -> exists s', Run_unregister client s = Done s' /\ hub_inv s'.
Proof.
  intros Hinv. destruct (clients s !! client) as [b|] eqn:Hb.
  - destruct (Run_unregister_present client s Hinv) as (cl & Hcl & ->);
      [by eexists|].
    eexists. split; [done|]. destruct Hinv as (Hnext & Hopen & Hclosed).
    unfold hub_inv. simpl. repeat split.
    + intros c cl' Hc. destruct (decide (client = c)) as [<-|Hne].
      * by eapply Hnext.
      * rewrite lookup_insert_ne in Hc by done. by eapply Hnext.
    + intros c Hc. destruct (decide (client = c)) as [<-|Hne].
      * rewrite lookup_delete_eq in Hc. by destruct Hc.
      * rewrite lookup_delete_ne in Hc by done.
        rewrite lookup_insert_ne by done. by apply Hopen.
    + intros c cl' Hc Hnone. destruct (decide (client = c)) as [<-|Hne].
      * rewrite lookup_insert_eq in Hc. by injection Hc as <-.
      * rewrite lookup_insert_ne in Hc by done.
        rewrite lookup_delete_ne in Hnone by done. by eapply Hclosed.
  - exists s. split; [by apply Run_unregister_absent|done].
Qed.

(** Replacing the queue of a client, its closed flag being kept, keeps
    the invariant. *)
Lemma hub_inv_update client cl cl' l s :
  hub_inv s -> objs s !! client = Some cl ->
  closed (send cl') = closed (send cl) ->
  hub_inv {| clients := clients s; objs := <[client := cl']> (objs s);
             next := next s; unregistering := l |}.
Proof.
  intros (Hnext & Hopen & Hclosed) Hcl Hsame.
  unfold hub_inv. simpl. repeat split.
  - intros c cl0 Hc. destruct (decide (client = c)) as [<-|Hne].
    + by eapply Hnext.
    + rewrite lookup_insert_ne in Hc by done. by eapply Hnext.
  - intros c Hc. destruct (decide (client = c)) as [<-|Hne].
    + rewrite lookup_insert_eq. eexists. split; [done|].
      destruct (Hopen _ Hc) as (cl0 & Hcl0 & Hop). congruence.
    + rewrite lookup_insert_ne by done. by apply Hopen.
  - intros c cl0 Hc Hnone. destruct (decide (client = c)) as [<-|Hne].
    + rewrite lookup_insert_eq in Hc. injection Hc as <-.
      rewrite Hsame. by eapply Hclosed.
    + rewrite lookup_insert_ne in Hc by done. by eapply Hclosed.
Qed.

Lemma hub_inv_drain client s : hub_inv s -> hub_inv (drain client s).
Proof.
  intros Hinv. unfold drain.
  destruct (objs s !! client) as [cl|] eqn:Hcl; [|done].
  unfold recv. destruct (buf (send cl)) as [|v rest] eqn:Hbuf.
  - destruct (closed (send cl)); [|done]. by eapply hub_inv_update.
  - by eapply hub_inv_update.
Qed.

(** The body of the broadcast loop on a client of the set. *)
Lemma broadcast_one_spec msg client s :
  hub_inv s -> is_Some (clients s !! client) ->
  exists cl,
    objs s !! client = Some cl /\
    broadcast_one msg client s
    = Done (if full (send cl)
            then {| clients := clients s; objs := objs s; next := next s;
                    unregistering := unregistering s ++ [client] |}
            else {| clients := clients s;
                    objs := <[client := enqueue msg cl]> (objs s);
                    next := next s; unregistering := unregistering s |}).
Proof.
  intros (_ & Hopen & _) Hin. destruct (Hopen _ Hin) as (cl & Hcl & Hop).
  exists cl. split; [done|].
  unfold broadcast_one, try_send. rewrite Hcl, Hop.
  by destruct (full (send cl)).
Qed.

(** The clients found full in a list depend only on the objects of the
    clients of the list. *)
Lemma filter_queue_full_ext s1 s2 (l : list nat) :
  (forall c, c ∈ l -> objs s1 !! c = objs s2 !! c) ->
  filter (fun c => queue_full s1 c = true) l
  = filter (fun c => queue_full s2 c = true) l.
Proof.
  induction l as [|x l IH]; intros Hsame; [done|].
  assert (queue_full s1 x = queue_full s2 x) as Hx.
  { unfold queue_full. rewrite Hsame; [done|by left]. }
  rewrite !filter_cons, Hx, IH; [done|].
  intros c Hc. apply Hsame. by right.
Qed.

Lemma broadcast_loop_spec msg (order : list nat) s :
  hub_inv s -> NoDup order ->
  (forall c, c ∈ order -> is_Some (clients s !! c)) ->
  exists s',
    broadcast_loop msg order s = Done s' /\
    hub_inv s' /\
    clients s' = clients s /\
    next s' = next s /\
    unregistering s'
    = unregistering s ++ filter (fun c => queue_full s c = true) order /\
    (forall c, c ∉ order -> objs s' !! c = objs s !! c) /\
    (forall c cl, c ∈ order -> objs s !! c = Some cl ->
       objs s' !! c = Some (if full (send cl) then cl else enqueue msg cl)).
Proof.
  revert s. induction order as [|c rest IH]; intros s Hinv Hnd Hreg.
  - exists s. simpl. rewrite app_nil_r.
    do 6 (split; [done|]).
    intros c cl Hc. by apply elem_of_nil in Hc.
  - apply NoDup_cons in Hnd as [Hc Hnd].
    destruct (broadcast_one_spec msg c s Hinv) as (cl & Hcl & Hone);
      [apply Hreg; by left|].
    simpl. rewrite Hone. simpl.
    set (s1 := if full (send cl) then _ else _) in *.
    assert (hub_inv s1) as Hinv1.
    { subst s1. destruct (full (send cl)).
      - by apply hub_inv_unregistering.
      - eapply hub_inv_update; [done..|]. simpl.
        destruct Hinv as (_ & Hopen & _).
        destruct (Hopen c) as (cl0 & Hcl0 & Hop); [apply Hreg; by left|].
        congruence. }
    assert (clients s1 = clients s /\ next s1 = next s) as [Hcl1 Hn1].
    { subst s1. by destruct (full (send cl)). }
    assert (forall c', c' <> c -> objs s1 !! c' = objs s !! c') as Hother.
    { intros c' Hne. subst s1. destruct (full (send cl)); [done|].
      simpl. by rewrite lookup_insert_ne. }
    assert (objs s1 !! c
            = Some (if full (send cl) then cl else enqueue msg cl)) as Hat.
    { subst s1. destruct (full (send cl)); [done|].
      simpl. by rewrite lookup_insert_eq. }
    assert (unregistering s1
            = unregistering s
              ++ (if full (send cl) then [c] else [])) as Hun1.
    { subst s1. destruct (full (send cl)); simpl; [done|by rewrite app_nil_r]. }
    destruct (IH s1 Hinv1 Hnd) as (s' & Hrun & Hinv' & Hcl' & Hn' & Hun' & Hout & Hin).
    { intros c' Hc'. rewrite Hcl1. apply Hreg. by right. }
    exists s'. split; [done|]. split; [done|].
    split; [congruence|]. split; [congruence|]. split; [|split].
    + rewrite Hun', Hun1, <- app_assoc. f_equal.
      rewrite (filter_queue_full_ext s1 s rest).
      2:{ intros c' Hc'. apply Hother. intros ->. done. }
      assert (queue_full s c = full (send cl)) as Hq.
      { unfold queue_full. by rewrite Hcl. }
      rewrite filter_cons. case_decide as Hd; rewrite Hq in Hd;
        destruct (full (send cl)); done.
    + intros c' Hc'. apply not_elem_of_cons in Hc' as [Hne Hc'].
      rewrite Hout by done. by apply Hother.
    + intros c' cl' Hc' Hcl'0. apply elem_of_cons in Hc' as [->|Hc'].
      * assert (cl' = cl) as -> by congruence.
        rewrite Hout by done. exact Hat.
      * apply Hin; [done|]. rewrite Hother; [done|]. intros ->. done.
Qed.

(** The order taken by [Run_broadcast] is one of the orders covered by
    [broadcast_loop_spec]. *)
Lemma Run_broadcast_order s :
  NoDup (map_to_list (clients s)).*1 /\
  (forall c, c ∈ (map_to_list (clients s)).*1 <-> is_Some (clients s !! c)).
Proof.
  split; [apply NoDup_fst_map_to_list|].
  intros c. rewrite list_elem_of_fmap. split.
  - intros ([c' b] & -> & Hin). apply elem_of_map_to_list in Hin. by eexists.
  - intros [b Hb]. exists (c, b). split; [done|]. by apply elem_of_map_to_list.
Qed.

Lemma step_inv e s :
  hub_inv s -> exists s', step e s = Done s' /\ hub_inv s'.
Proof.
  intros Hinv. destruct e as [clientID|client|client|msg|client]; simpl.
  - eexists. split; [done|]. by apply hub_inv_HandleWebSocket.
  - by apply hub_inv_Run_unregister.
  - case_bool_decide.
    + apply hub_inv_Run_unregister. by apply hub_inv_unregistering.
    + by exists s.
  - destruct (Run_broadcast_order s) as [Hnd Hen].
    destruct (broadcast_loop_spec msg _ s Hinv Hnd) as (s' & Hrun & Hinv' & _).
    { intros c. apply Hen. }
    by exists s'.
  - eexists. split; [done|]. by apply hub_inv_drain.
Qed.

Lemma run_inv es s :
  hub_inv s -> exists s', run es s = Done s' /\ hub_inv s'.
Proof.
  revert s. induction es as [|e es IH]; intros s Hinv; simpl.
  - by exists s.
  - destruct (step_inv e s Hinv) as (s1 & -> & Hinv1). simpl. by apply IH.
Qed.

(** C7.  Whatever happens to a new hub (connections, unregistrations
    from read pumps, deliveries of deferred unregistrations, broadcasts,
    pumps draining queues), the loop never panics and in the state
    reached: every client of the set has an open channel; every client
    that is no longer in the set has a closed channel; unregistering a
    client of the set removes it from the set and closes its channel in
    the same step, after which unregistering it again changes nothing;
    and unregistering a client that is not in the set, directly or as a
    deferred unregistration, changes neither the set nor any client. *)
Theorem hub_clients_have_open_channels (es : list event) :
  exists s,
    run es NewHub = Done s /\
    (forall c, is_Some (clients s !! c) ->
       exists cl, objs s !! c = Some cl /\ is_open (send cl)) /\
    (forall c cl, objs s !! c = Some cl -> clients s !! c = None ->
       closed (send cl) = true) /\
    (forall c, is_Some (clients s !! c) ->
       exists cl s',
         objs s !! c = Some cl /\
         Run_unregister c s = Done s' /\
         clients s' = delete c (clients s) /\
         objs s' !! c
         = Some {| send := mkChan (buf (send cl)) (cap (send cl)) true;
                   id := id cl |} /\
         (forall c', c' <> c -> objs s' !! c' = objs s !! c') /\
         Run_unregister c s' = Done s') /\
    (forall c, clients s !! c = None ->
       Run_unregister c s = Done s /\
       exists s',
         step (Shed c) s = Done s' /\
         clients s' = clients s /\ objs s' = objs s).
Proof.
  destruct (run_inv es NewHub hub_inv_NewHub) as (s & Hrun & Hinv).
  exists s. split; [done|].
  pose proof Hinv as (Hnext & Hopen & Hclosed).
  split; [exact Hopen|]. split; [exact Hclosed|]. split.
  - intros c Hin.
    destruct (Run_unregister_present c s Hinv Hin) as (cl & Hcl & Hun).
    exists cl. eexists. split; [done|]. split; [exact Hun|]. simpl.
    split; [done|]. split; [apply lookup_insert_eq|]. split.
    + intros c' Hne. by rewrite lookup_insert_ne.
    + apply Run_unregister_absent. simpl. apply lookup_delete_eq.
  - intros c Hnone. split; [by apply Run_unregister_absent|].
    simpl. case_bool_decide.
    + eexists. split; [by apply Run_unregister_absent|done].
    + by exists s.
Qed.



(** On the loaded hub a broadcast leaves the full queue of client 0 at
    256 messages and schedules its unregistration, and brings the queue
    of client 1 from 255 to 256 messages. *)
Example broadcast_on_loaded_hub :
  match Run_broadcast "x" Scenarios.loaded_hub with
  | Done s' =>
      (length ∘ buf ∘ send <$> objs s' !! 0%nat) = Some 256%nat /\
      (last ∘ buf ∘ send <$> objs s' !! 0%nat) = Some (Some "m") /\
      (last ∘ buf ∘ send <$> objs s' !! 1%nat) = Some (Some "x") /\
      unregistering s' = [0%nat] /\
      clients s' !! 0%nat = Some true /\ clients s' !! 1%nat = Some true
  | Panic => False
  end.
Proof. vm_compute. repeat split; reflexivity. Qed.

(** Two broadcasts on the loaded hub start two goroutines for client 0;
    the first delivery unregisters it, the second finds it gone and does
    nothing. *)
Example deferred_unregistration_twice :
  match run [Broadcast "x"; Broadcast "y"; Shed 0%nat] Scenarios.loaded_hub with
  | Done s1 =>
      clients s1 !! 0%nat = None /\
      (closed ∘ send <$> objs s1 !! 0%nat) = Some true /\
      (0%nat ∈ unregistering s1) /\
      match step (Shed 0%nat) s1 with
      | Done s2 => clients s2 = clients s1 /\ objs s2 = objs s1
      | Panic => False
      end
  | Panic => False
  end.
Proof.
  vm_compute. split; [reflexivity|]. split; [reflexivity|].
  split; [|split; reflexivity].
  apply list_elem_of_In. simpl. tauto.
Qed.

End HubFacts.

(** ** The pumps of a metrics connection *)

Module PumpFacts.

Import Websocket.

Local Open Scope Z_scope.

Lemma readPump_returned_stays (arrivals : list arrival) c b :
  foldl (fun p a => readPump_step a p) (Returned c b) arrivals = Returned c b.
Proof. induction arrivals as [|a rest IH]; [done|]. simpl. exact IH. Qed.

(** While the pump is still reading, its read deadline is the one left by
    the pongs: data messages do not move it. *)
Lemma readPump_deadline (arrivals : list arrival) (c c' : Conn) :
  foldl (fun p a => readPump_step a p) (Reading c) arrivals = Reading c' ->
  readDeadline c' = refreshed (readDeadline c) arrivals.
Proof.
  revert c. induction arrivals as [|a rest IH]; intros c; simpl.
  - by intros [= ->].
  - destruct (readDeadline c <? arrival_time a).
    { unfold readPump_deferred. by rewrite readPump_returned_stays. }
    destruct a as [now|now msg|now e].
    + intros Hrest. apply IH in Hrest. exact Hrest.
    + apply IH.
    + unfold readPump_deferred. by rewrite readPump_returned_stays.
Qed.

(** C8, as the code has it.  The ticker of the write pump has a period
    of 30 seconds and at each of its ticks the pump writes a ping, with a
    write deadline of 10 seconds, or returns and closes the connection
    when the write fails.  The read pump sets the read deadline to 60
    seconds after its start; a pong received before the deadline moves
    the deadline to 60 seconds after the pong; a data message read before
    the deadline leaves the deadline where it was; so the deadline of a
    pump that is still reading is 60 seconds after the last pong, or
    after the start when there was none.  Anything that arrives after the
    deadline, and any failure of the connection, ends the read pump,
    whose deferred function sends the client to the unregister case and
    closes the connection. *)
Theorem heartbeat_and_read_deadline (start : Z) (c : Conn) :
  (pingPeriod = 30 * Second /\
   ticker start 0 = start + 30 * Second /\
   (forall k, ticker start (S k) - ticker start k = 30 * Second) /\
   (forall now c0,
      writePump_step (Tick now None) (Writing c0)
      = Writing (conn_Write PingMessage
                   (SetWriteDeadline (now + 10 * Second) c0))) /\
   (forall now e c0,
      writePump_step (Tick now (Some e)) (Writing c0)
      = WReturned (conn_Close (SetWriteDeadline (now + 10 * Second) c0)))) /\
  readDeadline (readPump_init start c) = start + 60 * Second /\
  (forall now c0,
     now <= readDeadline c0 ->
     exists c1,
       readPump_step (Pong now) (Reading c0) = Reading c1 /\
       readDeadline c1 = now + 60 * Second) /\
  (forall now msg c0,
     now <= readDeadline c0 ->
     readPump_step (Data now msg) (Reading c0) = Reading c0) /\
  (forall arrivals c',
     readPump start arrivals c = Reading c' ->
     readDeadline c' = refreshed (start + 60 * Second) arrivals) /\
  (forall a c0,
     readDeadline c0 < arrival_time a ->
     readPump_step a (Reading c0) = Returned (conn_Close c0) true) /\
  (forall now e c0,
     readPump_step (Failure now e) (Reading c0) = Returned (conn_Close c0) true).
Proof.
  split; [|split; [|split; [|split; [|split; [|split]]]]].
  - split; [done|]. split; [unfold ticker, pingPeriod; lia|].
    split; [intros k; unfold ticker, pingPeriod; lia|]. by split.
  - done.
  - intros now c0 Hle. simpl.
    destruct (Z.ltb_spec (readDeadline c0) now); [lia|]. by eexists.
  - intros now msg c0 Hle. simpl.
    by destruct (Z.ltb_spec (readDeadline c0) now); [lia|].
  - intros arrivals c' Hread. unfold readPump in Hread.
    by apply readPump_deadline in Hread.
  - intros a c0 Hlate. simpl.
    by destruct (Z.ltb_spec (readDeadline c0) (arrival_time a)); [|lia].
  - intros now e c0. simpl. by destruct (readDeadline c0 <? now).
Qed.

(** C8 as stated fails on the refresh at every successful read: a pump
    started at time 0 that reads a message at 50 seconds still has its
    deadline at 60 seconds, not at 110; the next message, arriving at 70
    seconds, 20 seconds after that successful read, finds the deadline
    passed and the pump returns. *)
Lemma read_deadline_counterexample :
  (exists c',
     readPump 0 [Data (50 * Second) "x"] Scenarios.fresh_conn = Reading c' /\
     readDeadline c' = 60 * Second /\
     ~ (readDeadline c' = 50 * Second + 60 * Second)) /\
  exists c',
    readPump 0 [Data (50 * Second) "x"; Data (70 * Second) "y"]
      Scenarios.fresh_conn
    = Returned c' true /\ conn_closed c' = true.
Proof.
  split.
  - eexists. split; [reflexivity|]. split; [reflexivity|]. discriminate.
  - eexists. split; reflexivity.
Qed.

End PumpFacts.

(** ** The store: sorting and reading back the metrics history *)

Module StorageFacts.

Import Storage.

Local Open Scope Z_scope.

(** Exchanging two elements of a list. *)
Lemma swap_lookup {A} (l : list A) (i j k : nat) (a b : A) :
  i <> j -> l !! i = Some a -> l !! j = Some b ->
  <[i := b]> (<[j := a]> l) !! k
  = if decide (k = i) then Some b else if decide (k = j) then Some a else l !! k.
Proof.
  intros Hij Hi Hj.
  assert (i < length l)%nat by (by eapply lookup_lt_Some).
  assert (j < length l)%nat by (by eapply lookup_lt_Some).
  destruct (decide (k = i)) as [->|Hki].
  - rewrite list_lookup_insert_eq; [done|by rewrite length_insert].
  - rewrite list_lookup_insert_ne by done.
    destruct (decide (k = j)) as [->|Hkj].
    + by rewrite list_lookup_insert_eq.
    + by rewrite list_lookup_insert_ne.
Qed.

Lemma insert_head_Permutation {A} (l : list A) (j : nat) (a b : A) :
  l !! j = Some b -> b :: <[j := a]> l ≡ₚ a :: l.
Proof.
  revert j. induction l as [|y l IH]; intros j Hj; [done|].
  destruct j as [|j]; simpl in *.
  - injection Hj as ->. apply Permutation_swap.
  - etrans; [apply Permutation_swap|].
    etrans; [apply Permutation_skip, (IH j Hj)|]. apply Permutation_swap.
Qed.

Lemma swap_Permutation {A} (l : list A) (i j : nat) (a b : A) :
  i <> j -> l !! i = Some a -> l !! j = Some b ->
  <[i := b]> (<[j := a]> l) ≡ₚ l.
Proof.
  revert i j. induction l as [|x l IH]; intros i j Hij Hi Hj; [done|].
  destruct i as [|i], j as [|j]; simpl in *; try done.
  - injection Hi as ->. by apply insert_head_Permutation.
  - injection Hj as ->. by apply insert_head_Permutation.
  - constructor. apply IH; [congruence|done..].
Qed.

(** A loop over [start], [start+1], ..., [start+n-1] that keeps an
    invariant indexed by the loop variable. *)
Lemma foldl_seq_invariant {A} (f : A -> nat -> A) (P : nat -> A -> Prop)
    (start n : nat) (x : A) :
  P start x ->
  (forall k y, (start <= k < start + n)%nat -> P k y -> P (S k) (f y k)) ->
  P (start + n)%nat (foldl f x (seq start n)).
Proof.
  revert start x. induction n as [|n IH]; intros start x Hx Hstep; simpl.
  - by rewrite Nat.add_0_r.
  - replace (start + S n)%nat with (S start + n)%nat by lia.
    apply IH.
    + apply Hstep; [lia|done].
    + intros k y Hk. apply Hstep. lia.
Qed.

Lemma sort_step_Permutation i entries j :
  i <> j -> sort_step i entries j ≡ₚ entries.
Proof.
  intros Hij. unfold sort_step.
  destruct (entries !! i) as [ei|] eqn:Hi; [|done].
  destruct (entries !! j) as [ej|] eqn:Hj; [|done].
  destruct (Timestamp ei <? Timestamp ej); [|done].
  by apply swap_Permutation.
Qed.

Lemma sort_inner_Permutation entries i : sort_inner entries i ≡ₚ entries.
Proof.
  unfold sort_inner.
  apply (foldl_seq_invariant (sort_step i) (fun _ es => es ≡ₚ entries)); [done|].
  intros k y Hk Hy. rewrite sort_step_Permutation; [done|lia].
Qed.

Lemma sortMetricsByTimestamp_Permutation entries :
  sortMetricsByTimestamp entries ≡ₚ entries.
Proof.
  unfold sortMetricsByTimestamp.
  apply (foldl_seq_invariant sort_inner (fun _ es => es ≡ₚ entries)); [done|].
  intros k y Hk Hy. by rewrite sort_inner_Permutation.
Qed.

(** One comparison of the inner loop: the entries before [i] stay
    settled, and the entry at [i] is at least as recent as those between
    [i] and [j], [j] included. *)
Lemma sort_step_settles i j entries :
  (i < j)%nat ->
  settled i entries ->
  (forall q a b, (i < q < j)%nat -> entries !! i = Some a ->
     entries !! q = Some b -> Timestamp b <= Timestamp a) ->
  settled i (sort_step i entries j) /\
  (forall q a b, (i < q < S j)%nat -> sort_step i entries j !! i = Some a ->
     sort_step i entries j !! q = Some b -> Timestamp b <= Timestamp a).
Proof.
  intros Hij Hset Hrow. unfold sort_step.
  destruct (entries !! i) as [ei|] eqn:Hi.
  2:{ split; [exact Hset|]. intros q a b _ Ha. congruence. }
  destruct (entries !! j) as [ej|] eqn:Hj.
  2:{ split; [done|]. intros q a b Hq Ha Hb. rewrite Hi in Ha. injection Ha as <-.
      destruct (decide (q = j)) as [->|Hne]; [congruence|].
      eapply Hrow; [|done..]. lia. }
  destruct (Z.ltb_spec (Timestamp ei) (Timestamp ej)) as [Hlt|Hge].
  - assert (i <> j) as Hne by lia. split.
    + intros p q a b Hp Hpq. rewrite !(swap_lookup entries i j _ ei ej) by done.
      repeat case_decide; subst; try lia; intros Ha Hb.
      * injection Hb as <-. eapply (Hset p j); [lia..|done|done].
      * injection Hb as <-. eapply (Hset p i); [lia..|done|done].
      * by eapply (Hset p q).
    + intros q a b Hq. rewrite !(swap_lookup entries i j _ ei ej) by done.
      repeat case_decide; subst; try lia; intros Ha Hb.
      * injection Ha as <-. injection Hb as <-. lia.
      * injection Ha as <-.
        assert (Timestamp b <= Timestamp ei); [|lia].
        eapply (Hrow q); [lia|done..].
  - split; [done|]. intros q a b Hq Ha Hb. rewrite Hi in Ha. injection Ha as <-.
    destruct (decide (q = j)) as [->|Hne].
    + rewrite Hj in Hb. injection Hb as <-. lia.
    + eapply Hrow; [|done..]. lia.
Qed.

Lemma sort_step_length i entries j :
  length (sort_step i entries j) = length entries.
Proof.
  unfold sort_step. destruct (entries !! i); [|done].
  destruct (entries !! j); [|done].
  destruct (_ <? _); [|done]. by rewrite !length_insert.
Qed.

(** One pass of the inner loop settles one more entry. *)
Lemma sort_inner_settles i entries :
  settled i entries ->
  settled (S i) (sort_inner entries i) /\
  length (sort_inner entries i) = length entries.
Proof.
  intros Hset. unfold sort_inner.
  pose proof (foldl_seq_invariant (sort_step i)
    (fun j es =>
       length es = length entries /\ settled i es /\
       forall q a b, (i < q < j)%nat -> es !! i = Some a ->
         es !! q = Some b -> Timestamp b <= Timestamp a)
    (S i) (length entries - S i) entries) as Hloop.
  destruct Hloop as (Hlen & Hs & Hrow).
  - split; [done|]. split; [done|]. intros q a b Hq. lia.
  - intros k y Hk (Hl & Hs & Hrow).
    split; [by rewrite sort_step_length|]. apply sort_step_settles; [lia|done..].
  - split; [|done]. intros p q a b Hp Hpq Ha Hb.
    destruct (decide (p = i)) as [->|Hne].
    + pose proof (lookup_lt_Some _ _ _ Hb) as Hq. rewrite Hlen in Hq.
      eapply (Hrow q); [lia|done..].
    + eapply (Hs p q); [lia|done..].
Qed.

Lemma sortMetricsByTimestamp_newest_first entries :
  newest_first (sortMetricsByTimestamp entries) /\
  length (sortMetricsByTimestamp entries) = length entries.
Proof.
  unfold sortMetricsByTimestamp.
  pose proof (foldl_seq_invariant sort_inner
    (fun i es => length es = length entries /\ settled i es)
    0 (length entries - 1) entries) as Hloop.
  destruct Hloop as (Hlen & Hs).
  - split; [done|]. intros p q a b Hp. lia.
  - intros k y Hk (Hl & Hs).
    destruct (sort_inner_settles k y Hs) as [H1 H2]. split; [congruence|done].
  - split; [|done]. unfold newest_first. rewrite Hlen.
    intros p q a b Hp Hpq Ha Hb.
    pose proof (lookup_lt_Some _ _ _ Hb) as Hq. rewrite Hlen in Hq.
    eapply (Hs p q); [simpl; lia|done..].
Qed.

(** X1.  [sortMetricsByTimestamp] rearranges the entries, losing and
    adding none, so that they are newest first: whenever one entry stands
    before another in the result, its timestamp is not the older one. *)
Theorem sortMetricsByTimestamp_sorts (entries : list MetricsEntry) :
  sortMetricsByTimestamp entries ≡ₚ entries /\
  length (sortMetricsByTimestamp entries) = length entries /\
  forall p q a b,
    (p < q)%nat ->
    sortMetricsByTimestamp entries !! p = Some a ->
    sortMetricsByTimestamp entries !! q = Some b ->
    Timestamp b <= Timestamp a.
Proof.
  destruct (sortMetricsByTimestamp_newest_first entries) as [Hnf Hlen].
  split; [apply sortMetricsByTimestamp_Permutation|]. split; [done|].
  intros p q a b Hpq Ha Hb. eapply (Hnf p q); [|done..].
  apply lookup_lt_Some in Hb. lia.
Qed.

Lemma newest_first_take n entries :
  newest_first entries -> newest_first (take n entries).
Proof.
  intros Hnf p q a b Hp Hpq Ha Hb.
  apply lookup_take_Some in Ha as [Ha _]. apply lookup_take_Some in Hb as [Hb _].
  eapply (Hnf p q); [|done..]. apply lookup_lt_Some in Hb. lia.
Qed.

(** X2.  [GetMetricsHistory] returns the entries of the bucket newest
    first; with a positive limit it returns the [limit] first of them
    (all of them when there are no more than [limit]), and every entry
    it leaves out is at most as recent as every entry it returns; with a
    limit of zero or less it returns them all. *)
Theorem GetMetricsHistory_newest (all : list MetricsEntry) (limit : Z) :
  let r := GetMetricsHistory_of all limit in
  newest_first r /\
  length r
  = (if 0 <? limit then Nat.min (Z.to_nat limit) (length all) else length all) /\
  (exists rest, r ++ rest ≡ₚ all /\ newest_first (r ++ rest)) /\
  (forall s e, all = (map_to_list (metrics_history s)).*2 ->
     e ∈ GetMetricsHistory s limit ->
     exists k, metrics_history s !! k = Some e).
Proof.
  intros r.
  destruct (sortMetricsByTimestamp_newest_first all) as [Hnf Hlen].
  pose proof (sortMetricsByTimestamp_Permutation all) as Hperm.
  assert (exists rest, r ++ rest = sortMetricsByTimestamp all) as [rest Hrest].
  { subst r. unfold GetMetricsHistory_of.
    destruct ((0 <? limit) && _).
    - eexists. apply take_drop.
    - exists []. apply app_nil_r. }
  split; [|split; [|split]].
  - subst r. unfold GetMetricsHistory_of.
    destruct ((0 <? limit) && _); [by apply newest_first_take|done].
  - subst r. unfold GetMetricsHistory_of. rewrite Hlen.
    destruct (Z.ltb_spec 0 limit); simpl; [|done].
    destruct (Z.ltb_spec limit (Z.of_nat (length all))).
    + rewrite length_take, Hlen. lia.
    + rewrite Hlen. lia.
  - exists rest. by rewrite Hrest.
  - intros s e -> He. unfold GetMetricsHistory in He. fold r in He.
    assert (e ∈ (map_to_list (metrics_history s)).*2) as Hin.
    { rewrite <- Hperm, <- Hrest. apply elem_of_app. by left. }
    apply list_elem_of_fmap in Hin as ([k e'] & -> & Hin).
    exists k. by apply elem_of_map_to_list.
Qed.

(** *** The key-value store *)

(** X3.  A [Set] that returns nil is read back by [Get] under the same
    bucket and key, and changes the answer of [Get] for no other bucket or
    key; a [Set] that returns an error leaves the database as it was.  A
    [Delete] that returns nil makes [Get] answer nil for that key, leaves
    the other keys alone, and may be repeated; deleting a key that is not
    there succeeds. *)
Theorem Set_Get_Delete_round_trip (commit : option error)
    (db : gmap string (gmap string string)) (bucket key value : string) :
  (forall db',
     Set_ commit db bucket key value = (db', None) ->
     Get db' bucket key = (Some value, None) /\
     (forall b k, (b, k) <> (bucket, key) -> Get db' b k = Get db b k) /\
     (forall commit' db'',
        Delete commit' db' bucket key = (db'', None) ->
        Get db'' bucket key = (None, None) /\
        (forall b k, (b, k) <> (bucket, key) -> Get db'' b k = Get db b k) /\
        exists db3, Delete None db'' bucket key = (db3, None) /\
          forall b k, Get db3 b k = Get db'' b k)) /\
  (forall db' e, Set_ commit db bucket key value = (db', Some e) -> db' = db) /\
  (forall db' e, Delete commit db bucket key = (db', Some e) -> db' = db).
Proof.
  assert (forall (d : gmap string (gmap string string)) bk b0 (f : gmap string string -> gmap string string) b k,
            d !! bk = Some b0 ->
            Get (<[bk := f b0]> d) b k
            = if decide (b = bk) then (f b0 !! k, None) else Get d b k) as Hget.
  { intros d bk b0 f b k Hd. unfold Get. case_decide as Hb.
    - subst. by rewrite lookup_insert_eq.
    - by rewrite lookup_insert_ne. }
  split; [|split].
  - intros db' Hset. unfold Set_ in Hset.
    destruct (db !! bucket) as [b0|] eqn:Hb; [|done].
    destruct commit; [done|]. injection Hset as <-.
    split; [|split].
    + rewrite (Hget db bucket b0 (fun b => <[key := value]> b)) by done.
      rewrite decide_True by done. by rewrite lookup_insert_eq.
    + intros b k Hne.
      rewrite (Hget db bucket b0 (fun b => <[key := value]> b)) by done.
      case_decide as Hbk; [|done]. subst. unfold Get. rewrite Hb.
      rewrite lookup_insert_ne; [done|congruence].
    + intros commit' db'' Hdel. unfold Delete in Hdel.
      rewrite lookup_insert_eq in Hdel. destruct commit'; [done|].
      injection Hdel as <-. rewrite insert_insert_eq.
      split; [|split].
      * rewrite (Hget db bucket b0 (fun b => delete key (<[key := value]> b))) by done.
        rewrite decide_True by done. by rewrite lookup_delete_eq.
      * intros b k Hne.
        rewrite (Hget db bucket b0 (fun b => delete key (<[key := value]> b))) by done.
        case_decide as Hbk; [|done]. subst. unfold Get. rewrite Hb.
        rewrite lookup_delete_ne by congruence.
        rewrite lookup_insert_ne; [done|congruence].
      * eexists. unfold Delete. rewrite lookup_insert_eq. split; [done|].
        intros b k. rewrite insert_insert_eq. unfold Get.
        destruct (decide (b = bucket)) as [->|Hne].
        -- rewrite !lookup_insert_eq. f_equal.
           destruct (decide (k = key)) as [->|Hk].
           ++ by rewrite !lookup_delete_eq.
           ++ by rewrite !lookup_delete_ne.
        -- by rewrite !lookup_insert_ne.
  - intros db' e. unfold Set_. destruct (db !! bucket); [|by intros [= <-]].
    destruct commit; [by intros [= <-]|done].
  - intros db' e. unfold Delete. destruct (db !! bucket); [|by intros [= <-]].
    destruct commit; [by intros [= <-]|done].
Qed.

(** X4.  On a bucket that does not exist, [Get], [Set], [Delete],
    [GetAll], [Count] and [DeleteOlderThan] all fail with the error
    [bucket ... not found], and those that write leave the database as it
    was.  After an [initBuckets] that succeeds, each of the seven buckets
    exists, so none of these calls fails that way on them, and whatever
    the database held before is still read by [Get]. *)
Theorem missing_bucket_and_initBuckets (db : gmap string (gmap string string))
    (bucket : string) :
  (db !! bucket = None ->
   forall commit key value f now duration,
     Get db bucket key = (None, Some (bucket_not_found bucket)) /\
     Set_ commit db bucket key value = (db, Some (bucket_not_found bucket)) /\
     Delete commit db bucket key = (db, Some (bucket_not_found bucket)) /\
     GetAll db bucket = (∅, Some (bucket_not_found bucket)) /\
     Count db bucket = (0, Some (bucket_not_found bucket)) /\
     DeleteOlderThan f now commit db bucket duration
     = (db, Some (bucket_not_found bucket))) /\
  (forall db',
     initBuckets None db = (db', None) ->
     (forall b, b ∈ AllBuckets -> is_Some (db' !! b)) /\
     (forall b k v, Get db b k = (Some v, None) -> Get db' b k = (Some v, None))).
Proof.
  split.
  - intros Hb commit key value f now duration.
    unfold Get, Set_, Delete, GetAll, Count, DeleteOlderThan. by rewrite Hb.
  - intros db' Hinit.
    assert (db' = foldl (fun db bucket =>
                         match db !! bucket with
                         | Some _ => db
                         | None => <[bucket := ∅]> db
                         end) db AllBuckets) as ->.
    { unfold initBuckets in Hinit. congruence. }
    clear Hinit.
    assert (forall (l : list string) (d : gmap string (gmap string string)),
              let d' := foldl (fun db bucket =>
                                 match db !! bucket with
                                 | Some _ => db
                                 | None => <[bucket := ∅]> db
                                 end) d l in
              (forall b, b ∈ l -> is_Some (d' !! b)) /\
              (forall b x, d !! b = Some x -> d' !! b = Some x)) as Hfold.
    { induction l as [|x l IH]; intros d; simpl.
      - split; [|done]. intros b Hb. by apply elem_of_nil in Hb.
      - destruct (IH (match d !! x with
                      | Some _ => d
                      | None => <[x := ∅]> d
                      end)) as [H1 H2].
        split.
        + intros b Hb. apply elem_of_cons in Hb as [->|Hb]; [|by apply H1].
          destruct (d !! x) as [y|] eqn:Hx.
          * exists y. by apply H2.
          * exists ∅. apply H2. apply lookup_insert_eq.
        + intros b y Hy. apply H2. destruct (d !! x) eqn:Hx; [done|].
          rewrite lookup_insert_ne; [done|congruence]. }
    destruct (Hfold AllBuckets db) as [H1 H2]. split; [exact H1|].
    intros b k v. unfold Get. destruct (db !! b) as [x|] eqn:Hx; [|done].
    by rewrite (H2 b x Hx).
Qed.





End StorageFacts.

(** ** The collector: subscribers, sub-collections, timestamps, store *)

Module CollectorFacts.

Import Metrics.

Local Open Scope Z_scope.

(** A subscriber channel as [Subscribe] makes it and as the collector
    keeps it: open, of capacity 10, holding at most 10 snapshots. *)
Lemma notifySubscribers_bounded (m : AllMetrics) (subs : list (Chan AllMetrics)) :
  Forall (fun ch => closed ch = false /\ cap ch = 10%nat /\
                    (length (buf ch) <= 10)%nat) subs ->
  exists subs',
    notifySubscribers m subs = Done subs' /\
    Forall (fun ch => closed ch = false /\ cap ch = 10%nat /\
                      (length (buf ch) <= 10)%nat) subs'.
Proof.
  induction 1 as [|ch rest (Hop & Hcap & Hlen) Hrest IH]; simpl.
  - by exists [].
  - destruct IH as (r & -> & Hr).
    unfold try_send, full. rewrite Hop, Hcap.
    destruct (Nat.ltb_spec (length (buf ch)) 10); simpl.
    + eexists. split; [done|]. constructor; [|done]. simpl.
      rewrite length_app. simpl. split; [done|]. split; [done|]. lia.
    + eexists. split; [done|]. by constructor.
Qed.

(** X6.  Whatever sequence of ticks, subscriptions, unsubscriptions and
    receptions happens to a new collector with a non-negative history
    size, nothing panics, and in the state reached every subscriber
    channel is open, has capacity 10 and holds at most 10 snapshots, and
    the history holds at most [H] entries.  In particular an
    [Unsubscribe] of a channel that is no longer subscribed does nothing,
    and a tick never meets a closed channel. *)
Theorem collector_invariants (store : option Storage.Storage) (iv H : Z)
    (es : list cevent) :
  0 <= H ->
  exists c0 c,
    NewCollector store iv H = Done c0 /\
    crun es c0 = Done c /\
    Forall (fun ch => closed ch = false /\ cap ch = 10%nat /\
                      (length (buf ch) <= 10)%nat) (subscribers c) /\
    Z.of_nat (length (history c)) <= H /\
    histSize c = H /\
    Unsubscribe None c = Done c /\
    Unsubscribe (Some (length (subscribers c))) c = Done c.
Proof.
  intros H0. unfold NewCollector.
  destruct (Z.ltb_spec H 0) as [?|_]; [lia|].
  eexists. 
  assert (forall c,
            Forall (fun ch => closed ch = false /\ cap ch = 10%nat /\
                              (length (buf ch) <= 10)%nat) (subscribers c) ->
            Z.of_nat (length (history c)) <= H -> histSize c = H ->
            exists c',
              crun es c = Done c' /\
              Forall (fun ch => closed ch = false /\ cap ch = 10%nat /\
                                (length (buf ch) <= 10)%nat) (subscribers c') /\
              Z.of_nat (length (history c')) <= H /\ histSize c' = H) as Hrun.
  { induction es as [|e es IH]; intros c Hsubs Hlen Hsize; simpl.
    - by exists c.
    - assert (exists c1,
                cstep e c = Done c1 /\
                Forall (fun ch => closed ch = false /\ cap ch = 10%nat /\
                                  (length (buf ch) <= 10)%nat) (subscribers c1) /\
                Z.of_nat (length (history c1)) <= H /\ histSize c1 = H)
        as (c1 & -> & Hs1 & Hl1 & Hz1); [|by apply IH].
      destruct e as [h| |pos|i]; simpl.
      + unfold collect.
        destruct (notifySubscribers_bounded (gather h) _ Hsubs) as (r & -> & Hr).
        simpl. eexists. split; [done|]. simpl. split; [done|]. split; [|done].
        rewrite Hsize. by apply MetricsFacts.store_in_history_length.
      + eexists. split; [done|]. simpl. split; [|done].
        apply Forall_app. split; [done|]. constructor; [|done]. simpl.
        split; [done|]. split; [done|]. lia.
      + unfold Unsubscribe. destruct pos as [i|]; [|by exists c].
        destruct (subscribers c !! i) as [ch|] eqn:Hch; [|by exists c].
        pose proof (proj1 (Forall_lookup _ _) Hsubs i ch Hch) as (Hop & _).
        unfold close. rewrite Hop. simpl. eexists. split; [done|]. simpl.
        split; [|done]. by apply Forall_delete.
      + unfold receive. destruct (subscribers c !! i) as [ch|] eqn:Hch.
        2:{ by exists c. }
        pose proof (proj1 (Forall_lookup _ _) Hsubs i ch Hch) as (Hop & Hcap & Hb).
        unfold recv. destruct (buf ch) as [|v rest] eqn:Hbuf.
        { rewrite Hop. by exists c. }
        eexists. split; [done|]. simpl. split; [|done].
        apply Forall_insert; [done|]. simpl. simpl in Hb.
        split; [done|]. split; [done|]. lia. }
  destruct (Hrun {| storage := store; interval := iv; history := [];
                    histSize := H; subscribers := [] |})
    as (c & Hc & Hs & Hl & Hz); simpl; [done|lia|done|].
  exists c. split; [done|]. split; [exact Hc|]. split; [done|].
  split; [done|]. split; [done|]. split; [done|].
  unfold Unsubscribe. rewrite lookup_ge_None_2; [done|lia].
Qed.

Lemma collector_invariants_witness :
  0 <= 3 /\
  exists c0 c,
    NewCollector None Second 3 = Done c0 /\
    crun [Sub; Tick (Scenarios.healthy_host 1); Unsub (Some 0%nat);
          Unsub (Some 0%nat); Tick (Scenarios.failing_host 2)] c0 = Done c /\
    Z.of_nat (length (history c)) <= 3.
Proof.
  assert (0 <= 3) as H0 by lia.
  split; [exact H0|].
  destruct (collector_invariants None Second 3
              [Sub; Tick (Scenarios.healthy_host 1); Unsub (Some 0%nat);
               Unsub (Some 0%nat); Tick (Scenarios.failing_host 2)] H0)
    as (c0 & c & Hc0 & Hc & _ & Hl & _).
  exists c0, c. by repeat split.
Defined.

(** One tick, seen from the last subscriber. *)
Lemma collect_last_subscriber (h : Host) (c : Collector)
    (subs : list (Chan AllMetrics)) (b : list AllMetrics) :
  subscribers c = subs ++ [mkChan b 10 false] ->
  Forall is_open subs ->
  exists c' subs',
    collect h c = Done c' /\
    subscribers c'
    = subs' ++ [mkChan (if (length b <? 10)%nat then b ++ [gather h] else b)
                       10 false] /\
    Forall is_open subs' /\ length subs' = length subs.
Proof.
  intros Hsubs Hopen. unfold collect.
  destruct (MetricsFacts.notifySubscribers_open (gather h) (subscribers c))
    as (r & -> & Hr & Hrel).
  { rewrite Hsubs. apply Forall_app. split; [done|]. by constructor. }
  simpl. rewrite Hsubs in Hrel.
  apply Forall2_app_inv_l in Hrel as (r1 & r2 & Hr1 & Hr2 & ->).
  apply Forall2_cons_inv_l in Hr2 as (ch' & r3 & Hch & Hr3 & ->).
  apply Forall2_nil_inv_l in Hr3 as ->.
  eexists. exists r1. split; [done|]. simpl.
  apply Forall_app in Hr as [Hr1o _].
  split; [|split; [done|by apply Forall2_length in Hr1]].
  f_equal. f_equal. unfold full in Hch. simpl in Hch.
  by destruct (length b <? 10)%nat; simpl in Hch.
Qed.

Lemma Start_last_subscriber (ticks : list Host) (c : Collector)
    (subs : list (Chan AllMetrics)) (b : list AllMetrics) :
  subscribers c = subs ++ [mkChan b 10 false] ->
  Forall is_open subs -> (length b <= 10)%nat ->
  exists c' subs',
    Start ticks c = Done c' /\
    subscribers c'
    = subs' ++ [mkChan (take 10 (b ++ map gather ticks)) 10 false] /\
    length subs' = length subs.
Proof.
  revert c subs b. induction ticks as [|h ticks IH]; intros c subs b Hs Ho Hb.
  - exists c, subs. simpl. rewrite app_nil_r, take_ge by done. by repeat split.
  - destruct (collect_last_subscriber h c subs b Hs Ho)
      as (c1 & subs1 & Hc1 & Hs1 & Ho1 & Hl1).
    simpl. rewrite Hc1. simpl.
    destruct (IH c1 subs1 _ Hs1 Ho1) as (c' & subs' & Hrun & Hs' & Hl').
    { destruct (Nat.ltb_spec (length b) 10); [|done].
      rewrite length_app. simpl. lia. }
    exists c', subs'. split; [done|]. split; [|congruence].
    rewrite Hs'. do 3 f_equal.
    destruct (Nat.ltb_spec (length b) 10).
    + by rewrite <- app_assoc.
    + rewrite !take_app_le by lia. done.
Qed.

(** X7.  A subscriber that never receives gets the first ten snapshots
    collected after its subscription, in order, and none of the later
    ones: after any number of ticks its queue holds the first ten
    gathered snapshots (all of them when fewer than ten ticks happened),
    the ticks completing without waiting for it. *)
Theorem idle_subscriber_keeps_first_ten (ticks : list Host) (c : Collector) :
  Forall is_open (subscribers c) ->
  exists c',
    Start ticks (Subscribe c) = Done c' /\
    last (subscribers c')
    = Some (mkChan (take 10 (map gather ticks)) 10 false) /\
    length (subscribers c') = S (length (subscribers c)).
Proof.
  intros Hopen.
  destruct (Start_last_subscriber ticks (Subscribe c) (subscribers c) [])
    as (c' & subs' & Hrun & Hs & Hl); [done|done|simpl; lia|].
  exists c'. split; [done|]. rewrite Hs. split; [apply last_snoc|].
  rewrite length_app. simpl. lia.
Qed.

Lemma idle_subscriber_keeps_first_ten_witness :
  Forall is_open (subscribers Scenarios.idle_collector) /\
  exists c',
    Start (map Scenarios.healthy_host (map Z.of_nat (seq 1 12)))
      (Subscribe Scenarios.idle_collector) = Done c' /\
    (length ∘ buf <$> last (subscribers c')) = Some 10%nat.
Proof.
  assert (Forall is_open (subscribers Scenarios.idle_collector)) as Ho.
  { constructor. }
  split; [exact Ho|].
  destruct (idle_subscriber_keeps_first_ten
              (map Scenarios.healthy_host (map Z.of_nat (seq 1 12)))
              Scenarios.idle_collector Ho) as (c' & Hrun & Hlast & _).
  exists c'. split; [exact Hrun|]. by rewrite Hlast.
Defined.

Lemma disk_loop_omap (h : Host) (partitions : list disk_PartitionStat)
    (disks : list DiskInfo) :
  disk_loop h partitions disks = disks ++ omap (disk_of h) partitions.
Proof.
  assert (forall p rest,
            omap (disk_of h) (p :: rest)
            = match disk_of h p with
              | Some d => d :: omap (disk_of h) rest
              | None => omap (disk_of h) rest
              end) as Hcons by done.
  revert disks. induction partitions as [|p rest IH]; intros disks.
  - simpl. by rewrite app_nil_r.
  - rewrite Hcons. cbn [disk_loop]. unfold disk_of at 1.
    destruct (disk_Usage h (p_Mountpoint p)).
    + rewrite IH. by rewrite <- app_assoc.
    + apply IH.
Qed.

Lemma net_loop_copy (counters networks : list NetworkInfo) :
  net_loop counters networks = networks ++ counters.
Proof.
  revert networks. induction counters as [|[] rest IH]; intros networks; simpl.
  - by rewrite app_nil_r.
  - rewrite IH. by rewrite <- app_assoc.
Qed.

(** X8.  [GetDiskInfo] fails only when the partitions cannot be listed;
    otherwise it returns, in the order of the partitions, one entry for
    each partition whose usage can be read and none for the others, so
    never more entries than partitions, and one per partition when every
    usage can be read.  [GetNetworkInfo] fails only when the counters
    cannot be read and otherwise returns one entry per interface, in
    order, with the counters as reported. *)
Theorem disk_and_network_entries (h : Host) :
  (forall e, disk_Partitions h = Err e -> GetDiskInfo h = ([], Some e)) /\
  (forall partitions,
     disk_Partitions h = Ok partitions ->
     GetDiskInfo h = (omap (disk_of h) partitions, None) /\
     (length (GetDiskInfo h).1 <= length partitions)%nat /\
     (Forall (fun p => is_ok (disk_Usage h (p_Mountpoint p)) = true) partitions ->
      map Mountpoint (GetDiskInfo h).1 = map p_Mountpoint partitions) /\
     (forall d, d ∈ (GetDiskInfo h).1 ->
        exists p usage,
          p ∈ partitions /\ disk_Usage h (p_Mountpoint p) = Ok usage /\
          Mountpoint d = p_Mountpoint p /\ dTotal d = u_Total usage)) /\
  (forall e, net_IOCounters h = Err e -> GetNetworkInfo h = ([], Some e)) /\
  (forall counters,
     net_IOCounters h = Ok counters -> GetNetworkInfo h = (counters, None)).
Proof.
  unfold GetDiskInfo, GetNetworkInfo. split; [by intros e ->|].
  split; [|split; [by intros e ->|]].
  - intros partitions ->. rewrite disk_loop_omap. simpl.
    split; [done|]. split.
    { induction partitions as [|p rest IH]; [done|].
      change (omap (disk_of h) (p :: rest))
        with (match disk_of h p with
              | Some d => d :: omap (disk_of h) rest
              | None => omap (disk_of h) rest
              end).
      destruct (disk_of h p); simpl; lia. }
    split.
    + induction 1 as [|p rest Hp Hrest IH]; [done|].
      change (omap (disk_of h) (p :: rest))
        with (match disk_of h p with
              | Some d => d :: omap (disk_of h) rest
              | None => omap (disk_of h) rest
              end).
      unfold disk_of at 1. destruct (disk_Usage h (p_Mountpoint p)); [|done].
      simpl. by rewrite IH.
    + intros d Hd. apply list_elem_of_omap in Hd as (p & Hp & Hd).
      unfold disk_of in Hd.
      destruct (disk_Usage h (p_Mountpoint p)) as [usage|] eqn:Hu; [|done].
      injection Hd as <-. by exists p, usage.
  - intros counters ->. by rewrite net_loop_copy.
Qed.




(** One tick, seen from the store. *)
Lemma collect_store (h : Host) (c : Collector) (s : Storage.Storage) :
  Forall is_open (subscribers c) -> storage c = Some s ->
  exists c',
    collect h c = Done c' /\
    Forall is_open (subscribers c') /\
    storage c'
    = Some (if decide (db_Update h = None)
            then {| Storage.metrics_history :=
                      <[time_Now h := entry_of (gather h)]>
                        (Storage.metrics_history s) |}
            else s).
Proof.
  intros Hopen Hs. unfold collect.
  destruct (MetricsFacts.notifySubscribers_open (gather h) _ Hopen)
    as (subs & -> & Ho & _).
  simpl. eexists. split; [done|]. split; [done|]. simpl. rewrite Hs.
  f_equal. unfold Storage.AddMetricsEntry.
  destruct (db_Update h); simpl; [done|].
  simpl. by destruct (MetricsFacts.gather_fields h) as [-> _].
Qed.

(** X10.  The collector only ever adds to the store: after any number of
    ticks on a collector that has a store, the keys of the metrics
    bucket are those it had before together with the timestamps of the
    ticks whose write succeeded, whatever the history size; no entry is
    removed, and an entry stored before is unchanged unless a tick with
    the same timestamp overwrote it. *)
Theorem store_only_grows (ticks : list Host) (c : Collector)
    (s : Storage.Storage) :
  Forall is_open (subscribers c) -> storage c = Some s ->
  exists c' s',
    Start ticks c = Done c' /\
    storage c' = Some s' /\
    dom (Storage.metrics_history s')
    = dom (Storage.metrics_history s)
      ∪ list_to_set
          (map time_Now (filter (fun h => db_Update h = None) ticks)) /\
    (forall k e,
       Storage.metrics_history s !! k = Some e ->
       k ∉ map time_Now (filter (fun h => db_Update h = None) ticks) ->
       Storage.metrics_history s' !! k = Some e).
Proof.
  revert c s. induction ticks as [|h ticks IH]; intros c s Hopen Hs.
  - exists c, s. simpl. split; [done|]. split; [done|].
    split; [set_solver|done].
  - destruct (collect_store h c s Hopen Hs) as (c1 & Hc1 & Ho1 & Hs1).
    simpl. rewrite Hc1. simpl.
    destruct (IH c1 _ Ho1 Hs1) as (c' & s' & Hrun & Hs' & Hdom & Hkeep).
    exists c', s'. split; [done|]. split; [done|].
    rewrite filter_cons. case_decide as Hw.
    + simpl in Hdom, Hkeep. split.
      * rewrite Hdom, dom_insert_L. simpl. set_solver.
      * intros k e Hk Hnin. simpl in Hnin.
        apply not_elem_of_cons in Hnin as [Hne Hnin].
        apply Hkeep; [|done]. by rewrite lookup_insert_ne.
    + split; [done|]. intros k e Hk Hnin. by apply Hkeep.
Qed.

Lemma store_only_grows_witness :
  Forall is_open (subscribers Scenarios.busy_collector) /\
  storage Scenarios.busy_collector = Some {| Storage.metrics_history := ∅ |} /\
  exists c' s',
    Start (map Scenarios.healthy_host [5; 6; 7; 8; 9]) Scenarios.busy_collector
    = Done c' /\
    storage c' = Some s' /\
    dom (Storage.metrics_history s') = list_to_set [5; 6; 7; 8; 9].
Proof.
  assert (Forall is_open (subscribers Scenarios.busy_collector)) as Ho.
  { repeat constructor. }
  split; [exact Ho|]. split; [reflexivity|].
  destruct (store_only_grows (map Scenarios.healthy_host [5; 6; 7; 8; 9])
              Scenarios.busy_collector _ Ho eq_refl)
    as (c' & s' & Hrun & Hs & Hdom & _).
  exists c', s'. split; [exact Hrun|]. split; [exact Hs|].
  rewrite Hdom. simpl. rewrite dom_empty_L. set_solver.
Defined.

End CollectorFacts.

(** ** The terminal manager: base names, creation, shutdown *)

Module SessionFacts.

Import Terminal.

Local Open Scope Z_scope.

Lemma get_ge (s : string) (k : nat) :
  (String.length s <= k)%nat -> String.get k s = None.
Proof.
  revert k. induction s as [|a s IH]; intros k Hk; [done|].
  destruct k as [|k]; simpl in *; [lia|]. apply IH. lia.
Qed.

Lemma lastIndex_from_spec (s : string) (c : ascii) (i : nat) :
  (lastIndex_from s c i = -1 /\
   forall k, (k < i)%nat -> String.get k s <> Some c) \/
  (0 <= lastIndex_from s c i < Z.of_nat i /\
   String.get (Z.to_nat (lastIndex_from s c i)) s = Some c /\
   forall k, (Z.to_nat (lastIndex_from s c i) < k < i)%nat ->
     String.get k s <> Some c).
Proof.
  induction i as [|j IH]; simpl.
  - left. split; [done|]. intros k Hk. lia.
  - case_bool_decide as Hj.
    + right. rewrite Nat2Z.id. split; [lia|]. split; [done|]. intros k Hk. lia.
    + destruct IH as [[Hm Hno]|(Hr & Hat & Hno)].
      * left. split; [done|]. intros k Hk.
        destruct (decide (k = j)) as [->|Hne]; [done|]. apply Hno. lia.
      * right. split; [lia|]. split; [done|]. intros k Hk.
        destruct (decide (k = j)) as [->|Hne]; [done|]. apply Hno. lia.
Qed.

(** X11.  [lastIndex] returns -1 exactly when the byte does not occur in
    the string; otherwise it returns a position inside the string at
    which the byte stands and after which it does not occur again. *)
Theorem lastIndex_last_occurrence (s : string) (c : ascii) :
  (lastIndex s c = -1 <-> forall k, String.get k s <> Some c) /\
  (lastIndex s c <> -1 ->
   0 <= lastIndex s c < Z.of_nat (String.length s) /\
   String.get (Z.to_nat (lastIndex s c)) s = Some c /\
   forall k, (Z.to_nat (lastIndex s c) < k)%nat -> String.get k s <> Some c).
Proof.
  unfold lastIndex.
  destruct (lastIndex_from_spec s c (String.length s))
    as [[Hm Hno]|(Hr & Hat & Hno)].
  - split; [|done]. split; [|done]. intros _ k.
    destruct (decide (k < String.length s)%nat); [by apply Hno|].
    rewrite get_ge; [done|lia].
  - split.
    + split; [lia|]. intros Hnone. by destruct (Hnone _ Hat).
    + intros _. split; [done|]. split; [done|]. intros k Hk.
      destruct (decide (k < String.length s)%nat); [apply Hno; lia|].
      rewrite get_ge; [done|lia].
Qed.

Lemma substring_all (s : string) : String.substring 0 (String.length s) s = s.
Proof. induction s as [|a s IH]; [done|]. simpl. by rewrite IH. Qed.

(** The slice [s[n:]] is what is left of [s] after its first [n] bytes. *)
Lemma slice_from_get (s : string) (n k : nat) :
  String.get k (slice_from s (Z.of_nat n)) = String.get (k + n) s.
Proof.
  unfold slice_from. rewrite Nat2Z.id.
  revert s. induction n as [|n IH]; intros s.
  - rewrite Nat.sub_0_r, substring_all. by rewrite Nat.add_0_r.
  - destruct s as [|a s].
    + done.
    + replace (k + S n)%nat with (S (k + n)) by lia. simpl. apply IH.
Qed.

Lemma slice_from_suffix (s : string) (n : nat) :
  exists prefix, s = prefix +:+ slice_from s (Z.of_nat n).
Proof.
  unfold slice_from. rewrite Nat2Z.id.
  revert s. induction n as [|n IH]; intros s.
  - exists "". by rewrite Nat.sub_0_r, substring_all.
  - destruct s as [|a s].
    + by exists "".
    + destruct (IH s) as [prefix Hp]. exists (String a prefix).
      simpl.
      change (String a s
              = String a (prefix +:+ String.substring n (String.length s - n) s)).
      by rewrite <- Hp.
Qed.

(** X12.  The base name that [IsShellAllowed] extracts is a suffix of the
    shell string, and never contains a backslash.  When the shell string
    contains no backslash, the base name contains no slash either; when
    it contains neither, the base name is the shell string itself. *)
Theorem baseName_has_no_separator (shell : string) :
  (exists prefix, shell = prefix +:+ baseName shell) /\
  (forall k, String.get k (baseName shell) <> Some "\"%char) /\
  ((forall k, String.get k shell <> Some "\"%char) ->
   forall k, String.get k (baseName shell) <> Some "/"%char) /\
  ((forall k, String.get k shell <> Some "\"%char) ->
   (forall k, String.get k shell <> Some "/"%char) ->
   baseName shell = shell).
Proof.
  unfold baseName.
  destruct (lastIndex_last_occurrence shell "\"%char) as [Hbn Hbs].
  destruct (lastIndex_last_occurrence shell "/"%char) as [Hsn Hss].
  destruct (Z.leb_spec 0 (lastIndex shell "\"%char)) as [Hb|Hb].
  - destruct Hbs as (Hr & Hat & Hlast); [lia|].
    replace (lastIndex shell "\"%char + 1)
      with (Z.of_nat (S (Z.to_nat (lastIndex shell "\"%char)))) by lia.
    split; [apply slice_from_suffix|]. split; [|split].
    + intros k. rewrite slice_from_get. apply Hlast. lia.
    + intros Hno. by destruct (Hno _ Hat).
    + intros Hno. by destruct (Hno _ Hat).
  - assert (forall k, String.get k shell <> Some "\"%char) as Hnob.
    { apply Hbn. destruct (lastIndex_from_spec shell "\"%char (String.length shell))
        as [[Hm _]|(Hr & _)]; unfold lastIndex in *; [done|lia]. }
    destruct (Z.leb_spec 0 (lastIndex shell "/"%char)) as [Hs|Hs].
    + destruct Hss as (Hr & Hat & Hlast); [lia|].
      replace (lastIndex shell "/"%char + 1)
        with (Z.of_nat (S (Z.to_nat (lastIndex shell "/"%char)))) by lia.
      split; [apply slice_from_suffix|]. split; [|split].
      * intros k. rewrite slice_from_get. apply Hnob.
      * intros _ k. rewrite slice_from_get. apply Hlast. lia.
      * intros _ Hno. by destruct (Hno _ Hat).
    + split; [by exists ""|]. split; [done|]. split; [|done].
      intros _. apply Hsn.
      destruct (lastIndex_from_spec shell "/"%char (String.length shell))
        as [[Hm _]|(Hr & _)]; unfold lastIndex in *; [done|lia].
Qed.

(** X13.  [CreateSession] succeeds exactly when the manager is below its
    maximum, the identifier is free, the resolved shell is allowed and
    the shell starts.  It then starts exactly one process, allocates one
    session object, open, carrying the identifier and the resolved shell,
    and registers it: [GetSession] finds it under the identifier, the
    other identifiers and objects are as before, and the number of
    sessions grows by one.  When the three checks pass and the shell does
    not start, the error of the start is returned and nothing is
    registered or allocated. *)
Theorem CreateSession_outcomes os m id shell cols rows w :
  let resolved :=
    if bool_decide (shell = "") then GetDefaultShell os m else shell in
  let checks :=
    Z.of_nat (size (sessions m)) < maxSessions m /\
    sessions m !! id = None /\ IsShellAllowed m resolved = true in
  ((exists p m' w', CreateSession os m id shell cols rows w = (m', w', Ok p))
   <-> checks /\ spawn os resolved cols rows = None) /\
  (forall p m' w',
     CreateSession os m id shell cols rows w = (m', w', Ok p) ->
     p = next w /\
     GetSession m' id = Some p /\
     (forall id', id' <> id -> GetSession m' id' = GetSession m id') /\
     objs w' !! p
     = Some {| ID := id; Shell := resolved; Cmd := Some p; Pty := Some p;
               closed := false |} /\
     (forall q, q <> p -> objs w' !! q = objs w !! q) /\
     trace w' = trace w ++ [SysSpawn resolved cols rows] /\
     size (sessions m') = S (size (sessions m))) /\
  (forall e,
     checks -> spawn os resolved cols rows = Some e ->
     CreateSession os m id shell cols rows w
     = (m, {| objs := objs w; next := next w;
              trace := trace w ++ [SysSpawn resolved cols rows] |}, Err e)).
Proof.
  intros resolved checks. subst checks. unfold CreateSession. fold resolved.
  destruct (Z.leb_spec (maxSessions m) (Z.of_nat (size (sessions m)))) as [Hfull|Hroom].
  { split; [|split].
    - split; [by intros (? & ? & ? & ?)|]. intros [(? & _) _]. lia.
    - by intros.
    - intros e (? & _). lia. }
  case_bool_decide as Hdup.
  { destruct Hdup as [p0 Hp0]. split; [|split].
    - split; [by intros (? & ? & ? & ?)|]. intros [(_ & ? & _) _]. congruence.
    - by intros.
    - intros e (_ & ? & _). congruence. }
  apply eq_None_not_Some in Hdup.
  destruct (IsShellAllowed m resolved) eqn:Hallowed; simpl.
  2:{ split; [|split].
      - split; [by intros (? & ? & ? & ?)|]. by intros [(_ & _ & ?) _].
      - by intros.
      - by intros e (_ & _ & ?). }
  unfold newPlatformSession. destruct (spawn os resolved cols rows) as [e|] eqn:Hspawn.
  { split; [|split].
    - split; [by intros (? & ? & ? & ?)|]. by intros [_ ?].
    - by intros.
    - by intros e' _ [= <-]. }
  split; [|split].
  - split; [done|]. intros _. by do 3 eexists.
  - intros p m' w' [= <- <- <-]. simpl. unfold GetSession. simpl.
    split; [done|]. split; [apply lookup_insert_eq|].
    split; [intros id' Hne; by rewrite lookup_insert_ne|].
    split; [apply lookup_insert_eq|].
    split; [intros q Hne; by rewrite lookup_insert_ne|].
    split; [done|]. by apply map_size_insert_None.
  - by intros.
Qed.

Lemma Session_Close_fields os s tr :
  ID (Session_Close os s tr).1.1 = ID s /\
  Shell (Session_Close os s tr).1.1 = Shell s.
Proof.
  unfold Session_Close. destruct (closed s); [done|]. by destruct (Pty s).
Qed.

Lemma Close_objs os p w q :
  objs (Close os p w).1 !! q
  = if decide (q = p)
    then (fun s => (Session_Close os s (trace w)).1.1) <$> objs w !! p
    else objs w !! q.
Proof.
  unfold Close. destruct (objs w !! p) as [s|] eqn:Hs.
  - destruct (Session_Close os s (trace w)) as [[s' tr] e] eqn:Hsc. simpl.
    case_decide as Hq.
    + subst. by rewrite lookup_insert_eq, Hsc.
    + by rewrite lookup_insert_ne.
  - simpl. case_decide; [by subst|done].
Qed.

(** Closing, one after the other, the sessions of a list of registry
    entries. *)
Lemma Close_all os (l : list (string * nat)) (w : World) :
  let w' := foldl (fun w (e : string * nat) => (Close os e.2 w).1) w l in
  (forall q, q ∉ l.*2 -> objs w' !! q = objs w !! q) /\
  (forall q s, q ∈ l.*2 -> objs w !! q = Some s ->
     exists s', objs w' !! q = Some s' /\ closed s' = true /\
                ID s' = ID s /\ Shell s' = Shell s).
Proof.
  revert w. induction l as [|[id0 p0] rest IH]; intros w; simpl.
  - split; [done|]. intros q s Hq. by apply elem_of_nil in Hq.
  - destruct (IH (Close os p0 w).1) as [Hout Hin]. split.
    + intros q Hq. apply not_elem_of_cons in Hq as [Hne Hq].
      rewrite Hout by done. rewrite Close_objs. by rewrite decide_False.
    + intros q s Hq Hs.
      assert (exists s1, objs (Close os p0 w).1 !! q = Some s1 /\
                ID s1 = ID s /\ Shell s1 = Shell s /\
                (q = p0 -> closed s1 = true)) as (s1 & Hs1 & Hid & Hsh & Hcl).
      { rewrite Close_objs. case_decide as Hqp.
        - subst. rewrite Hs. simpl. eexists. split; [done|].
          destruct (Session_Close_fields os s (trace w)) as [? ?].
          split; [done|]. split; [done|]. intros _.
          apply TerminalFacts.Session_Close_closed.
        - exists s. by repeat split. }
      destruct (decide (q ∈ rest.*2)) as [Hrest|Hrest].
      * destruct (Hin q s1 Hrest Hs1) as (s' & Hs' & Hc' & Hid' & Hsh').
        exists s'. split; [done|]. split; [done|]. split; congruence.
      * apply elem_of_cons in Hq as [->|Hq]; [|done].
        exists s1. rewrite Hout by done. split; [done|]. split; [by apply Hcl|done].
Qed.

(** X14.  [Manager.Close] empties the registry and closes every session
    that was registered: each of their objects is closed afterwards,
    with its identifier and shell unchanged, so that a handler still
    holding it reads end-of-stream; session objects that were not in the
    registry are untouched; and a second [Manager.Close] changes
    nothing. *)
Theorem Manager_Close_closes_all os os' (m : Manager) (w : World) :
  sessions (Manager_Close os m w).1 = ∅ /\
  ListSessions (Manager_Close os m w).1 = [] /\
  (forall id p s,
     sessions m !! id = Some p -> objs w !! p = Some s ->
     exists s',
       objs (Manager_Close os m w).2 !! p = Some s' /\
       closed s' = true /\ ID s' = ID s /\ Shell s' = Shell s /\
       forall n tr, Read os' s' n tr = Done (tr, ("", Some io_EOF))) /\
  (forall q,
     (forall id, sessions m !! id <> Some q) ->
     objs (Manager_Close os m w).2 !! q = objs w !! q) /\
  Manager_Close os' (Manager_Close os m w).1 (Manager_Close os m w).2
  = Manager_Close os m w.
Proof.
  unfold Manager_Close. simpl.
  destruct (Close_all os (map_to_list (sessions m)) w) as [Hout Hin].
  split; [done|]. split; [unfold ListSessions; simpl; by rewrite map_to_list_empty|].
  split; [|split].
  - intros id p s Hp Hs. destruct (Hin p s) as (s' & Hs' & Hc & Hid & Hsh); [|done|].
    { apply list_elem_of_fmap. exists (id, p). split; [done|].
      by apply elem_of_map_to_list. }
    exists s'. split; [done|]. split; [done|]. split; [done|]. split; [done|].
    intros n tr. unfold Read, IsClosed. by rewrite Hc.
  - intros q Hq. apply Hout. intros Hin'.
    apply list_elem_of_fmap in Hin' as ([id p] & -> & Hin').
    apply elem_of_map_to_list in Hin'. by destruct (Hq id).
  - by rewrite map_to_list_empty.
Qed.

Lemma GetAvailableShells_loop_elem os (allowed shells : list string) (p : string) :
  p ∈ GetAvailableShells_loop os allowed shells <->
  p ∈ shells \/ exists a, a ∈ allowed /\ LookPath os a = Ok p.
Proof.
  revert shells. induction allowed as [|a rest IH]; intros shells; simpl.
  - split; [by left|]. intros [?|(a & Ha & _)]; [done|]. by apply elem_of_nil in Ha.
  - destruct (LookPath os a) as [path|e] eqn:Hlook; rewrite IH.
    + rewrite elem_of_app, list_elem_of_singleton. split.
      * intros [[?| ->]|(a' & Ha' & Hl)]; [by left| |].
        -- right. exists a. split; [by left|done].
        -- right. exists a'. split; [by right|done].
      * intros [?|(a' & Ha' & Hl)]; [by left; left|].
        apply elem_of_cons in Ha' as [->|Ha'].
        -- left. right. congruence.
        -- right. by exists a'.
    + split.
      * intros [?|(a' & Ha' & Hl)]; [by left|].
        right. exists a'. split; [by right|done].
      * intros [?|(a' & Ha' & Hl)]; [by left|].
        apply elem_of_cons in Ha' as [->|Ha']; [congruence|].
        right. by exists a'.
Qed.

(** X15.  On a host whose [LookPath] answers either with the name it was
    given or with a path whose base name is that name, every shell
    listed by [GetAvailableShells] passes [IsShellAllowed], so that a
    [CreateSession] asking for a listed shell is never refused for its
    shell: it succeeds whenever the manager is below its maximum, the
    identifier is free and the shell starts. *)
Theorem available_shells_are_allowed os (m : Manager) :
  (forall name path,
     LookPath os name = Ok path -> path = name \/ baseName path = name) ->
  forall p,
    p ∈ GetAvailableShells os m ->
    IsShellAllowed m p = true /\
    (forall id cols rows w,
       p <> "" ->
       Z.of_nat (size (sessions m)) < maxSessions m ->
       sessions m !! id = None ->
       spawn os p cols rows = None ->
       exists m' w' q,
         CreateSession os m id p cols rows w = (m', w', Ok q)).
Proof.
  intros Hlook p Hp.
  apply GetAvailableShells_loop_elem in Hp as [Hp|(a & Ha & Hl)];
    [by apply elem_of_nil in Hp|].
  assert (IsShellAllowed m p = true) as Hallowed.
  { destruct (IsShellAllowed m p) eqn:Hno; [done|].
    unfold IsShellAllowed in Hno.
    pose proof (proj1 (TerminalFacts.IsShellAllowed_loop_false _ _ _) Hno) as Hall.
    destruct (Hall a Ha) as [H1 H2]. by destruct (Hlook a p Hl). }
  split; [done|].
  intros id cols rows w Hne Hroom Hfree Hspawn. unfold CreateSession.
  destruct (Z.leb_spec (maxSessions m) (Z.of_nat (size (sessions m)))); [lia|].
  rewrite bool_decide_false by (rewrite Hfree; by intros [? ?]).
  rewrite (bool_decide_false (p = "")) by done.
  rewrite Hallowed. simpl. unfold newPlatformSession. rewrite Hspawn.
  by do 3 eexists.
Qed.

Lemma available_shells_are_allowed_witness :
  (forall name path,
     LookPath Scenarios.unix_os name = Ok path ->
     path = name \/ baseName path = name) /\
  IsShellAllowed Scenarios.zsh_manager "/usr/bin/zsh" = true.
Proof.
  assert (forall name path,
            LookPath Scenarios.unix_os name = Ok path ->
            path = name \/ baseName path = name) as Hlook.
  { intros name path. simpl.
    repeat case_bool_decide; intros [= <-]; subst; by right. }
  split; [exact Hlook|].
  refine (proj1 (available_shells_are_allowed Scenarios.unix_os
                   Scenarios.zsh_manager Hlook "/usr/bin/zsh" _)).
  apply list_elem_of_In. simpl. by left.
Defined.

(** Where [LookPath] appends the extension of the executable file, a
    listed shell is refused. *)
Example listed_shell_refused :
  GetAvailableShells Scenarios.windows_os (NewManager 10 ["cmd"] "")
  = ["C:\Windows\system32\cmd.exe"] /\
  IsShellAllowed (NewManager 10 ["cmd"] "") "C:\Windows\system32\cmd.exe"
  = false /\
  (CreateSession Scenarios.windows_os (NewManager 10 ["cmd"] "") "s1" "" 80 24
     Scenarios.empty_world).2
  = Err (ShellNotAllowed "C:\Windows\system32\cmd.exe").
Proof. repeat split. Qed.

End SessionFacts.

(** ** The hub: queue bounds, order of delivery, direct sends *)

Module QueueFacts.

Import Websocket.

Lemma step_bounded e s s' :
  hub_inv s -> bounded s -> step e s = Done s' -> bounded s'.
Proof.
  intros Hinv Hb. destruct e as [clientID|client|client|msg|client]; simpl.
  - intros [= <-]. intros c cl. unfold HandleWebSocket, Run_register. simpl.
    destruct (decide (next s = c)) as [<-|Hne].
    + rewrite lookup_insert_eq. intros [= <-]. simpl. split; [done|lia].
    + rewrite lookup_insert_ne by done. apply Hb.
  - unfold Run_unregister. destruct (clients s !! client); [|by intros [= <-]].
    destruct (objs s !! client) as [cl0|] eqn:Hcl0; [|done].
    unfold close. destruct (closed (send cl0)); [done|]. simpl.
    intros [= <-] c cl. simpl. destruct (decide (client = c)) as [<-|Hne].
    + rewrite lookup_insert_eq. intros [= <-]. simpl. by apply (Hb client).
    + rewrite lookup_insert_ne by done. apply Hb.
  - case_bool_decide; [|by intros [= <-]].
    unfold Run_unregister. simpl.
    destruct (clients s !! client); [|by intros [= <-]].
    destruct (objs s !! client) as [cl0|] eqn:Hcl0; [|done].
    unfold close. destruct (closed (send cl0)); [done|]. simpl.
    intros [= <-] c cl. simpl. destruct (decide (client = c)) as [<-|Hne].
    + rewrite lookup_insert_eq. intros [= <-]. simpl. by apply (Hb client).
    + rewrite lookup_insert_ne by done. apply Hb.
  - intros Hrun.
    destruct (HubFacts.Run_broadcast_order s) as [Hnd Hen].
    destruct (HubFacts.broadcast_loop_spec msg _ s Hinv Hnd)
      as (s1 & Hloop & _ & _ & _ & _ & Hout & Hin).
    { intros c. apply Hen. }
    unfold Run_broadcast in Hrun. rewrite Hrun in Hloop. injection Hloop as <-.
    intros c cl Hc.
    destruct (decide (c ∈ (map_to_list (clients s)).*1)) as [Hreg|Hreg].
    + destruct Hinv as (_ & Hopen & _).
      destruct (Hopen c (proj1 (Hen c) Hreg)) as (cl0 & Hcl0 & _).
      rewrite (Hin c cl0 Hreg Hcl0) in Hc. injection Hc as <-.
      destruct (Hb c cl0 Hcl0) as [Hcap Hlen].
      unfold full. rewrite Hcap.
      destruct (Nat.ltb_spec (length (buf (send cl0))) 256); simpl; [|done].
      split; [done|]. rewrite length_app. simpl. lia.
    + rewrite Hout in Hc by done. exact (Hb c cl Hc).
  - intros [= <-]. unfold drain.
    destruct (objs s !! client) as [cl0|] eqn:Hcl0; [|done].
    unfold recv. destruct (buf (send cl0)) as [|v rest] eqn:Hbuf.
    + destruct (closed (send cl0)); [|done].
      intros c cl. simpl. destruct (decide (client = c)) as [<-|Hne].
      * rewrite lookup_insert_eq. intros [= <-]. simpl. by apply (Hb client).
      * rewrite lookup_insert_ne by done. apply Hb.
    + intros c cl. simpl. destruct (decide (client = c)) as [<-|Hne].
      * rewrite lookup_insert_eq. intros [= <-]. simpl.
        destruct (Hb client cl0 Hcl0) as [Hcap Hlen]. rewrite Hbuf in Hlen.
        simpl in Hlen. split; [done|lia].
      * rewrite lookup_insert_ne by done. apply Hb.
Qed.

Lemma run_bounded es s s' :
  hub_inv s -> bounded s -> run es s = Done s' -> hub_inv s' /\ bounded s'.
Proof.
  revert s. induction es as [|e es IH]; intros s Hinv Hb; simpl.
  - by intros [= <-].
  - destruct (HubFacts.step_inv e s Hinv) as (s1 & Hs1 & Hinv1).
    rewrite Hs1. simpl. apply IH; [done|]. exact (step_bounded e s s1 Hinv Hb Hs1).
Qed.

(** X16.  In every state that a hub can reach, the queue of every client
    has capacity 256 and holds at most 256 messages, and the number of
    clients of the set is at most the number of connections made. *)
Theorem hub_queues_bounded (es : list event) (s : State) :
  run es NewHub = Done s ->
  (forall c cl, objs s !! c = Some cl ->
     cap (send cl) = 256%nat /\ (length (buf (send cl)) <= 256)%nat) /\
  (ClientCount s <= Z.of_nat (next s))%Z.
Proof.
  intros Hrun.
  destruct (run_bounded es NewHub s HubFacts.hub_inv_NewHub) as [Hinv Hb];
    [|done|].
  { intros c cl Hc. simpl in Hc. by rewrite lookup_empty in Hc. }
  split; [exact Hb|]. unfold ClientCount.
  destruct Hinv as (Hnext & Hopen & _).
  assert (dom (clients s) ⊆ set_seq 0 (next s)) as Hsub.
  { intros c Hc. apply elem_of_dom in Hc. destruct (Hopen c Hc) as (cl & Hcl & _).
    apply elem_of_set_seq. apply Hnext in Hcl. lia. }
  apply subseteq_size in Hsub. rewrite size_dom, size_set_seq in Hsub. lia.
Qed.

Lemma hub_queues_bounded_witness :
  run Scenarios.hub_events NewHub = Done Scenarios.loaded_hub /\
  (ClientCount Scenarios.loaded_hub <= Z.of_nat (next Scenarios.loaded_hub))%Z.
Proof.
  assert (run Scenarios.hub_events NewHub = Done Scenarios.loaded_hub) as Hrun.
  { vm_compute. reflexivity. }
  split; [exact Hrun|].
  exact (proj2 (hub_queues_bounded Scenarios.hub_events Scenarios.loaded_hub Hrun)).
Defined.

(** One broadcast, seen from one client of the set. *)
Lemma Run_broadcast_at msg c cl s :
  hub_inv s -> is_Some (clients s !! c) -> objs s !! c = Some cl ->
  exists s',
    Run_broadcast msg s = Done s' /\
    hub_inv s' /\
    clients s' = clients s /\
    objs s' !! c = Some (if full (send cl) then cl else enqueue msg cl) /\
    (full (send cl) = true -> c ∈ unregistering s') /\
    (forall x, x ∈ unregistering s -> x ∈ unregistering s').
Proof.
  intros Hinv Hreg Hcl.
  destruct (HubFacts.Run_broadcast_order s) as [Hnd Hen].
  destruct (HubFacts.broadcast_loop_spec msg _ s Hinv Hnd)
    as (s' & Hloop & Hinv' & Hcl' & _ & Hun & _ & Hin).
  { intros x. apply Hen. }
  exists s'. split; [done|]. split; [done|]. split; [done|].
  split; [apply Hin; [by apply Hen|done]|]. split.
  - intros Hfull. rewrite Hun. apply elem_of_app. right.
    apply list_elem_of_filter. split; [|by apply Hen].
    unfold queue_full. by rewrite Hcl.
  - intros x Hx. rewrite Hun. apply elem_of_app. by left.
Qed.

Lemma broadcasts_at (ms : list message) c cl s :
  hub_inv s -> is_Some (clients s !! c) -> objs s !! c = Some cl ->
  exists s',
    run (map Broadcast ms) s = Done s' /\
    is_Some (clients s' !! c) /\
    objs s' !! c
    = Some {| send := mkChan (buf (send cl)
                              ++ take (cap (send cl) - length (buf (send cl))) ms)
                             (cap (send cl)) false;
              id := id cl |} /\
    ((cap (send cl) - length (buf (send cl)) < length ms)%nat ->
     c ∈ unregistering s') /\
    (forall x, x ∈ unregistering s -> x ∈ unregistering s').
Proof.
  revert s cl. induction ms as [|m ms IH]; intros s cl Hinv Hreg Hcl.
  - exists s. simpl. split; [done|]. split; [done|].
    destruct Hinv as (_ & Hopen & _).
    destruct (Hopen c Hreg) as (cl0 & Hcl0 & Hop).
    assert (cl0 = cl) as -> by congruence.
    split; [|split; [lia|done]].
    rewrite Hcl, take_nil, app_nil_r. destruct cl as [[b n cl] i].
    simpl in *. by subst.
  - destruct (Run_broadcast_at m c cl s Hinv Hreg Hcl)
      as (s1 & Hs1 & Hinv1 & Hcl1 & Hobj1 & Hfull1 & Hmono1).
    simpl. rewrite Hs1. simpl.
    destruct (IH s1 (if full (send cl) then cl else enqueue m cl) Hinv1)
      as (s' & Hrun & Hreg' & Hobj' & Hover & Hmono);
      [by rewrite Hcl1|exact Hobj1|].
    exists s'. split; [done|]. split; [done|].
    unfold full in *.
    destruct (Nat.ltb_spec (length (buf (send cl))) (cap (send cl))) as [Hlt|Hge];
      simpl in *.
    + split; [|split].
      * rewrite Hobj'. do 2 f_equal. rewrite length_app. simpl.
        replace (cap (send cl) - length (buf (send cl)))%nat
          with (S (cap (send cl) - (length (buf (send cl)) + 1))) by lia.
        simpl. by rewrite <- app_assoc.
      * intros Hlen. apply Hover. rewrite length_app. simpl. lia.
      * intros x Hx. by apply Hmono, Hmono1.
    + split; [|split].
      * rewrite Hobj'.
        by replace (cap (send cl) - length (buf (send cl)))%nat with O by lia.
      * intros _. by apply Hmono, Hfull1.
      * intros x Hx. by apply Hmono, Hmono1.
Qed.

(** X17.  In every state that a hub can reach, and for every client of
    the set, broadcasting a sequence of messages while its pump takes
    none leaves in its queue what was there followed by the messages in
    the order of their broadcast, as many as fit: none is duplicated,
    none overtakes another, and the ones that do not fit are dropped.
    When some message did not fit, the client is scheduled for
    unregistration; it stays in the set until then. *)
Theorem broadcasts_keep_order (es : list event) (s : State) (c : nat)
    (cl : Client) (ms : list message) :
  run es NewHub = Done s ->
  is_Some (clients s !! c) -> objs s !! c = Some cl ->
  exists s',
    run (map Broadcast ms) s = Done s' /\
    is_Some (clients s' !! c) /\
    objs s' !! c
    = Some {| send := mkChan (buf (send cl)
                              ++ take (256 - length (buf (send cl))) ms)
                             256 false;
              id := id cl |} /\
    ((256 - length (buf (send cl)) < length ms)%nat -> c ∈ unregistering s').
Proof.
  intros Hrun Hreg Hcl.
  destruct (run_bounded es NewHub s HubFacts.hub_inv_NewHub) as [Hinv Hb];
    [|done|].
  { intros x y Hx. simpl in Hx. by rewrite lookup_empty in Hx. }
  destruct (Hb c cl Hcl) as [Hcap _].
  destruct (broadcasts_at ms c cl s Hinv Hreg Hcl)
    as (s' & Hs' & Hreg' & Hobj & Hover & _).
  rewrite Hcap in Hobj, Hover. by exists s'.
Qed.

Lemma broadcasts_keep_order_witness :
  run Scenarios.hub_events NewHub = Done Scenarios.loaded_hub /\
  exists s',
    run (map Broadcast ["x"; "y"]) Scenarios.loaded_hub = Done s' /\
    (1%nat ∈ unregistering s').
Proof.
  assert (run Scenarios.hub_events NewHub = Done Scenarios.loaded_hub) as Hrun.
  { vm_compute. reflexivity. }
  split; [exact Hrun|].
  assert (exists cl, objs Scenarios.loaded_hub !! 1%nat = Some cl /\
                     length (buf (send cl)) = 255%nat) as (cl & Hcl & Hlen).
  { eexists. split; [vm_compute; reflexivity|]. vm_compute. reflexivity. }
  destruct (broadcasts_keep_order Scenarios.hub_events Scenarios.loaded_hub
              1%nat cl ["x"; "y"] Hrun) as (s' & Hs' & _ & _ & Hover).
  { vm_compute. eauto. }
  { exact Hcl. }
  exists s'. split; [exact Hs'|]. apply Hover. rewrite Hlen. simpl. lia.
Defined.

(** X18.  In every state that a hub can reach, [Client.Send] on a client
    of the set never waits: it appends the message to the queue when
    there is room and drops it when the queue is full.  On a client that
    the hub has unregistered, whose channel the hub closed, it panics,
    unless [Client.Close] had set the client's own closed flag, in which
    case it does nothing. *)
Theorem Send_after_unregister (es : list event) (s : State) (c : nat)
    (cl : Client) (msg : message) :
  run es NewHub = Done s ->
  objs s !! c = Some cl ->
  (is_Some (clients s !! c) ->
   Send false msg cl = Done (if full (send cl) then cl else enqueue msg cl)) /\
  (clients s !! c = None -> Send false msg cl = Panic) /\
  Send true msg cl = Done cl.
Proof.
  intros Hrun Hcl.
  destruct (HubFacts.run_inv es NewHub HubFacts.hub_inv_NewHub)
    as (s1 & Hrun1 & (_ & Hopen & Hclosed)).
  rewrite Hrun in Hrun1. injection Hrun1 as <-.
  split; [|split; [|done]].
  - intros Hreg. destruct (Hopen c Hreg) as (cl0 & Hcl0 & Hop).
    assert (cl0 = cl) as -> by congruence.
    unfold Send, try_send. rewrite Hop. by destruct (full (send cl)).
  - intros Hnone. unfold Send, try_send. by rewrite (Hclosed c cl Hcl Hnone).
Qed.

Lemma Send_after_unregister_witness :
  run [Connect "a"; Unregister 0%nat] NewHub
  = Done {| clients := ∅;
            objs := {[ 0%nat := {| send := mkChan [] 256 true; id := "a" |} ]};
            next := 1; unregistering := [] |} /\
  Send false "m" {| send := mkChan [] 256 true; id := "a" |} = Panic.
Proof.
  assert (run [Connect "a"; Unregister 0%nat] NewHub
          = Done {| clients := ∅;
                    objs := {[ 0%nat := {| send := mkChan [] 256 true; id := "a" |} ]};
                    next := 1; unregistering := [] |}) as Hrun.
  { vm_compute. reflexivity. }
  split; [exact Hrun|].
  refine (proj1 (proj2 (Send_after_unregister _ _ 0%nat _ "m" Hrun _)) _).
  - vm_compute. reflexivity.
  - vm_compute. reflexivity.
Defined.

End QueueFacts.

(** ** The terminal hub and the terminal endpoint *)

Module TerminalHubFacts.

Import Websocket.

Lemma thub_inv_New : thub_inv NewTerminalHub.
Proof.
  unfold thub_inv, NewTerminalHub. simpl. split; [|split].
  - intros p c Hp. by rewrite lookup_empty in Hp.
  - intros sid p Hp. by rewrite lookup_empty in Hp.
  - intros sid1 sid2 p Hp. by rewrite lookup_empty in Hp.
Qed.

Lemma thub_inv_Handle upgrade sessionID h :
  thub_inv h -> thub_inv (HandleTerminalWebSocket upgrade sessionID h).1.
Proof.
  intros (Hnext & Hopen & Hinj). unfold HandleTerminalWebSocket.
  destruct upgrade; [done|]. unfold thub_inv. simpl. split; [|split].
  - intros p c Hp. destruct (decide (tnext h = p)) as [<-|Hne]; [lia|].
    rewrite lookup_insert_ne in Hp by done. apply Hnext in Hp. lia.
  - intros sid p Hp. destruct (decide (sessionID = sid)) as [<-|Hne].
    + rewrite lookup_insert_eq in Hp. injection Hp as <-.
      rewrite lookup_insert_eq. by eexists.
    + rewrite lookup_insert_ne in Hp by done.
      destruct (Hopen sid p Hp) as (c & Hc & Hop).
      exists c. split; [|done]. rewrite lookup_insert_ne; [done|].
      apply Hnext in Hc. lia.
  - intros sid1 sid2 p Hp1 Hp2.
    assert (forall sid, sid <> sessionID -> tclients h !! sid = Some p ->
              p <> tnext h) as Hold.
    { intros sid _ Hp. destruct (Hopen sid p Hp) as (c & Hc & _).
      apply Hnext in Hc. lia. }
    destruct (decide (sessionID = sid1)) as [<-|Hne1],
             (decide (sessionID = sid2)) as [<-|Hne2]; [done| | |].
    + rewrite lookup_insert_eq in Hp1. injection Hp1 as <-.
      rewrite lookup_insert_ne in Hp2 by done. by destruct (Hold sid2).
    + rewrite lookup_insert_eq in Hp2. injection Hp2 as <-.
      rewrite lookup_insert_ne in Hp1 by done. by destruct (Hold sid1).
    + rewrite lookup_insert_ne in Hp1 by done.
      rewrite lookup_insert_ne in Hp2 by done. by eapply Hinj.
Qed.

Lemma RemoveClient_spec sessionID h :
  thub_inv h ->
  exists h',
    RemoveClient sessionID h = Done h' /\
    thub_inv h' /\
    tclients h' = delete sessionID (tclients h) /\
    (forall p, tclients h !! sessionID <> Some p -> tobjs h' !! p = tobjs h !! p) /\
    (forall p c, tclients h !! sessionID = Some p -> tobjs h !! p = Some c ->
       tobjs h' !! p
       = Some {| t_sessionID := t_sessionID c;
                 t_send := mkChan (buf (t_send c)) (cap (t_send c)) true;
                 t_conn_closed := true |}).
Proof.
  intros Hinv. pose proof Hinv as (Hnext & Hopen & Hinj). unfold RemoveClient.
  destruct (tclients h !! sessionID) as [p|] eqn:Hp.
  2:{ exists h. split; [done|]. split; [done|].
      split; [by rewrite delete_id|]. split; [done|]. by intros. }
  destruct (Hopen _ _ Hp) as (c & Hc & Hop & Hconn).
  rewrite Hc. unfold close. rewrite Hop. simpl.
  eexists. split; [done|]. simpl. split; [|split; [done|split]].
  - unfold thub_inv. simpl. split; [|split].
    + intros q c' Hq. destruct (decide (p = q)) as [<-|Hne].
      * by eapply Hnext.
      * rewrite lookup_insert_ne in Hq by done. by eapply Hnext.
    + intros sid q Hq. destruct (decide (sessionID = sid)) as [<-|Hne].
      * by rewrite lookup_delete_eq in Hq.
      * rewrite lookup_delete_ne in Hq by done.
        rewrite lookup_insert_ne; [by eapply Hopen|].
        intros <-. apply Hne. by eapply Hinj.
    + intros sid1 sid2 q Hq1 Hq2.
      destruct (decide (sessionID = sid1)) as [<-|Hne1];
        [by rewrite lookup_delete_eq in Hq1|].
      destruct (decide (sessionID = sid2)) as [<-|Hne2];
        [by rewrite lookup_delete_eq in Hq2|].
      rewrite lookup_delete_ne in Hq1 by done.
      rewrite lookup_delete_ne in Hq2 by done. by eapply Hinj.
  - intros q Hq. rewrite lookup_insert_ne; [done|]. congruence.
  - intros q c' [= <-] Hc'. rewrite lookup_insert_eq.
    assert (c' = c) as -> by congruence. done.
Qed.

Lemma trun_inv es h :
  thub_inv h -> exists h', trun es h = Done h' /\ thub_inv h'.
Proof.
  revert h. induction es as [|e es IH]; intros h Hinv; simpl.
  - by exists h.
  - destruct e as [upgrade sid|sid]; simpl.
    + apply IH. by apply thub_inv_Handle.
    + destruct (RemoveClient_spec sid h Hinv) as (h1 & -> & Hinv1 & _).
      simpl. by apply IH.
Qed.

(** X19.  Whatever sequence of upgrades and removals happens to a new
    terminal hub, nothing panics, and in the state reached:
    [RemoveClient] of a registered session removes the entry and closes
    the channel and the connection of its client, and nothing else;
    [RemoveClient] of a session that is not registered, a second removal
    included, changes nothing; and an upgrade under a session identifier
    that is already registered replaces the entry, after which
    [RemoveClient] closes the new client and leaves the replaced one
    with its channel and connection open. *)
Theorem terminal_hub_removal (es : list tevent) :
  exists h,
    trun es NewTerminalHub = Done h /\
    forall sid,
      (exists h1,
         RemoveClient sid h = Done h1 /\
         tclients h1 = delete sid (tclients h) /\
         (forall p, tclients h !! sid <> Some p -> tobjs h1 !! p = tobjs h !! p) /\
         (forall p, tclients h !! sid = Some p ->
            exists c, tobjs h1 !! p = Some c /\ closed (t_send c) = true /\
                      t_conn_closed c = true) /\
         RemoveClient sid h1 = Done h1) /\
      (tclients h !! sid = None -> RemoveClient sid h = Done h) /\
      (forall old,
         tclients h !! sid = Some old ->
         exists h2,
           RemoveClient sid (HandleTerminalWebSocket None sid h).1 = Done h2 /\
           tclients h2 !! sid = None /\
           tobjs h2 !! old = tobjs h !! old /\
           exists c, tobjs h !! old = Some c /\ closed (t_send c) = false /\
                     t_conn_closed c = false).
Proof.
  destruct (trun_inv es NewTerminalHub thub_inv_New) as (h & Hrun & Hinv).
  exists h. split; [done|]. intros sid. split; [|split].
  - destruct (RemoveClient_spec sid h Hinv) as (h1 & Hr & Hinv1 & Hcl & Hout & Hin).
    exists h1. split; [done|]. split; [done|]. split; [done|]. split.
    + intros p Hp. destruct Hinv as (_ & Hopen & _).
      destruct (Hopen _ _ Hp) as (c & Hc & _).
      eexists. split; [by apply Hin|done].
    + unfold RemoveClient. by rewrite Hcl, lookup_delete_eq.
  - intros Hnone. unfold RemoveClient. by rewrite Hnone.
  - intros old Hold.
    pose proof (thub_inv_Handle None sid h Hinv) as Hinv2.
    destruct (RemoveClient_spec sid _ Hinv2) as (h2 & Hr & _ & Hcl & Hout & _).
    exists h2. split; [done|]. split; [by rewrite Hcl, lookup_delete_eq|].
    destruct Hinv as (Hnext & Hopen & _).
    destruct (Hopen _ _ Hold) as (c & Hc & Hop).
    split; [|by exists c].
    rewrite Hout.
    + simpl. rewrite lookup_insert_ne; [done|]. apply Hnext in Hc. lia.
    + simpl. rewrite lookup_insert_eq. intros [= <-]. apply Hnext in Hc. lia.
Qed.

End TerminalHubFacts.

(** ** The pumps over whole runs *)

Module PumpRunFacts.

Import Websocket.

Local Open Scope Z_scope.

Lemma SetReadDeadline_same (c : Conn) : SetReadDeadline (readDeadline c) c = c.
Proof. by destruct c. Qed.

Lemma SetReadDeadline_twice d d' (c : Conn) :
  SetReadDeadline d (SetReadDeadline d' c) = SetReadDeadline d c.
Proof. done. Qed.

Lemma read_loop_on_time (arrivals : list arrival) (c : Conn) :
  if on_time (readDeadline c) arrivals
  then foldl (fun p a => readPump_step a p) (Reading c) arrivals
       = Reading (SetReadDeadline (refreshed (readDeadline c) arrivals) c)
  else exists d,
       foldl (fun p a => readPump_step a p) (Reading c) arrivals
       = Returned (conn_Close (SetReadDeadline d c)) true.
Proof.
  revert c. induction arrivals as [|a rest IH]; intros c.
  - simpl. by rewrite SetReadDeadline_same.
  - cbn [on_time foldl readPump_step].
    destruct (Z.leb_spec (arrival_time a) (readDeadline c)) as [Hle|Hlt];
      destruct (Z.ltb_spec (readDeadline c) (arrival_time a)) as [Hlt'|Hle'];
      try lia; cbn [andb].
    2:{ exists (readDeadline c). unfold readPump_deferred.
        by rewrite PumpFacts.readPump_returned_stays, SetReadDeadline_same. }
    destruct a as [now|now msg|now e].
    + specialize (IH (pongHandler now c)). unfold pongHandler in *.
      cbn [readDeadline SetReadDeadline] in IH.
      unfold refreshed. cbn [foldl]. fold (refreshed (now + 60 * Second) rest).
      destruct (on_time (now + 60 * Second) rest).
      * rewrite IH. done.
      * destruct IH as (d & ->). by exists d.
    + specialize (IH c). unfold refreshed. cbn [foldl].
      fold (refreshed (readDeadline c) rest).
      destruct (on_time (readDeadline c) rest); done.
    + exists (readDeadline c). unfold readPump_deferred.
      by rewrite PumpFacts.readPump_returned_stays, SetReadDeadline_same.
Qed.

Lemma on_time_without_pong (d : Z) (arrivals : list arrival) :
  forallb (fun a => negb (is_pong a)) arrivals = true ->
  on_time d arrivals
  = forallb (fun a => match a with
                      | Data now _ => now <=? d
                      | _ => false
                      end) arrivals.
Proof.
  induction arrivals as [|a rest IH]; [done|]. cbn [forallb on_time].
  intros [Ha Hrest]%andb_prop. destruct a as [now|now msg|now e]; try done.
  - cbn [arrival_time]. by rewrite IH.
  - cbn [arrival_time]. by rewrite andb_false_r.
Qed.

(** X20.  The read pump is still reading after a list of arrivals exactly
    when none of them is a failure and each comes no later than the read
    deadline in force at that moment, which starts 60 seconds after the
    start of the pump and which only the pongs before it have moved.  In
    that case the connection is the one it was given, with the read limit
    of 512 KB and that deadline, neither closed nor written to; in the
    other case the pump has returned, the client was sent to the
    unregister case and the connection is closed.  In particular, against
    a peer that sends no pong the pump reads on only as long as data
    arrives within the first 60 seconds. *)
Theorem readPump_reads_while_on_time (start : Z) (arrivals : list arrival)
    (c : Conn) :
  (if on_time (start + 60 * Second) arrivals
   then readPump start arrivals c
        = Reading (SetReadDeadline (refreshed (start + 60 * Second) arrivals)
                     (SetReadLimit (512 * 1024) c))
   else exists c',
        readPump start arrivals c = Returned c' true /\
        conn_closed c' = true /\ written c' = written c) /\
  (forallb (fun a => negb (is_pong a)) arrivals = true ->
   ((exists c', readPump start arrivals c = Reading c')
    <-> forall a, a ∈ arrivals ->
          exists msg now, a = Data now msg /\ now <= start + 60 * Second)).
Proof.
  pose proof (read_loop_on_time arrivals (readPump_init start c)) as Hloop.
  unfold readPump_init in Hloop. cbn [readDeadline SetReadDeadline SetReadLimit] in Hloop.
  split.
  - unfold readPump, readPump_init.
    destruct (on_time (start + 60 * Second) arrivals).
    + rewrite Hloop. done.
    + destruct Hloop as (d & Hd). eexists. split; [exact Hd|]. done.
  - intros Hnopong.
    rewrite (on_time_without_pong _ _ Hnopong) in Hloop.
    unfold readPump, readPump_init.
    destruct (forallb _ arrivals) eqn:Hall.
    + split; [|intros _; by eexists].
      intros _ a Ha. rewrite forallb_forall in Hall.
      apply list_elem_of_In, Hall in Ha. destruct a as [now|now msg|now e]; try done.
      exists msg, now. split; [done|lia].
    + destruct Hloop as (d & Hd). split.
      * intros (c' & Hc'). rewrite Hd in Hc'. done.
      * intros Hdata. exfalso.
        assert (forallb (fun a => match a with
                                  | Data now _ => now <=? start + 60 * Second
                                  | _ => false
                                  end) arrivals = true) as Habs; [|congruence].
        apply forallb_forall. intros a Ha%list_elem_of_In.
        destruct (Hdata a Ha) as (msg & now & -> & Hle). lia.
Qed.

Lemma wrote_step (c : Conn) (n : nat) (e : selected) (p : wpump) :
  wrote c n p -> wrote c (S n) (writePump_step e p).
Proof.
  destruct p as [c'|c']; simpl.
  2:{ intros (Hcl & fs & Hw & Hlen & Hlast). split; [done|].
      exists fs. split; [done|]. split; [lia|done]. }
  intros (Hcl & fs & Hw & Hlen & Hno).
  assert (forall f, f <> CloseMessage -> CloseMessage ∉ fs ++ [f]) as Hsnoc.
  { intros f Hf [?|Hin%list_elem_of_singleton]%elem_of_app; [done|congruence]. }
  destruct e as [now [msg|] queued [err|]|now [err|]]; simpl.
  - split; [done|]. exists fs. split; [done|]. split; [lia|done].
  - split; [done|]. eexists (fs ++ [_]). rewrite Hw, <- app_assoc.
    split; [done|]. rewrite length_app. simpl. split; [lia|]. by apply Hsnoc.
  - split; [done|]. exists (fs ++ [CloseMessage]). rewrite Hw, <- app_assoc.
    split; [done|]. rewrite length_app. simpl. split; [lia|].
    intros _. by rewrite last_snoc.
  - split; [done|]. exists (fs ++ [CloseMessage]). rewrite Hw, <- app_assoc.
    split; [done|]. rewrite length_app. simpl. split; [lia|].
    intros _. by rewrite last_snoc.
  - split; [done|]. exists fs. split; [done|]. split; [lia|done].
  - split; [done|]. exists (fs ++ [PingMessage]). rewrite Hw, <- app_assoc.
    split; [done|]. rewrite length_app. simpl. split; [lia|]. by apply Hsnoc.
Qed.

Lemma wrote_run (c : Conn) (events : list selected) (n : nat) (p : wpump) :
  wrote c n p ->
  wrote c (n + length events) (foldl (fun p e => writePump_step e p) p events).
Proof.
  revert n p. induction events as [|e rest IH]; intros n p Hp; simpl.
  - by rewrite Nat.add_0_r.
  - replace (n + S (length rest))%nat with (S n + length rest)%nat by lia.
    apply IH. by apply wrote_step.
Qed.

(** X21.  Whatever the write pump selects, it only appends to what was
    written on the connection.  While it is in its loop the connection
    is as open as it was, every selection has written exactly one frame
    (a batch of queued messages goes out as one text frame) and no close
    frame was written.  Once it has returned the connection is closed,
    at most one frame per selection was written, and a close frame, if
    one was written, is the last frame. *)
Theorem writePump_frames (events : list selected) (c : Conn) :
  match writePump events c with
  | Writing c' =>
      conn_closed c' = conn_closed c /\
      exists fs, written c' = written c ++ fs /\
                 length fs = length events /\ CloseMessage ∉ fs
  | WReturned c' =>
      conn_closed c' = true /\
      exists fs, written c' = written c ++ fs /\
                 (length fs <= length events)%nat /\
                 (CloseMessage ∈ fs -> last fs = Some CloseMessage)
  end.
Proof.
  assert (wrote c 0 (Writing c)) as H0.
  { split; [done|]. exists []. rewrite app_nil_r. split; [done|].
    split; [done|]. apply not_elem_of_nil. }
  apply (wrote_run c events) in H0. exact H0.
Qed.

End PumpRunFacts.

(** ** The terminal endpoint *)

Module EndpointFacts.

Import Terminal Websocket.

Local Open Scope Z_scope.

Lemma CreateSession_Ok_inv os m id shell cols rows w m' w' p :
  CreateSession os m id shell cols rows w = (m', w', Ok p) ->
  let resolved :=
    if bool_decide (shell = "") then GetDefaultShell os m else shell in
  sessions m !! id = None /\ p = Terminal.next w /\
  sessions m' = <[id := p]> (sessions m) /\
  Terminal.objs w' = <[p := {| ID := id; Shell := resolved; Cmd := Some p;
                      Pty := Some p; Terminal.closed := false |}]> (Terminal.objs w) /\
  trace w' = trace w ++ [SysSpawn resolved cols rows].
Proof.
  unfold CreateSession.
  destruct (maxSessions m <=? Z.of_nat (size (sessions m))); [done|].
  case_bool_decide as Hdup; [done|]. apply eq_None_not_Some in Hdup.
  destruct (IsShellAllowed m _); simpl; [|done].
  unfold newPlatformSession. destruct (spawn os _ cols rows); [done|].
  by intros [= <- <- <-].
Qed.

Lemma CreateSession_Err_inv os m id shell cols rows w m' w' e :
  CreateSession os m id shell cols rows w = (m', w', Err e) ->
  m' = m /\ Terminal.objs w' = Terminal.objs w /\ Terminal.next w' = Terminal.next w.
Proof.
  unfold CreateSession.
  destruct (maxSessions m <=? Z.of_nat (size (sessions m))); [by intros [= <- <- _]|].
  case_bool_decide as Hdup; [by intros [= <- <- _]|].
  destruct (IsShellAllowed m _); simpl; [|by intros [= <- <- _]].
  unfold newPlatformSession. destruct (spawn os _ cols rows); [|done].
  by intros [= <- <- _].
Qed.

(** What [CloseSession] does to a session that [CreateSession] has just
    registered at [p]. *)
Lemma CloseSession_fresh os (m : Manager) (w : World) id p s :
  sessions m !! id = Some p ->
  Terminal.objs w !! p = Some s -> Terminal.closed s = false ->
  Cmd s = Some p -> Pty s = Some p ->
  exists m' w' err,
    CloseSession os m id w = (m', w', err) /\
    sessions m' = delete id (sessions m) /\
    trace w' = trace w ++ [SysKill p; SysPtyClose p] /\
    exists s', Terminal.objs w' !! p = Some s' /\ Terminal.closed s' = true.
Proof.
  intros Hid Hp Hopen Hcmd Hpty. unfold CloseSession. rewrite Hid.
  do 3 eexists. split; [done|]. split; [done|].
  unfold Close. rewrite Hp. unfold Session_Close. rewrite Hopen, Hcmd, Hpty.
  simpl. rewrite <- app_assoc. split; [done|].
  eexists. by rewrite lookup_insert_eq.
Qed.

(** X22.  The terminal endpoint.  When [CreateSession] fails, the handler
    answers with that error as an internal server error and neither the
    registry, nor the session objects, nor the terminal hub change.  When
    the session is created and the upgrade of the connection fails, the
    session is closed again: the registry and the hub are as before the
    request, and the operating system saw the shell started, its process
    killed and its pseudo-terminal closed, in this order.  When the
    upgrade succeeds, the session and a new client, with an open queue of
    256 messages, are registered under the session identifier, and the
    deferred function of the inbound pump, run on the state that the
    handler left, does not panic, takes both entries out again, kills the process,
    closes the pseudo-terminal, and closes the queue and the connection
    of the client. *)
Theorem terminal_endpoint (os : Platform) (upgrade : option error)
    (sessionID shell : string) (st : Api.State) :
  let resolved :=
    if bool_decide (shell = "")
    then GetDefaultShell os (Api.manager st) else shell in
  let started := trace (Api.world st) ++ [SysSpawn resolved 80 24] in
  match CreateSession os (Api.manager st) sessionID shell 80 24 (Api.world st) with
  | (_, _, Err e) =>
      exists st',
        Api.HandleWebSocket os upgrade sessionID shell st
        = (st', Api.InternalServerError e) /\
        Api.manager st' = Api.manager st /\
        Terminal.objs (Api.world st') = Terminal.objs (Api.world st) /\
        Api.terminalHub st' = Api.terminalHub st
  | (_, _, Ok p) =>
      match upgrade with
      | Some _ =>
          exists st',
            Api.HandleWebSocket os upgrade sessionID shell st
            = (st', Api.UpgradeFailed) /\
            sessions (Api.manager st') = sessions (Api.manager st) /\
            Api.terminalHub st' = Api.terminalHub st /\
            trace (Api.world st') = started ++ [SysKill p; SysPtyClose p] /\
            exists s, Terminal.objs (Api.world st') !! p = Some s /\
                      Terminal.closed s = true
      | None =>
          let client := tnext (Api.terminalHub st) in
          exists st',
            Api.HandleWebSocket os upgrade sessionID shell st
            = (st', Api.Serving client p) /\
            GetSession (Api.manager st') sessionID = Some p /\
            tclients (Api.terminalHub st') !! sessionID = Some client /\
            tobjs (Api.terminalHub st') !! client
            = Some {| t_sessionID := sessionID; t_send := make_chan 256;
                      t_conn_closed := false |} /\
            trace (Api.world st') = started /\
            exists st'',
              Api.handleTerminalInput_defer os sessionID st' = Done st'' /\
              sessions (Api.manager st'') = sessions (Api.manager st) /\
              tclients (Api.terminalHub st'')
              = delete sessionID (tclients (Api.terminalHub st)) /\
              trace (Api.world st'') = started ++ [SysKill p; SysPtyClose p] /\
              (exists s, Terminal.objs (Api.world st'') !! p = Some s /\
                         Terminal.closed s = true) /\
              exists c, tobjs (Api.terminalHub st'') !! client = Some c /\
                        Go.closed (t_send c) = true /\ t_conn_closed c = true
      end
  end.
Proof.
  intros resolved started. unfold Api.HandleWebSocket.
  destruct (CreateSession os (Api.manager st) sessionID shell 80 24 (Api.world st))
    as [[m w] [p|e]] eqn:Hcreate.
  2:{ apply CreateSession_Err_inv in Hcreate as (-> & Hobjs & _).
      eexists. split; [done|]. by simpl. }
  apply CreateSession_Ok_inv in Hcreate as (Hfree & Hp & Hm & Hw & Htr).
  fold resolved in Hw, Htr. fold started in Htr.
  assert (sessions m !! sessionID = Some p) as Hreg
    by (by rewrite Hm, lookup_insert_eq).
  assert (delete sessionID (sessions m) = sessions (Api.manager st)) as Hback.
  { rewrite Hm, delete_insert_eq. by apply delete_id. }
  destruct (CloseSession_fresh os m w sessionID p _ Hreg
              ltac:(by rewrite Hw, lookup_insert_eq) eq_refl eq_refl eq_refl)
    as (m' & w' & err & Hclose & Hm' & Htr' & s' & Hs' & Hcl').
  destruct upgrade as [e|]; simpl.
  - rewrite Hclose. eexists. split; [done|]. simpl.
    split; [by rewrite Hm', Hback|]. split; [done|].
    split; [by rewrite Htr', Htr|]. by exists s'.
  - eexists. split; [done|]. simpl. unfold GetSession.
    split; [done|]. split; [by rewrite lookup_insert_eq|].
    split; [by rewrite lookup_insert_eq|]. split; [done|].
    unfold Api.handleTerminalInput_defer. simpl. rewrite Hclose.
    unfold RemoveClient. simpl. rewrite !lookup_insert_eq. simpl.
    eexists. split; [done|]. simpl.
    split; [by rewrite Hm', Hback|].
    split; [by rewrite delete_insert_eq|].
    split; [by rewrite Htr', Htr|].
    split; [by exists s'|].
    eexists. by rewrite lookup_insert_eq.
Qed.

End EndpointFacts.

(** ** The search of processes by name *)

Module ProcessFacts.

Import Process.

Lemma lower_byte_idemp (c : ascii) : lower_byte (lower_byte c) = lower_byte c.
Proof. destruct c as [[] [] [] [] [] [] [] []]; reflexivity. Qed.

Lemma toLower_length (s : string) : String.length (toLower s) = String.length s.
Proof. induction s as [|c s IH]; [done|]. simpl. by rewrite IH. Qed.

Lemma toLower_idemp (s : string) : toLower (toLower s) = toLower s.
Proof.
  induction s as [|c s IH]; [done|]. simpl. by rewrite lower_byte_idemp, IH.
Qed.

Lemma append_length (s t : string) :
  String.length (s +:+ t) = (String.length s + String.length t)%nat.
Proof.
  induction s as [|c s IH]; [done|].
  change (S (String.length (s +:+ t)) = S (String.length s + String.length t)).
  by rewrite IH.
Qed.

Lemma append_nil_r (s : string) : s +:+ "" = s.
Proof.
  induction s as [|c s IH]; [done|].
  change (String c (s +:+ "") = String c s). by rewrite IH.
Qed.

Lemma substring_decompose (s : string) (k n : nat) :
  String.length (String.substring k n s) = n -> (k <= String.length s)%nat ->
  exists pre post,
    s = pre +:+ String.substring k n s +:+ post /\ String.length pre = k.
Proof.
  revert k n. induction s as [|c s IH]; intros k n Hlen Hk.
  - simpl in Hk. assert (k = 0%nat) as -> by lia.
    exists "", "". by destruct n.
  - destruct k as [|k].
    + destruct n as [|n].
      * exists "", (String c s). done.
      * simpl in Hlen. injection Hlen as Hlen.
        destruct (IH 0%nat n Hlen ltac:(lia)) as (pre & post & Hs & Hpre).
        destruct pre; [|done]. exists "", post. split; [|done].
        change (String c s = String c (String.substring 0 n s +:+ post)).
        by rewrite Hs at 1.
    + simpl in Hk. simpl in Hlen.
      destruct (IH k n Hlen ltac:(lia)) as (pre & post & Hs & Hpre).
      exists (String c pre), post. split; [|by simpl; rewrite Hpre].
      change (String c s
              = String c (pre +:+ String.substring (S k) n (String c s) +:+ post)).
      simpl String.substring. by rewrite Hs at 1.
Qed.

Lemma substring_prefix (t post : string) :
  String.substring 0 (String.length t) (t +:+ post) = t.
Proof.
  induction t as [|c t IH];
    [change (String.substring 0 0 post = ""); by destruct post|].
  change (String c (String.substring 0 (String.length t) (t +:+ post)) = String c t).
  by rewrite IH.
Qed.

Lemma substring_middle (pre t post : string) :
  String.substring (String.length pre) (String.length t) (pre +:+ t +:+ post) = t.
Proof.
  induction pre as [|c pre IH];
    [change (String.substring 0 (String.length t) (t +:+ post) = t);
     apply substring_prefix|].
  exact IH.
Qed.

Lemma containsIgnoreCase_loop_spec (s t : string) (i n : nat) :
  containsIgnoreCase_loop s t i n = true
  <-> exists k, (i <= k < i + n)%nat /\ String.substring k (String.length t) s = t.
Proof.
  revert i. induction n as [|n IH]; intros i; simpl.
  - split; [done|]. intros (k & ? & _). lia.
  - destruct (String.eqb_spec (String.substring i (String.length t) s) t) as [Heq|Hne].
    + split; [|done]. intros _. exists i. split; [lia|done].
    + rewrite IH. split.
      * intros (k & ? & Hk). exists k. split; [lia|done].
      * intros (k & ? & Hk). exists k. split; [|done].
        destruct (decide (k = i)) as [->|]; [done|lia].
Qed.

(** X23.  [containsIgnoreCase s substr] holds exactly when the lower-case
    form of [substr] occurs somewhere inside the lower-case form of [s]:
    the empty string is contained in everything, and a string longer than
    [s] in nothing.  The answer does not change when either argument is
    replaced by its lower-case form; every string contains itself;
    [toLower] keeps the length and lowering twice is lowering once. *)
Theorem containsIgnoreCase_spec (s substr : string) :
  (containsIgnoreCase s substr = true
   <-> exists pre post, toLower s = pre +:+ toLower substr +:+ post) /\
  containsIgnoreCase (toLower s) substr = containsIgnoreCase s substr /\
  containsIgnoreCase s (toLower substr) = containsIgnoreCase s substr /\
  containsIgnoreCase s s = true /\
  String.length (toLower s) = String.length s /\
  toLower (toLower s) = toLower s.
Proof.
  assert (forall s substr,
            containsIgnoreCase s substr = true
            <-> exists pre post, toLower s = pre +:+ toLower substr +:+ post)
    as Hspec.
  { clear. intros s substr. unfold containsIgnoreCase.
    destruct (Nat.eqb_spec (String.length substr) 0) as [Hempty|Hne].
    { split; [|done]. intros _. exists "", (toLower s).
      destruct substr; [done|]. done. }
    destruct (Nat.ltb_spec (String.length s) (String.length substr)) as [Hshort|Hlong].
    { split; [done|]. intros (pre & post & Heq).
      apply (f_equal String.length) in Heq.
      rewrite !append_length, !toLower_length in Heq. lia. }
    rewrite containsIgnoreCase_loop_spec, !toLower_length. split.
    - intros (k & Hk & Hsub).
      destruct (substring_decompose (toLower s) k (String.length (toLower substr)))
        as (pre & post & Hs & _).
      + by rewrite toLower_length, Hsub, toLower_length.
      + rewrite toLower_length. lia.
      + exists pre, post. rewrite toLower_length, Hsub in Hs. exact Hs.
    - intros (pre & post & Heq). exists (String.length pre).
      pose proof (f_equal String.length Heq) as Hlen.
      rewrite !append_length, !toLower_length in Hlen.
      split; [lia|]. rewrite Heq, <- (toLower_length substr).
      apply substring_middle. }
  split; [apply Hspec|].
  split; [apply Bool.eq_iff_eq_true; by rewrite !Hspec, toLower_idemp|].
  split; [apply Bool.eq_iff_eq_true; by rewrite !Hspec, toLower_idemp|].
  split; [apply Hspec; exists "", "";
          change (toLower s = toLower s +:+ ""); by rewrite append_nil_r|].
  split; [apply toLower_length|apply toLower_idemp].
Qed.

End ProcessFacts.

(** ** The permission string of a file *)

Module FilesFacts.

Import Files.

Local Open Scope Z_scope.

Lemma land_bit (a n : Z) :
  0 <= n -> negb (Z.land a (Z.shiftl 1 n) =? 0) = Z.testbit a n.
Proof.
  intros Hn. rewrite Z.shiftl_1_l.
  destruct (Z.testbit a n) eqn:Hbit.
  - destruct (Z.eqb_spec (Z.land a (2 ^ n)) 0) as [Hz|]; [|done].
    apply (f_equal (fun z => Z.testbit z n)) in Hz.
    rewrite Z.land_spec, Hbit, Z.pow2_bits_true, Z.bits_0 in Hz by done. done.
  - destruct (Z.eqb_spec (Z.land a (2 ^ n)) 0) as [|Hnz]; [done|].
    exfalso. apply Hnz. apply Z.bits_inj'. intros m Hm.
    rewrite Z.land_spec, Z.bits_0, Z.pow2_bits_eqb by done.
    destruct (Z.eqb_spec n m) as [->|]; [by rewrite Hbit|apply andb_false_r].
Qed.

Lemma perm_bit (mode n : Z) :
  0 <= n < 9 -> Z.testbit (Z.land mode 511) n = Z.testbit mode n.
Proof.
  intros Hn. rewrite Z.land_spec. change 511 with (Z.ones 9).
  rewrite Z.ones_spec_low by done. apply andb_true_r.
Qed.

Lemma formatPermissions_unfold (mode : Z) :
  formatPermissions mode
  = String.string_of_list_ascii
      (map (fun i : nat =>
              if Z.testbit mode (Z.of_nat (8 - i)) then letter i else "-"%char)
           (seq 0 9)).
Proof.
  unfold formatPermissions. f_equal. apply map_ext_in.
  intros i Hi%in_seq. rewrite land_bit, perm_bit by lia. done.
Qed.

(** X24.  [formatPermissions] returns nine bytes; byte [i] is the letter
    of [rwxrwxrwx] at [i] when bit [8 - i] of the mode is set and a dash
    when it is clear; so two modes give the same string exactly when
    their nine permission bits agree, whatever their other bits. *)
Theorem formatPermissions_bits (mode : Z) :
  String.length (formatPermissions mode) = 9%nat /\
  (forall i : nat, (i < 9)%nat ->
     String.get i (formatPermissions mode)
     = if Z.testbit mode (Z.of_nat (8 - i))
       then String.get i "rwxrwxrwx" else Some "-"%char) /\
  (forall mode',
     formatPermissions mode = formatPermissions mode'
     <-> Z.land mode 511 = Z.land mode' 511).
Proof.
  assert (forall mode (i : nat), (i < 9)%nat ->
     String.get i (formatPermissions mode)
     = if Z.testbit mode (Z.of_nat (8 - i))
       then String.get i "rwxrwxrwx" else Some "-"%char) as Hget.
  { clear. intros mode i Hi. rewrite formatPermissions_unfold.
    generalize (Z.testbit mode). intros bit.
    do 9 (destruct i as [|i]; [simpl; by destruct (bit _)|]). lia. }
  split; [by rewrite formatPermissions_unfold|]. split; [apply Hget|].
  intros mode'. split.
  - intros Heq. apply Z.bits_inj'. intros n Hn.
    destruct (Z_lt_ge_dec n 9) as [Hlt|Hge].
    + rewrite !perm_bit by lia.
      pose proof (Hget mode (Z.to_nat (8 - n)) ltac:(lia)) as H1.
      pose proof (Hget mode' (Z.to_nat (8 - n)) ltac:(lia)) as H2.
      rewrite Heq, H2 in H1.
      replace (Z.of_nat (8 - Z.to_nat (8 - n))) with n in H1 by lia.
      assert (String.get (Z.to_nat (8 - n)) "rwxrwxrwx" <> Some "-"%char) as Hletter.
      { assert (exists i : nat, (i < 9)%nat /\ Z.to_nat (8 - n) = i) as (i & Hi & ->)
          by (eexists; split; [|done]; lia).
        do 9 (destruct i as [|i]; [done|]). lia. }
      destruct (Z.testbit mode n), (Z.testbit mode' n); congruence.
    + rewrite !Z.land_spec. change 511 with (Z.ones 9).
      rewrite Z.ones_spec_high by lia. by rewrite !andb_false_r.
  - intros Heq. unfold formatPermissions. by rewrite Heq.
Qed.

End FilesFacts.

(** ** The comparison of versions *)

Module UpdaterFacts.

Import Updater.

Lemma compare_refl (s : string) : String.compare s s = Eq.
Proof.
  pose proof (String.compare_antisym s s) as H.
  by destruct (String.compare s s).
Qed.

Lemma ltb_irrefl (s : string) : String.ltb s s = false.
Proof. unfold String.ltb. by rewrite compare_refl. Qed.

Lemma ltb_asym (a b : string) : String.ltb a b = true -> String.ltb b a = false.
Proof.
  unfold String.ltb. rewrite (String.compare_antisym a b).
  by destruct (String.compare b a).
Qed.

Lemma ltb_total (a b : string) :
  String.ltb a b = false -> String.ltb b a = false -> a = b.
Proof.
  unfold String.ltb. intros Hab Hba. apply String.compare_eq_iff.
  rewrite (String.compare_antisym a b) in Hab. rewrite (String.compare_antisym a b).
  destruct (String.compare b a); simpl in *; congruence.
Qed.

Lemma loop_refl (l : list string) : isNewerVersion_loop l l = None.
Proof. induction l as [|a l IH]; [done|]. simpl. by rewrite ltb_irrefl. Qed.

Lemma loop_swap (l1 l2 : list string) :
  isNewerVersion_loop l2 l1 = negb <$> isNewerVersion_loop l1 l2.
Proof.
  revert l2. induction l1 as [|a l1 IH]; intros [|b l2]; try done. simpl.
  destruct (String.ltb a b) eqn:Hab.
  - by rewrite (ltb_asym _ _ Hab).
  - destruct (String.ltb b a) eqn:Hba; [done|]. apply IH.
Qed.

Lemma loop_None_eq (l1 l2 : list string) :
  isNewerVersion_loop l1 l2 = None -> length l1 = length l2 -> l1 = l2.
Proof.
  revert l2. induction l1 as [|a l1 IH]; intros [|b l2]; try done. simpl.
  destruct (String.ltb b a) eqn:Hba; [done|].
  destruct (String.ltb a b) eqn:Hab; [done|].
  intros Hloop [= Hlen]. rewrite (ltb_total _ _ Hab Hba). f_equal. by apply IH.
Qed.

Lemma Split_dot_nonempty (s : string) : Split_dot s <> [].
Proof.
  induction s as [|c s IH]; [done|]. simpl.
  case_bool_decide; [done|]. by destruct (Split_dot s).
Qed.

Lemma Split_dot_inj (s t : string) : Split_dot s = Split_dot t -> s = t.
Proof.
  revert t. induction s as [|c s IH]; intros [|d t]; simpl.
  - done.
  - pose proof (Split_dot_nonempty t).
    case_bool_decide; [|by destruct (Split_dot t)].
    intros [= Ht]. congruence.
  - pose proof (Split_dot_nonempty s).
    case_bool_decide; [|by destruct (Split_dot s)].
    intros [= Hs]. congruence.
  - pose proof (Split_dot_nonempty s) as Hs.
    pose proof (Split_dot_nonempty t) as Ht.
    specialize (IH t).
    repeat case_bool_decide; subst.
    + intros [= Heq]. by rewrite (IH Heq).
    + by destruct (Split_dot t).
    + by destruct (Split_dot s).
    + destruct (Split_dot s) as [|p ps]; [done|].
      destruct (Split_dot t) as [|q qs]; [done|].
      intros [= -> -> ->]. by rewrite IH.
Qed.

(** X25.  [isNewerVersion], one leading [v] apart: against a current
    version that is [dev] or empty every version is newer; otherwise no
    version is newer than itself, of two such versions at most one is
    newer than the other, and neither is only when they are the same
    string. *)
Theorem isNewerVersion_order (a b : string) :
  (~ released b -> isNewerVersion a b = true) /\
  (released a -> isNewerVersion a a = false) /\
  (released a -> released b ->
   (isNewerVersion a b = true -> isNewerVersion b a = false) /\
   (isNewerVersion a b = false -> isNewerVersion b a = false ->
    TrimPrefix_v a = TrimPrefix_v b)).
Proof.
  unfold released, isNewerVersion. split; [|split].
  - intros Hb. repeat case_bool_decide; try done. by destruct Hb.
  - intros [Hd He]. rewrite !bool_decide_eq_false_2 by done. simpl.
    by rewrite loop_refl, Nat.ltb_irrefl.
  - intros [Hda Hea] [Hdb Heb]. rewrite !bool_decide_eq_false_2 by done. simpl.
    rewrite (loop_swap (Split_dot (TrimPrefix_v a)) (Split_dot (TrimPrefix_v b))).
    destruct (isNewerVersion_loop _ _) as [[]|] eqn:Hloop; simpl.
    + done.
    + done.
    + split.
      * intros Hlt%Nat.ltb_lt. apply Nat.ltb_ge. lia.
      * intros Hab%Nat.ltb_ge Hba%Nat.ltb_ge.
        apply Split_dot_inj, loop_None_eq; [done|lia].
Qed.

(** The parts are compared as strings, not as numbers: 1.10.0 is not
    newer than 1.9.0. *)
Example isNewerVersion_compares_strings :
  isNewerVersion "v1.10.0" "v1.9.0" = false /\
  isNewerVersion "v1.9.0" "v1.10.0" = true /\
  isNewerVersion "v1.2" "v1.2.0" = false /\
  isNewerVersion "v1.2.0" "v1.2" = true.
Proof. by vm_compute. Qed.

End UpdaterFacts.
